(** * Verification of the housing-fund loan repayment-schedule generator

    Shallow embedding of [generate_repayment_schedule] (src/gjjdkhk.py),
    followed by the theorems that settle the claims of the specification.

    Modelling conventions.
    - Python floats are idealised as exact rationals ([Qc], canonical
      fractions with Leibniz equality); every arithmetic expression is
      transcribed operator by operator.
    - A [datetime] is a calendar date at midnight: the caller builds the
      first payment date with [datetime.combine(d, datetime.min.time())]
      and the generator normalises every other date the same way.
    - The ledger rows are Python dicts; the three keys that the simulator
      writes only on some rows are [option] fields.
    - Exceptions are a result type; the statements [raise ValueError], the
      float divisions and the last column access of an empty table are the
      places that can raise. *)

From Stdlib Require Import QArith Qcanon Qround Lqa Lia ZArith Ascii.
From stdpp Require Import base decidable countable numbers gmap list sorting strings.

Open Scope Qc_scope.

(** ** Exceptions *)

Inductive exn : Type :=
| ValueError          (* raise ValueError("不支持的还款类型"); a date out of range *)
| ZeroDivisionError   (* float division or power by zero *)
| KeyError.           (* df['还款日期'] on a table without rows *)

Inductive result (A : Type) : Type :=
| Ok (a : A)
| Raise (e : exn).
Arguments Ok {A} a.
Arguments Raise {A} e.

Global Instance result_ret : MRet result := fun A a => Ok a.

Global Instance result_bind : MBind result := fun A B k m =>
  match m with
  | Ok a => k a
  | Raise e => Raise e
  end.

(** ** Numbers *)

(** Integer and decimal literals of the source. *)
Definition num (z : Z) : Qc := Qc_of_Z z.
Definition cent : Qc := Q2Qc (1 # 100).          (* 0.01 *)
Definition tolerance : Qc := Q2Qc (1 # 100000).   (* 1e-5 *)

Definition Qc_leb (x y : Qc) : bool := Qle_bool x y.
Definition Qc_ltb (x y : Qc) : bool := negb (Qle_bool y x).
Definition Qc_eqb (x y : Qc) : bool := Qeq_bool x y.

(** [abs] *)
Definition Qc_abs (x : Qc) : Qc := if Qc_ltb x 0 then - x else x.

(** Python's [a / b] on floats. *)
Definition py_div (a b : Qc) : result Qc :=
  if Qc_eqb b 0 then Raise ZeroDivisionError else Ok (a / b).

(** Python's [a ** n] for a float base and an int exponent. *)
Definition py_pow (a : Qc) (n : Z) : result Qc :=
  if (0 <=? n)%Z then Ok (a ^ Z.to_nat n)
  else if Qc_eqb a 0 then Raise ZeroDivisionError
  else Ok (/ (a ^ Z.to_nat (- n))).

(** Round half to even, the rule of [numpy.round]. *)
Definition round_half_even (q : Qc) : Z :=
  let f := Qfloor q in
  let d := q - num f in
  let half := Q2Qc (1 # 2) in
  if Qc_ltb d half then f
  else if Qc_ltb half d then (f + 1)%Z
  else if Z.even f then f else (f + 1)%Z.

(** [Series.round(k)] *)
Definition round_dec (k : Z) (q : Qc) : Qc :=
  num (round_half_even (q * num (10 ^ k))) / num (10 ^ k).

(** ** Calendar dates *)

Record datetime : Type := mkdt { year : Z; month_of : Z; day : Z }.

Definition dt_tuple (d : datetime) : Z * Z * Z := (year d, month_of d, day d).

Global Instance datetime_eq_dec : EqDecision datetime.
Proof. solve_decision. Defined.

Global Instance datetime_countable : Countable datetime.
Proof.
  refine (inj_countable' dt_tuple (fun t => mkdt t.1.1 t.1.2 t.2) _).
  by intros [].
Defined.

(** Lexicographic order of [datetime.__lt__] / [__le__]. *)
Definition dt_ltb (a b : datetime) : bool :=
  (year a <? year b)%Z
  || ((year a =? year b)%Z
      && ((month_of a <? month_of b)%Z
          || ((month_of a =? month_of b)%Z && (day a <? day b)%Z))).

Definition dt_leb (a b : datetime) : bool := negb (dt_ltb b a).

Definition dt_lt (a b : datetime) : Prop := dt_ltb a b = true.
Definition dt_le (a b : datetime) : Prop := dt_leb a b = true.

Definition is_leap (y : Z) : bool :=
  ((y mod 4 =? 0) && (negb (y mod 100 =? 0) || (y mod 400 =? 0)))%Z.

Definition days_in_month (y m : Z) : Z :=
  if (m =? 2)%Z then (if is_leap y then 29 else 28)%Z
  else if ((m =? 4) || (m =? 6) || (m =? 9) || (m =? 11))%Z then 30%Z
  else 31%Z.

Definition days_before_year (y : Z) : Z :=
  let y1 := (y - 1)%Z in
  (y1 * 365 + y1 / 4 - y1 / 100 + y1 / 400)%Z.

Fixpoint days_before_month_aux (y : Z) (m : nat) : Z :=
  match m with
  | O => 0%Z
  | S m' => (days_before_month_aux y m' + days_in_month y (Z.of_nat m))%Z
  end.

Definition days_before_month (y m : Z) : Z :=
  days_before_month_aux y (Z.to_nat (m - 1)).

(** [date.toordinal()]. *)
Definition toordinal (d : datetime) : Z :=
  (days_before_year (year d) + days_before_month (year d) (month_of d) + day d)%Z.

(** [(a - b).days] for two midnights. *)
Definition days_between (a b : datetime) : Z := (toordinal a - toordinal b)%Z.

(** [d + relativedelta(months=+1)], the arithmetic: next month, the day
    clipped to the length of the target month.  [relativedelta] hands the
    result to [datetime.replace]; the range check of that call is
    [in_calendar], made where the loop assigns the new date. *)
Definition add_month (d : datetime) : datetime :=
  let m := (month_of d + 1)%Z in
  let y := if (12 <? m)%Z then (year d + 1)%Z else year d in
  let m := if (12 <? m)%Z then (m - 12)%Z else m in
  mkdt y m (Z.min (days_in_month y m) (day d)).

(** [datetime.MAXYEAR]: a [datetime] beyond the year 9999 cannot be
    built, the attempt raises [ValueError]. *)
Definition in_calendar (d : datetime) : bool := (year d <=? 9999)%Z.

(** [datetime(d.year, d.month, 1)]. *)
Definition month_start (d : datetime) : datetime :=
  mkdt (year d) (month_of d) 1.

(** ** Stable sort by a date key

    [list.sort(key=...)] and [sorted(...)] are stable; insertion before the
    first element with a strictly later key keeps equal keys in input order. *)

Section Sorting.
Context {A : Type} (key : A -> datetime).

Fixpoint insert_by (x : A) (l : list A) : list A :=
  match l with
  | [] => [x]
  | y :: l' => if dt_leb (key x) (key y) then x :: l else y :: insert_by x l'
  end.

Fixpoint sort_by (l : list A) : list A :=
  match l with
  | [] => []
  | x :: l' => insert_by x (sort_by l')
  end.

Definition key_le (x y : A) : Prop := dt_le (key x) (key y).
End Sorting.

(** ** Ledger rows, prepayments, output table *)

Inductive row_kind : Type :=
| Regular       (* '类型': '正常还款' *)
| Prepayment.   (* '类型': '提前还款' *)

Global Instance row_kind_eq_dec : EqDecision row_kind.
Proof. solve_decision. Defined.

(** One dict of the list [schedule]. *)
Record row : Type := mkRow {
  period : Z;                 (* '期数' *)
  pay_date : datetime;        (* '还款日期' *)
  kind : row_kind;            (* '类型' *)
  principal : Qc;             (* '月供本金' *)
  interest : Qc;              (* '月供利息' *)
  remaining : Qc;             (* '剩余本金' *)
  total_payment : option Qc;  (* '月供总额' *)
  cum_principal : option Qc;  (* '累计已还本金' *)
  cum_interest : option Qc;   (* '累计已还利息' *)
}.

(** One dict of [prepayment_details]; the amount is read with
    [prepay.get('amount', 0)]. *)
Record prepayment : Type := mkPrepay {
  pdate : datetime;      (* 'date' *)
  amount : option Qc;    (* 'amount' *)
}.

Definition get_amount (p : prepayment) : Qc := default 0 (amount p).

(** One line of the returned DataFrame. *)
Record out_row : Type := mkOut {
  o_period : Z;
  o_date : datetime;
  o_kind : row_kind;
  o_principal : Qc;
  o_interest : Qc;
  o_remaining : Qc;
  o_total_payment : Qc;
  o_cum_principal : Qc;
  o_cum_interest : Qc;
}.

(** The variables of the [while] loop. *)
Record sim_state : Type := mkState {
  current_date : datetime;
  remaining_principal : Qc;
  schedule : list row;
  current_rate : Qc;
  month : Z;
  prepayment_details : list prepayment;
}.

(** The variables the [for prepay in prepayment_details] loop updates. *)
Record loop_vars : Type := mkVars {
  lv_remaining : Qc;                 (* remaining_principal *)
  lv_schedule : list row;            (* schedule *)
  lv_processed : gset (Z * Z * Z);   (* processed_months *)
}.

(** How one pass of the [while] body ends. *)
Inductive step_end : Type :=
| Next (st : sim_state)       (* falls through to [month += 1] *)
| Again (st : sim_state)      (* [continue] of the [while] loop *)
| Break (st : sim_state).     (* [break] *)

Definition state_of (e : step_end) : sim_state :=
  match e with Next st | Again st | Break st => st end.

Definition regular_row (m : Z) (d : datetime) (principal_payment interest_ rem : Qc) : row :=
  mkRow m d Regular principal_payment interest_ (rem - principal_payment) None None None.

Definition prepay_row (m : Z) (d : datetime) (prepay_amount interest_ rem : Qc) : row :=
  mkRow m d Prepayment prepay_amount interest_ rem None None None.

(** ** The generator *)

Section Generator.
Variables (loan_amount : Qc) (loan_years : Z) (first_pay_date : datetime)
          (initial_rate : Qc) (rate_changes : gmap datetime Qc)
          (repayment_type : string).

Definition total_months : Z := (loan_years * 12)%Z.

(** [loan_amount * (r * (1 + r) ** n) / ((1 + r) ** n - 1)] *)
Definition equal_monthly_payment_of (monthly_rate : Qc) : result Qc :=
  p ← py_pow (1 + monthly_rate) total_months;
  py_div (loan_amount * (monthly_rate * p)) (p - 1).

(** [original_monthly_principal = loan_amount / total_months]; the
    variable [monthly_principal] is a copy that is never reassigned. *)
Definition monthly_principal : Qc := loan_amount / num total_months.

(** The rate-change scan at the head of the [while] body: every key of
    the dict, in sorted order, that is not after [current_date]
    overwrites [current_rate]. *)
Definition sorted_change_dates : list datetime :=
  sort_by id (map_to_list rate_changes).*1.

Definition resolve_rate (cur_date : datetime) (cur_rate : Qc) : Qc :=
  foldl (fun rate change_date =>
           if dt_leb change_date cur_date
           then default rate (rate_changes !! change_date)
           else rate)
        cur_rate sorted_change_dates.

(** The block "根据还款类型重新计算当期的还款内容", which the source
    repeats verbatim at its three payment sites; it yields
    [(interest, principal_payment)]. *)
Definition regular_payment (rem cur_rate : Qc) : result (Qc * Qc) :=
  let monthly_rate := cur_rate / num 100 / num 12 in
  if String.eqb repayment_type "equal_principal" then
    Ok (rem * monthly_rate, monthly_principal)
  else if String.eqb repayment_type "equal_payment" then
    let monthly_rate := initial_rate / num 100 / num 12 in
    equal_monthly_payment ← equal_monthly_payment_of monthly_rate;
    let interest_ := rem * monthly_rate in
    Ok (interest_, equal_monthly_payment - interest_)
  else Raise ValueError.

(** The edit of [schedule[-2]] after a prepayment that follows the
    regular payment; [rem] is the balance after the prepayment. *)
Definition retro_edit (rem prepay_amount interest_before_prepayment : Qc)
    (prev_record : row) : row :=
  let rem' := rem + prepay_amount in
  let principal' := principal prev_record - prepay_amount in
  {| period := period prev_record;
     pay_date := pay_date prev_record;
     kind := kind prev_record;
     principal := principal';
     interest := interest prev_record;
     remaining := rem';
     total_payment := Some (principal' + interest prev_record);
     cum_principal := Some (loan_amount - rem');
     cum_interest :=
       Some (match cum_interest prev_record with
             | Some c => c + interest_before_prepayment
             | None => interest_before_prepayment
             end) |}.

(** max((prepay_date - current_date).days, 1) *)
Definition days_in_period (prepay_date cur_date : datetime) : Z :=
  Z.max (days_between prepay_date cur_date) 1.

(** Branch [prepay_date < current_date]: prepayment row, then regular row. *)
Definition prepay_first (cur_date : datetime) (cur_rate : Qc) (m : Z)
    (prepay_date : datetime) (prepay_amount interest_ principal_payment : Qc)
    (lv : loop_vars) : loop_vars :=
  let rem := lv_remaining lv in
  let daily_interest := (rem * cur_rate / num 100) / num 365 in
  let interest_before_prepayment :=
    daily_interest * num (days_in_period prepay_date cur_date) in
  let rem := rem - prepay_amount in
  let sched := lv_schedule lv
               ++ [prepay_row m prepay_date prepay_amount interest_before_prepayment rem] in
  let sched := sched ++ [regular_row m cur_date principal_payment interest_ rem] in
  let rem := rem - principal_payment in
  mkVars rem sched ({[dt_tuple cur_date]} ∪ lv_processed lv).

(** The [else] branch: regular row, then prepayment row, then the edit
    of the regular row. *)
Definition regular_first (cur_date : datetime) (cur_rate : Qc) (m : Z)
    (prepay_date : datetime) (prepay_amount interest_ principal_payment : Qc)
    (lv : loop_vars) : loop_vars :=
  let rem := lv_remaining lv in
  let sched := lv_schedule lv
               ++ [regular_row m cur_date principal_payment interest_ rem] in
  let rem := rem - principal_payment in
  let daily_interest := (rem * cur_rate / num 100) / num 365 in
  let interest_before_prepayment :=
    daily_interest * num (days_in_period prepay_date cur_date) in
  let rem := rem - prepay_amount in
  let sched := sched
               ++ [prepay_row m prepay_date prepay_amount interest_before_prepayment rem] in
  let sched :=
    if (1 <? length sched)%nat
    then alter (retro_edit rem prepay_amount interest_before_prepayment)
               (length sched - 2)%nat sched
    else sched in
  mkVars rem sched ({[dt_tuple cur_date]} ∪ lv_processed lv).

(** [current_date.year == prepay['date'].year and
     current_date.month == prepay['date'].month] *)
Definition in_month (cur_date : datetime) (prepay : prepayment) : bool :=
  (year cur_date =? year (pdate prepay))%Z
  && (month_of cur_date =? month_of (pdate prepay))%Z.

(** One pass of the body of [for prepay in prepayment_details]. *)
Definition prepay_step (cur_date : datetime) (cur_rate : Qc) (m : Z)
    (lv : loop_vars) (prepay : prepayment) : result loop_vars :=
  if in_month cur_date prepay then
    if bool_decide (dt_tuple cur_date ∈ lv_processed lv) then Ok lv
    else
      let prepay_amount := get_amount prepay in
      if Qc_ltb 0 prepay_amount && Qc_ltb 0 (lv_remaining lv) then
        let prepay_date := pdate prepay in
        '(interest_, principal_payment) ← regular_payment (lv_remaining lv) cur_rate;
        if dt_ltb prepay_date cur_date then
          Ok (prepay_first cur_date cur_rate m prepay_date prepay_amount
                           interest_ principal_payment lv)
        else
          Ok (regular_first cur_date cur_rate m prepay_date prepay_amount
                            interest_ principal_payment lv)
      else Ok lv
  else
    if bool_decide (dt_tuple cur_date ∈ lv_processed lv) then Ok lv
    else
      '(interest_, principal_payment) ← regular_payment (lv_remaining lv) cur_rate;
      Ok (mkVars (lv_remaining lv - principal_payment)
                 (lv_schedule lv
                  ++ [regular_row m cur_date principal_payment interest_ (lv_remaining lv)])
                 ({[dt_tuple cur_date]} ∪ lv_processed lv)).

Fixpoint process_prepayments (cur_date : datetime) (cur_rate : Qc) (m : Z)
    (lv : loop_vars) (l : list prepayment) : result loop_vars :=
  match l with
  | [] => Ok lv
  | prepay :: l' =>
      lv' ← prepay_step cur_date cur_rate m lv prepay;
      process_prepayments cur_date cur_rate m lv' l'
  end.

(** The window filter
    [[item for item in prepayment_details if item['date'] >= current_year_month]]. *)
Definition window (cur_date : datetime) (l : list prepayment) : list prepayment :=
  filter (fun item => dt_leb (month_start cur_date) (pdate item) = true) l.

(** The end of the [while] body: snap to zero, [break] or advance. *)
Definition close_month (st : sim_state) (cur_rate : Qc)
    (pending : list prepayment) (rem : Qc) (sched : list row) : step_end :=
  let rem := if Qc_leb rem cent then 0 else rem in
  if Qc_leb rem 0 then
    Break (mkState (current_date st) rem sched cur_rate (month st) pending)
  else
    Next (mkState (add_month (current_date st)) rem sched cur_rate
                  (month st + 1) pending).

(** One pass of the body of the [while] loop. *)
Definition month_step (st : sim_state) : result step_end :=
  let cur_date := current_date st in
  let cur_rate := resolve_rate cur_date (current_rate st) in
  let pending := window cur_date (prepayment_details st) in
  lv ← process_prepayments cur_date cur_rate (month st)
        (mkVars (remaining_principal st) (schedule st) ∅) pending;
  match pending with
  | [] =>
      if bool_decide (dt_tuple cur_date ∈ lv_processed lv) then
        Ok (Again (mkState cur_date (lv_remaining lv) (lv_schedule lv) cur_rate
                           (month st) pending))
      else
        '(interest_, principal_payment) ← regular_payment (lv_remaining lv) cur_rate;
        Ok (close_month st cur_rate pending
              (lv_remaining lv - principal_payment)
              (lv_schedule lv
               ++ [regular_row (month st) cur_date principal_payment interest_
                               (lv_remaining lv)]))
  | _ :: _ => Ok (close_month st cur_rate pending (lv_remaining lv) (lv_schedule lv))
  end.

(** [remaining_principal > 0 and month <= total_months] *)
Definition loop_cond (st : sim_state) : bool :=
  Qc_ltb 0 (remaining_principal st) && (month st <=? total_months)%Z.

(** The [while] loop.  [fuel] bounds the number of passes; the branch
    for an exhausted bound is never taken when the loop starts with
    [total_months] passes (lemma [while_loop_fuel]).  A pass that falls
    through ends with [current_date += relativedelta(months=+1)], which
    raises [ValueError] when the new date lies beyond the year 9999. *)
Fixpoint while_loop (fuel : nat) (st : sim_state) : result sim_state :=
  if loop_cond st then
    match fuel with
    | O => Ok st
    | S fuel' =>
        e ← month_step st;
        match e with
        | Next st' =>
            if in_calendar (current_date st') then while_loop fuel' st'
            else Raise ValueError
        | Again st' => while_loop fuel' st'
        | Break st' => Ok st'
        end
    end
  else Ok st.

(** *** After the loop *)

(** "统一计算累计数据": running totals written on every dict. *)
Fixpoint accumulate (total_principal total_interest : Qc) (s : list row) : list row :=
  match s with
  | [] => []
  | r :: s' =>
      let total_principal := total_principal + principal r in
      let total_interest := total_interest + interest r in
      {| period := period r; pay_date := pay_date r; kind := kind r;
         principal := principal r; interest := interest r;
         remaining := remaining r; total_payment := total_payment r;
         cum_principal := Some total_principal;
         cum_interest := Some total_interest |}
      :: accumulate total_principal total_interest s'
  end.

(** The body of "检查并修正最后一期本金". *)
Definition adjust_row (last_row : row) : row :=
  let adjustment := remaining last_row in
  let principal' := principal last_row - adjustment in
  {| period := period last_row; pay_date := pay_date last_row;
     kind := kind last_row;
     principal := principal';
     interest := interest last_row;
     remaining := 0;
     total_payment := Some (principal' + interest last_row);
     cum_principal := Some loan_amount;
     cum_interest := cum_interest last_row |}.

(** [if schedule and abs(schedule[-1]['剩余本金']) > 1e-5: ...] *)
Definition adjust_last (s : list row) : list row :=
  match last s with
  | Some last_row =>
      if Qc_ltb tolerance (Qc_abs (remaining last_row))
      then alter adjust_row (length s - 1)%nat s
      else s
  | None => s
  end.

(** The DataFrame up to the 6-decimal columns: [月供总额] is the sum of
    the two payment columns, the cumulative columns are [cumsum().round(6)]
    and [剩余本金] is [(loan_amount - 累计已还本金).round(6)]. *)
Definition frame_row (r : row) (acc_principal acc_interest : Qc) : out_row :=
  let cum_p := round_dec 6 acc_principal in
  {| o_period := period r; o_date := pay_date r; o_kind := kind r;
     o_principal := principal r;
     o_interest := interest r;
     o_remaining := round_dec 6 (loan_amount - cum_p);
     o_total_payment := principal r + interest r;
     o_cum_principal := cum_p;
     o_cum_interest := round_dec 6 acc_interest |}.

Fixpoint frame_from (acc_principal acc_interest : Qc) (s : list row) : list out_row :=
  match s with
  | [] => []
  | r :: s' =>
      let acc_principal := acc_principal + principal r in
      let acc_interest := acc_interest + interest r in
      frame_row r acc_principal acc_interest
      :: frame_from acc_principal acc_interest s'
  end.

Definition build_frame (s : list row) : list out_row := frame_from 0 0 s.

(** "最终保留两位小数输出" *)
Definition round_row (r : out_row) : out_row :=
  {| o_period := o_period r; o_date := o_date r; o_kind := o_kind r;
     o_principal := round_dec 2 (o_principal r);
     o_interest := round_dec 2 (o_interest r);
     o_remaining := round_dec 2 (o_remaining r);
     o_total_payment := round_dec 2 (o_total_payment r);
     o_cum_principal := round_dec 2 (o_cum_principal r);
     o_cum_interest := round_dec 2 (o_cum_interest r) |}.

(** The list [schedule] when the DataFrame is built from it. *)
Definition ledger (s : list row) : list row := adjust_last (accumulate 0 0 s).

(** Everything after the loop; a table without rows has no date column,
    so the final [df['还款日期']] raises. *)
Definition finalize (s : list row) : result (list out_row) :=
  let s := ledger s in
  match s with
  | [] => Raise KeyError
  | _ :: _ => Ok (round_row <$> build_frame s)
  end.

Definition init_state (prepayments : list prepayment) : sim_state :=
  mkState first_pay_date loan_amount [] initial_rate 1 (sort_by pdate prepayments).

(** The ledger as the loop leaves it. *)
Definition simulate (prepayments : list prepayment) : result sim_state :=
  _ ← (if String.eqb repayment_type "equal_payment"
       then equal_monthly_payment_of (initial_rate / num 100 / num 12)
       else Ok 0);
  _ ← py_div loan_amount (num total_months);
  while_loop (Z.to_nat total_months) (init_state prepayments).

Definition generate_repayment_schedule (prepayments : list prepayment)
    : result (list out_row) :=
  st ← simulate prepayments;
  finalize (schedule st).

End Generator.

(** * Notions used in the statements *)

(** ** Passes and runs of the loop *)

(** A pending prepayment of the current month whose amount is not
    positive: the loop body does nothing for it. *)
Definition void (cur_date : datetime) (p : prepayment) : bool :=
  in_month cur_date p && negb (Qc_ltb 0 (get_amount p)).

(** The first pending prepayment the loop body acts on. *)
Fixpoint first_live (cur_date : datetime) (l : list prepayment) : option prepayment :=
  match l with
  | [] => None
  | p :: l' => if void cur_date p then first_live cur_date l' else Some p
  end.

Section Semantics.
Variables (loan_amount : Qc) (loan_years : Z) (first_pay_date : datetime)
          (initial_rate : Qc) (rate_changes : gmap datetime Qc)
          (repayment_type : string) (prepayments : list prepayment).

Local Abbreviation regular_payment :=
  (regular_payment loan_amount loan_years initial_rate repayment_type).
Local Abbreviation month_step :=
  (month_step loan_amount loan_years initial_rate rate_changes repayment_type).
Local Abbreviation init_state := (init_state loan_amount first_pay_date initial_rate).
Local Abbreviation regular_first := (regular_first loan_amount).
Local Abbreviation retro_edit := (retro_edit loan_amount).
Local Abbreviation resolve_rate := (resolve_rate rate_changes).
Local Abbreviation loop_cond := (loop_cond loan_years).

(** What the loop body does for the first live prepayment. *)
Definition live_step (cur_date : datetime) (cur_rate : Qc) (m : Z)
    (lv : loop_vars) (p : prepayment) : result loop_vars :=
  '(interest_, principal_payment) ← regular_payment (lv_remaining lv) cur_rate;
  if in_month cur_date p then
    if dt_ltb (pdate p) cur_date then
      Ok (prepay_first cur_date cur_rate m (pdate p) (get_amount p)
                       interest_ principal_payment lv)
    else
      Ok (regular_first cur_date cur_rate m (pdate p) (get_amount p)
                        interest_ principal_payment lv)
  else
    Ok (mkVars (lv_remaining lv - principal_payment)
               (lv_schedule lv
                ++ [regular_row m cur_date principal_payment interest_ (lv_remaining lv)])
               ({[dt_tuple cur_date]} ∪ lv_processed lv)).

(** One pass of the [while] body in closed form. *)
Definition month_step_closed (st : sim_state) : result step_end :=
  let cur_date := current_date st in
  let cur_rate := resolve_rate cur_date (current_rate st) in
  let pending := window cur_date (prepayment_details st) in
  let lv := mkVars (remaining_principal st) (schedule st) ∅ in
  match pending with
  | [] =>
      '(interest_, principal_payment) ← regular_payment (remaining_principal st) cur_rate;
      Ok (close_month st cur_rate pending
            (remaining_principal st - principal_payment)
            (schedule st
             ++ [regular_row (month st) cur_date principal_payment interest_
                             (remaining_principal st)]))
  | _ :: _ =>
      match first_live cur_date pending with
      | None =>
          Ok (close_month st cur_rate pending (remaining_principal st) (schedule st))
      | Some p =>
          lv' ← live_step cur_date cur_rate (month st) lv p;
          Ok (close_month st cur_rate pending (lv_remaining lv') (lv_schedule lv'))
      end
  end.

(** The rate and the pending list one pass works with. *)
Definition pass_rate (st : sim_state) : Qc :=
  resolve_rate (current_date st) (current_rate st).

Definition pass_pending (st : sim_state) : list prepayment :=
  window (current_date st) (prepayment_details st).

(** Interest booked on a prepayment row: one day of interest on [rem]
    times the clamped day count. *)
Definition prepay_interest (rem cur_rate : Qc) (prepay_date cur_date : datetime) : Qc :=
  (rem * cur_rate / num 100) / num 365 * num (days_in_period prepay_date cur_date).

(** [pass st rows rem]: a pass from [st] appends [rows] and leaves the
    balance [rem] (before the snap to zero). *)
Inductive pass (st : sim_state) : list row -> Qc -> Prop :=
| pass_regular i pp :
    regular_payment (remaining_principal st) (pass_rate st) = Ok (i, pp) ->
    (pass_pending st = []
     \/ exists p, first_live (current_date st) (pass_pending st) = Some p
                  /\ in_month (current_date st) p = false) ->
    pass st [regular_row (month st) (current_date st) pp i (remaining_principal st)]
         (remaining_principal st - pp)
| pass_prepay_first p i pp :
    first_live (current_date st) (pass_pending st) = Some p ->
    in_month (current_date st) p = true ->
    dt_ltb (pdate p) (current_date st) = true ->
    regular_payment (remaining_principal st) (pass_rate st) = Ok (i, pp) ->
    pass st
         [prepay_row (month st) (pdate p) (get_amount p)
                     (prepay_interest (remaining_principal st) (pass_rate st)
                                      (pdate p) (current_date st))
                     (remaining_principal st - get_amount p);
          regular_row (month st) (current_date st) pp i
                      (remaining_principal st - get_amount p)]
         (remaining_principal st - get_amount p - pp)
| pass_regular_first p i pp :
    first_live (current_date st) (pass_pending st) = Some p ->
    in_month (current_date st) p = true ->
    dt_ltb (pdate p) (current_date st) = false ->
    regular_payment (remaining_principal st) (pass_rate st) = Ok (i, pp) ->
    pass st
         [retro_edit (remaining_principal st - pp - get_amount p) (get_amount p)
                     (prepay_interest (remaining_principal st - pp) (pass_rate st)
                                      (pdate p) (current_date st))
                     (regular_row (month st) (current_date st) pp i
                                  (remaining_principal st));
          prepay_row (month st) (pdate p) (get_amount p)
                     (prepay_interest (remaining_principal st - pp) (pass_rate st)
                                      (pdate p) (current_date st))
                     (remaining_principal st - pp - get_amount p)]
         (remaining_principal st - pp - get_amount p)
| pass_idle :
    pass_pending st <> [] ->
    first_live (current_date st) (pass_pending st) = None ->
    pass st [] (remaining_principal st).

(** The states in which the loop condition is evaluated. *)
Inductive reachable : sim_state -> Prop :=
| reach_init : reachable (init_state prepayments)
| reach_next st st' :
    reachable st -> loop_cond st = true -> month_step st = Ok (Next st') ->
    reachable st'.

(** The states in which the loop can end. *)
Inductive final : sim_state -> Prop :=
| final_exit st : reachable st -> final st
| final_break st st' :
    reachable st -> loop_cond st = true -> month_step st = Ok (Break st') ->
    final st'.

(** A row was written by the pass of a reachable state. *)
Definition emitted (r : row) : Prop :=
  exists st rows rem,
    reachable st /\ loop_cond st = true /\ pass st rows rem /\ r ∈ rows.

Definition supported : Prop :=
  repayment_type = "equal_principal" \/ repayment_type = "equal_payment".

(** The loop can advance the date [total_months - month + 1] more times
    without leaving the calendar. *)
Definition within_calendar (st : sim_state) : Prop :=
  (1 <= month_of (current_date st) <= 12)%Z
  /\ (12 * year (current_date st) + month_of (current_date st)
      + (total_months loan_years - month st + 1) <= 12 * 9999 + 12)%Z.

End Semantics.

(** ** The specification's notions *)

(** The specification's reading of the rate timeline: [r] is the rate of
    the latest change whose effective date is not after [d], and the
    initial rate when no change qualifies. *)
Definition effective_rate (m : gmap datetime Qc) (init : Qc) (d : datetime) (r : Qc) : Prop :=
  (exists k, m !! k = Some r /\ dt_le k d
             /\ forall k', is_Some (m !! k') -> dt_le k' d -> dt_le k' k)
  \/ ((forall k, is_Some (m !! k) -> ~ dt_le k d) /\ r = init).

(** The dates [datetime] accepts (the bounds on the year play no role). *)
Definition valid_date (d : datetime) : Prop :=
  (1 <= month_of d <= 12 /\ 1 <= day d <= days_in_month (year d) (month_of d))%Z.

(** Loans of ordinary size.  The program computes with binary floating
    point and builds its dates and its table with [datetime] and pandas;
    the model computes with exact rationals and dates without bounds.  The
    two agree, to well below a cent, for amounts up to ten million, rates
    up to 12 percent a year, a term up to 40 years and a first payment
    date from 1900 on whose schedule ends by 2200, inside the range of
    pandas' timestamps. *)
Definition ordinary_amount (x : Qc) : Prop := - num (10 ^ 7) ≤ x /\ x ≤ num (10 ^ 7).

Definition ordinary_rate (x : Qc) : Prop := - num 12 ≤ x /\ x ≤ num 12.

Definition ordinary_dates (first_pay_date : datetime) (loan_years : Z) : Prop :=
  valid_date first_pay_date
  /\ (1900 <= year first_pay_date)%Z
  /\ (loan_years <= 40)%Z
  /\ (year first_pay_date + loan_years <= 2200)%Z.

Definition ordinary_loan (loan_amount : Qc) (loan_years : Z)
    (first_pay_date : datetime) (initial_rate : Qc)
    (rate_changes : gmap datetime Qc) (prepayments : list prepayment) : Prop :=
  ordinary_amount loan_amount
  /\ ordinary_dates first_pay_date loan_years
  /\ ordinary_rate initial_rate
  /\ map_Forall (fun _ rate => ordinary_rate rate) rate_changes
  /\ Forall (fun p => ordinary_amount (get_amount p)) prepayments.

(** Two amounts that differ by at most one cent.  The amounts the table
    displays are stated to this precision: the last digit of a displayed
    amount depends on the rounding of a binary float that lies next to a
    tie, which the exact arithmetic of the model does not reproduce. *)
Definition within_cent (x y : Qc) : Prop := - cent ≤ x - y /\ x - y ≤ cent.

(** The specification's formula for the interest of a prepayment dated on
    or after the payment date: the daily interest times the number of days
    from the payment date to the prepayment date, without a lower bound. *)
Definition claimed_interest_after (rem cur_rate : Qc) (prepay_date cur_date : datetime) : Qc :=
  (rem * cur_rate / num 100) / num 365 * num (days_between prepay_date cur_date).

Definition is_prepayment (r : row) : bool :=
  match kind r with Prepayment => true | Regular => false end.

(** Sum of the principal paid over a prefix of the ledger, in the order
    in which [cumsum] adds it up. *)
Definition paid_principal (l : list row) : Qc :=
  foldl (fun acc r => acc + principal r) 0 l.

Definition paid_interest (l : list row) : Qc :=
  foldl (fun acc r => acc + interest r) 0 l.

(** ** Comparing two runs *)

(** Two ledger rows that agree on everything the table shows for a
    Regular row, and on everything but the interest for a Prepayment row. *)
Definition row_sim (a b : row) : Prop :=
  period a = period b /\ pay_date a = pay_date b /\ kind a = kind b
  /\ principal a = principal b /\ remaining a = remaining b
  /\ (kind a = Regular -> interest a = interest b).

Definition out_sim (a b : out_row) : Prop :=
  o_period a = o_period b /\ o_date a = o_date b /\ o_kind a = o_kind b
  /\ o_principal a = o_principal b /\ o_remaining a = o_remaining b
  /\ o_cum_principal a = o_cum_principal b
  /\ (o_kind a = Regular ->
      o_interest a = o_interest b /\ o_total_payment a = o_total_payment b).

Definition state_sim (a b : sim_state) : Prop :=
  current_date a = current_date b
  /\ remaining_principal a = remaining_principal b
  /\ month a = month b
  /\ prepayment_details a = prepayment_details b
  /\ Forall2 row_sim (schedule a) (schedule b).

Definition end_sim (a b : step_end) : Prop :=
  match a, b with
  | Next x, Next y | Break x, Break y => state_sim x y
  | _, _ => False
  end.

Definition result_sim {A : Type} (R : A -> A -> Prop) (x y : result A) : Prop :=
  match x, y with
  | Ok a, Ok b => R a b
  | Raise e, Raise e' => e = e'
  | _, _ => False
  end.

(** * The web application

    [build_rate_dict], the table [national_rate_table] and the part of
    [run_web_app] between the widgets and the display: the rate-change
    dict built from the national table and the call of the generator. *)

(** ** Library calls *)

(** [datetime(y, m, d)]: the constructor raises [ValueError] outside the
    calendar (years 1 to 9999). *)
Definition new_datetime (y m d : Z) : result datetime :=
  if ((1 <=? y) && (y <=? 9999) && (1 <=? m) && (m <=? 12)
      && (1 <=? d) && (d <=? days_in_month y m))%Z
  then Ok (mkdt y m d) else Raise ValueError.

(** A decimal digit of an ASCII string. *)
Definition digit (c : Ascii.ascii) : option Z :=
  let n := Z.of_nat (Ascii.nat_of_ascii c) in
  if ((48 <=? n) && (n <=? 57))%Z then Some (n - 48)%Z else None.

(** The directives of [datetime.strptime(s, "%Y-%m-%d")] on ASCII text, as
    the regular expressions the library compiles them to.
    [%Y] is [\d\d\d\d]. *)
Definition year_group (s : string) : option (Z * string) :=
  match s with
  | String a (String b (String c (String d rest))) =>
      match digit a, digit b, digit c, digit d with
      | Some a, Some b, Some c, Some d => Some (1000 * a + 100 * b + 10 * c + d, rest)%Z
      | _, _, _, _ => None
      end
  | _ => None
  end.

(** [%m] is [1[0-2]|0[1-9]|[1-9]]: the ways it can match, in the order in
    which the matcher tries them. *)
Definition month_group (s : string) : list (Z * string) :=
  match s with
  | String a rest =>
      match rest with
      | String b rest' =>
          match digit a, digit b with
          | Some x, Some y =>
              (if (x =? 1) && (y <=? 2) then [(10 + y, rest')] else [])
              ++ (if (x =? 0) && (1 <=? y) then [(y, rest')] else [])
          | _, _ => []
          end
      | EmptyString => []
      end
      ++ match digit a with
         | Some x => if (1 <=? x) then [(x, rest)] else []
         | None => []
         end
  | EmptyString => []
  end%Z.

(** [%d] is [3[0-1]|[1-2]\d|0[1-9]|[1-9]| [1-9]]; it ends the pattern, so
    the first alternative that matches is the one taken. *)
Definition day_group (s : string) : option (Z * string) :=
  match s with
  | String a rest =>
      let two :=
        match rest with
        | String b rest' =>
            match digit a, digit b with
            | Some x, Some y =>
                if (x =? 3) && (y <=? 1) then Some (30 + y, rest')
                else if (x =? 1) || (x =? 2) then Some (10 * x + y, rest')
                else if (x =? 0) && (1 <=? y) then Some (y, rest')
                else None
            | _, _ => None
            end
        | EmptyString => None
        end in
      match two with
      | Some v => Some v
      | None =>
          match digit a with
          | Some x => if (1 <=? x) then Some (x, rest) else None
          | None =>
              if Ascii.eqb a " "%char then
                match rest with
                | String b rest' =>
                    match digit b with
                    | Some y => if (1 <=? y) then Some (y, rest') else None
                    | None => None
                    end
                | EmptyString => None
                end
              else None
          end
      end
  | EmptyString => None
  end%Z.

(** The rest of the pattern after the month: ["-"] and the day. *)
Definition dash_day (s : string) : option (Z * string) :=
  match s with
  | String "-"%char rest => day_group rest
  | _ => None
  end.

(** The first way to match the month that lets the rest match. *)
Fixpoint first_match (alternatives : list (Z * string)) : option (Z * Z * string) :=
  match alternatives with
  | [] => None
  | (m, rest) :: alternatives' =>
      match dash_day rest with
      | Some (d, rest') => Some (m, d, rest')
      | None => first_match alternatives'
      end
  end.

(** [datetime.strptime(date_string, "%Y-%m-%d")]: no match, text left over
    after the match, or a date outside the calendar raise [ValueError]. *)
Definition strptime (date_string : string) : result datetime :=
  match year_group date_string with
  | Some (y, String "-"%char rest) =>
      match first_match (month_group rest) with
      | Some (m, d, EmptyString) => new_datetime y m d
      | _ => Raise ValueError
      end
  | _ => Raise ValueError
  end.

(** ** The national rate table *)

(** One line of a rate table:
    [(date, <=5y first home, >5y first home, <=5y second home, >5y second home)]. *)
Definition rate_entry : Type :=
  string * option Qc * option Qc * option Qc * option Qc.

Definition national_rate_table : list rate_entry :=
  [ ("2015-03-01", Some (Q2Qc (350 # 100)), Some (Q2Qc (400 # 100)), None, None);
    ("2015-10-24", Some (Q2Qc (275 # 100)), Some (Q2Qc (325 # 100)), None, None);
    ("2022-10-01", Some (Q2Qc (260 # 100)), Some (Q2Qc (310 # 100)),
                   Some (Q2Qc (3025 # 1000)), Some (Q2Qc (3575 # 1000)));
    ("2024-05-18", Some (Q2Qc (235 # 100)), Some (Q2Qc (285 # 100)),
                   Some (Q2Qc (2775 # 1000)), Some (Q2Qc (3325 # 1000)));
    ("2025-05-07", Some (Q2Qc (210 # 100)), Some (Q2Qc (260 # 100)),
                   Some (Q2Qc (2525 # 1000)), Some (Q2Qc (3075 # 1000))) ].

(** The column of an entry that [build_rate_dict] reads. *)
Definition entry_rate (is_first_home : bool) (loan_years : Z) (entry : rate_entry)
    : option Qc :=
  let '(_, r_le5_first, r_gt5_first, r_le5_second, r_gt5_second) := entry in
  if is_first_home then
    if (loan_years <=? 5)%Z then r_le5_first else r_gt5_first
  else
    if (loan_years <=? 5)%Z then r_le5_second else r_gt5_second.

Definition entry_date (entry : rate_entry) : string := entry.1.1.1.1.

(** The [for entry in rate_table] loop of [build_rate_dict], from the
    dict built so far. *)
Fixpoint build_rate_dict_from (rate_dict : gmap datetime Qc) (rate_table : list rate_entry)
    (is_first_home : bool) (loan_years : Z) : result (gmap datetime Qc) :=
  match rate_table with
  | [] => Ok rate_dict
  | entry :: rate_table' =>
      date ← strptime (entry_date entry);
      let rate_dict :=
        match entry_rate is_first_home loan_years entry with
        | Some rate => <[date := rate]> rate_dict
        | None => rate_dict
        end in
      build_rate_dict_from rate_dict rate_table' is_first_home loan_years
  end.

Definition build_rate_dict (rate_table : list rate_entry) (is_first_home : bool)
    (loan_years : Z) : result (gmap datetime Qc) :=
  build_rate_dict_from ∅ rate_table is_first_home loan_years.

(** ** The effective dates of the national changes *)

(** The two loops [while True: ... candidate_year += 1]: the day of the
    first year from [candidate_year] on that is after [change_date].  The
    constructor raises beyond year 9999, which bounds the passes. *)
Fixpoint first_day_after (passes : nat) (day_of_year : Z -> result datetime)
    (candidate_year : Z) (change_date : datetime) : result datetime :=
  match passes with
  | O => Raise ValueError
  | S passes' =>
      loan_day_this_year ← day_of_year candidate_year;
      if dt_ltb change_date loan_day_this_year then Ok loan_day_this_year
      else first_day_after passes' day_of_year (candidate_year + 1) change_date
  end.

(** [datetime(candidate_year, 1, 1)] *)
Definition january_first (candidate_year : Z) : result datetime :=
  new_datetime candidate_year 1 1.

(** [try: datetime(candidate_year, first_pay_date.month, first_pay_date.day)
     except ValueError: datetime(candidate_year, first_pay_date.month, 28)] *)
Definition loan_day (first_pay_date : datetime) (candidate_year : Z) : result datetime :=
  match new_datetime candidate_year (month_of first_pay_date) (day first_pay_date) with
  | Raise ValueError => new_datetime candidate_year (month_of first_pay_date) 28
  | r => r
  end.

Definition next_effective_date (rate_adjustment_basis : string)
    (first_pay_date change_date : datetime) : result datetime :=
  if String.eqb rate_adjustment_basis "每年1月1日" then
    first_day_after (Z.to_nat (10001 - year change_date)) january_first
                    (year change_date) change_date
  else
    first_day_after (Z.to_nat (10001 - year first_pay_date)) (loan_day first_pay_date)
                    (year first_pay_date) change_date.

(** The loop [for change_date in sorted(national_rate_changes.keys())],
    from the dict built so far. *)
Fixpoint adjust_from (rate_adjustment_basis : string) (first_pay_date : datetime)
    (national_rate_changes : gmap datetime Qc)
    (adjusted_rate_changes : gmap datetime Qc) (change_dates : list datetime)
    : result (gmap datetime Qc) :=
  match change_dates with
  | [] => Ok adjusted_rate_changes
  | change_date :: change_dates' =>
      next ← next_effective_date rate_adjustment_basis first_pay_date change_date;
      adjusted_rate_changes ←
        (if dt_ltb first_pay_date next then
           match national_rate_changes !! change_date with
           | Some rate => Ok (<[next := rate]> adjusted_rate_changes)
           | None => Raise KeyError
           end
         else Ok adjusted_rate_changes);
      adjust_from rate_adjustment_basis first_pay_date national_rate_changes
                  adjusted_rate_changes change_dates'
  end.

Definition adjusted_rate_changes (rate_adjustment_basis : string)
    (first_pay_date : datetime) (national_rate_changes : gmap datetime Qc)
    : result (gmap datetime Qc) :=
  adjust_from rate_adjustment_basis first_pay_date national_rate_changes ∅
              (sorted_change_dates national_rate_changes).

(** ** From the widgets to the table *)

(** ["equal_principal" if repayment_type == "等额本金" else "equal_payment"] *)
Definition web_repayment_type (repayment_type : string) : string :=
  if String.eqb repayment_type "等额本金" then "equal_principal" else "equal_payment".

(** "构建利率变更字典": with the box "使用国家公积金利率" ticked the dict
    comes from the national table; otherwise it is the dict typed in the
    text area ([rate_changes_input], evaluated outside this model). *)
Definition web_rate_changes (use_national_rates : bool) (rate_adjustment_basis : string)
    (first_pay_date : datetime) (is_first_home : bool) (loan_years : Z)
    (rate_changes_input : gmap datetime Qc) : result (gmap datetime Qc) :=
  if use_national_rates then
    national_rate_changes ← build_rate_dict national_rate_table is_first_home loan_years;
    adjusted_rate_changes rate_adjustment_basis first_pay_date national_rate_changes
  else Ok rate_changes_input.

(** What the button "生成还款计划" computes from the values of the widgets. *)
Definition run_web_app (loan_amount : Qc) (loan_years : Z) (first_pay_date : datetime)
    (repayment_type : string) (is_first_home : bool) (initial_rate : Qc)
    (use_national_rates : bool) (rate_adjustment_basis : string)
    (rate_changes_input : gmap datetime Qc) (prepayment_details : list prepayment)
    : result (list out_row) :=
  rate_changes ← web_rate_changes use_national_rates rate_adjustment_basis first_pay_date
                                  is_first_home loan_years rate_changes_input;
  generate_repayment_schedule loan_amount loan_years first_pay_date initial_rate
                              rate_changes (web_repayment_type repayment_type)
                              prepayment_details.

(** ** Notions used in the statements about the web application *)

(** The rates that the entries of a table dated [d] carry in the column
    read for [is_first_home] and [loan_years], in the order of the table. *)
Definition rates_on (is_first_home : bool) (loan_years : Z) (d : datetime)
    (rate_table : list rate_entry) : list Qc :=
  omap (fun entry =>
          match strptime (entry_date entry) with
          | Ok date => if decide (date = d)
                       then entry_rate is_first_home loan_years entry else None
          | Raise _ => None
          end) rate_table.

Definition is_Ok {A : Type} (r : result A) : Prop := exists a, r = Ok a.

(** ** Notions used in the statements about the ledger *)

(** A ledger numbered below [m]: every period lies in [1, m), the
    periods do not decrease along the ledger, no period has two rows of
    the same kind, and there are at most two rows per period. *)
Definition numbered (m : Z) (s : list row) : Prop :=
  Forall (fun r => (1 <= period r < m)%Z) s
  /\ (forall i j ri rj,
        (i < j)%nat -> s !! i = Some ri -> s !! j = Some rj ->
        (period ri <= period rj)%Z
        /\ (period ri = period rj -> kind ri <> kind rj))
  /\ (Z.of_nat (length s) <= 2 * (m - 1))%Z.

(** Two ledger rows with the same period, date, kind, principal and
    interest: what the simulator computes for a payment, as opposed to the
    running balance and the totals it also writes on some rows. *)
Definition same_payments (a b : row) : Prop :=
  period a = period b /\ pay_date a = pay_date b /\ kind a = kind b
  /\ principal a = principal b /\ interest a = interest b.

(** A Prepayment row written after the Regular row of its own period:
    the prepayment was dated on or after the payment date, and the
    retroactive edit took its amount off the Regular row. *)
Definition late_pair (prev : option row) (r : row) : bool :=
  match prev with
  | Some q => is_prepayment r && negb (is_prepayment q) && (period q =? period r)%Z
  | None => false
  end.

(** The principal of these rows, added up along the ledger; [prev] is
    the row before the first one. *)
Fixpoint late_prepaid_from (prev : option row) (s : list row) : Qc :=
  match s with
  | [] => 0
  | r :: s' =>
      (if late_pair prev r then principal r else 0) + late_prepaid_from (Some r) s'
  end.

Definition late_prepaid (s : list row) : Qc := late_prepaid_from None s.

(** The annuity payment of the source (line 48) in exact arithmetic, and
    the balance that the annuity formula leaves after [k] payments. *)
Definition annuity_payment (loan_amount : Qc) (loan_years : Z) (initial_rate : Qc) : Qc :=
  let monthly_rate := initial_rate / num 100 / num 12 in
  let growth := (1 + monthly_rate) ^ Z.to_nat (total_months loan_years) in
  loan_amount * (monthly_rate * growth) / (growth - 1).

Definition annuity_balance (loan_amount : Qc) (loan_years : Z) (initial_rate : Qc)
    (k : nat) : Qc :=
  let monthly_rate := initial_rate / num 100 / num 12 in
  let growth := (1 + monthly_rate) ^ Z.to_nat (total_months loan_years) in
  loan_amount * (growth - (1 + monthly_rate) ^ k) / (growth - 1).

(** * Properties *)

(** ** Comparisons *)

Lemma Qc_leb_le (x y : Qc) : Qc_leb x y = true <-> x ≤ y.
Proof. unfold Qc_leb, Qcle. apply Qle_bool_iff. Qed.

Lemma Qc_ltb_lt (x y : Qc) : Qc_ltb x y = true <-> x < y.
Proof.
  unfold Qc_ltb. rewrite negb_true_iff, <- not_true_iff_false.
  change (Qle_bool y x = true) with (Qc_leb y x = true).
  rewrite Qc_leb_le. symmetry. apply Qclt_nge.
Qed.

Lemma Qc_eqb_eq (x y : Qc) : Qc_eqb x y = true <-> x = y.
Proof.
  unfold Qc_eqb. rewrite Qeq_bool_iff. split.
  - apply Qc_is_canon.
  - by intros ->.
Qed.

Lemma Qc_ltb_leb (x y : Qc) : Qc_ltb x y = negb (Qc_leb y x).
Proof. reflexivity. Qed.

(** ** The order on dates *)

Lemma dt_ltb_spec (a b : datetime) :
  dt_ltb a b = true <->
  (year a < year b
   \/ (year a = year b
       /\ (month_of a < month_of b
           \/ (month_of a = month_of b /\ day a < day b))))%Z.
Proof.
  unfold dt_ltb.
  rewrite !orb_true_iff, !andb_true_iff, !orb_true_iff, !andb_true_iff,
    !Z.ltb_lt, !Z.eqb_eq.
  tauto.
Qed.

Lemma dt_leb_spec (a b : datetime) :
  dt_leb a b = true <->
  (year a < year b
   \/ (year a = year b
       /\ (month_of a < month_of b
           \/ (month_of a = month_of b /\ day a <= day b))))%Z.
Proof.
  unfold dt_leb. rewrite negb_true_iff, <- not_true_iff_false, dt_ltb_spec. lia.
Qed.

Ltac dt_order :=
  unfold dt_lt, dt_le in *;
  repeat match goal with
         | H : dt_leb _ _ = false |- _ =>
             apply not_true_iff_false in H; rewrite dt_leb_spec in H
         | H : dt_ltb _ _ = false |- _ =>
             apply not_true_iff_false in H; rewrite dt_ltb_spec in H
         | H : dt_leb _ _ = true |- _ => rewrite dt_leb_spec in H
         | H : dt_ltb _ _ = true |- _ => rewrite dt_ltb_spec in H
         | |- dt_leb _ _ = false => apply not_true_iff_false
         | |- dt_ltb _ _ = false => apply not_true_iff_false
         end;
  rewrite ?dt_leb_spec, ?dt_ltb_spec;
  simpl in *; try lia.

Lemma dt_le_refl (a : datetime) : dt_le a a.
Proof. dt_order. Qed.

Lemma dt_le_trans (a b c : datetime) : dt_le a b -> dt_le b c -> dt_le a c.
Proof. intros ??. dt_order. Qed.

Lemma dt_le_total (a b : datetime) : dt_le a b \/ dt_le b a.
Proof. dt_order. Qed.

Lemma dt_le_antisym (a b : datetime) : dt_le a b -> dt_le b a -> a = b.
Proof.
  intros ??. destruct a as [ya ma da], b as [yb mb db].
  assert (ya = yb /\ ma = mb /\ da = db) as (-> & -> & ->) by dt_order.
  reflexivity.
Qed.

Lemma dt_le_add_month (d : datetime) : dt_le d (add_month d).
Proof.
  unfold add_month. destruct (12 <? month_of d + 1)%Z eqn:E; dt_order.
Qed.

(** A date of the current month is before the first day of the next. *)
Lemma month_start_add_month (d q : datetime) :
  year d = year q -> month_of d = month_of q ->
  dt_leb (month_start (add_month d)) q = false.
Proof.
  intros Hy Hm. unfold add_month, month_start.
  destruct (12 <? month_of d + 1)%Z eqn:E; dt_order.
Qed.

(** ** The stable sort *)

Lemma StronglySorted_filter {A : Type} (R : relation A) (P : A -> Prop)
    `{forall x, Decision (P x)} (l : list A) :
  StronglySorted R l -> StronglySorted R (filter P l).
Proof.
  induction 1 as [|x l Hs IH Hx]; [constructor|].
  rewrite filter_cons. destruct (decide (P x)); [|done].
  constructor; [done|].
  apply Forall_forall. intros y [_ Hy]%list_elem_of_filter.
  by eapply Forall_forall in Hx.
Qed.

Section SortingFacts.
Context {A : Type} (key : A -> datetime).

Local Abbreviation key_le := (key_le key).

Lemma insert_by_perm (x : A) (l : list A) : insert_by key x l ≡ₚ x :: l.
Proof.
  induction l as [|y l IH]; simpl; [done|].
  destruct (dt_leb (key x) (key y)); [done|].
  rewrite IH. apply perm_swap.
Qed.

Lemma sort_by_perm (l : list A) : sort_by key l ≡ₚ l.
Proof.
  induction l as [|x l IH]; simpl; [done|].
  by rewrite insert_by_perm, IH.
Qed.

Lemma elem_of_sort_by (x : A) (l : list A) : x ∈ sort_by key l <-> x ∈ l.
Proof. by rewrite sort_by_perm. Qed.

Lemma insert_by_sorted (x : A) (l : list A) :
  StronglySorted key_le l -> StronglySorted key_le (insert_by key x l).
Proof.
  induction 1 as [|y l Hs IH Hy]; simpl.
  - repeat constructor.
  - destruct (dt_leb (key x) (key y)) eqn:E.
    + constructor; [by constructor|].
      constructor; [exact E|].
      eapply Forall_impl; [exact Hy|].
      intros z Hz. unfold key_le in *. eapply dt_le_trans; [exact E|exact Hz].
    + constructor; [exact IH|].
      rewrite insert_by_perm. constructor; [|exact Hy].
      unfold key_le. destruct (dt_le_total (key x) (key y)) as [H|H]; [|exact H].
      unfold dt_le in H. congruence.
Qed.

Lemma sort_by_sorted (l : list A) : StronglySorted key_le (sort_by key l).
Proof.
  induction l as [|x l IH]; simpl; [constructor|].
  by apply insert_by_sorted.
Qed.
End SortingFacts.

(** ** One pass of the simulator in closed form *)

Lemma bind_Ok {A B : Type} (a : A) (k : A -> result B) : (Ok a ≫= k) = k a.
Proof. reflexivity. Qed.

Lemma bind_Raise {A B : Type} (e : exn) (k : A -> result B) : (Raise e ≫= k) = Raise e.
Proof. reflexivity. Qed.

Section StepFacts.
Variables (loan_amount : Qc) (loan_years : Z) (first_pay_date : datetime)
          (initial_rate : Qc) (rate_changes : gmap datetime Qc)
          (repayment_type : string).

Local Abbreviation regular_payment :=
  (regular_payment loan_amount loan_years initial_rate repayment_type).
Local Abbreviation prepay_step :=
  (prepay_step loan_amount loan_years initial_rate repayment_type).
Local Abbreviation process_prepayments :=
  (process_prepayments loan_amount loan_years initial_rate repayment_type).
Local Abbreviation month_step :=
  (month_step loan_amount loan_years initial_rate rate_changes repayment_type).
Local Abbreviation while_loop :=
  (while_loop loan_amount loan_years initial_rate rate_changes repayment_type).
Local Abbreviation regular_first := (regular_first loan_amount).
Local Abbreviation resolve_rate := (resolve_rate rate_changes).
Local Abbreviation loop_cond := (loop_cond loan_years).
Local Abbreviation total_months := (total_months loan_years).
Local Abbreviation live_step :=
  (live_step loan_amount loan_years initial_rate repayment_type).
Local Abbreviation month_step_closed :=
  (month_step_closed loan_amount loan_years initial_rate rate_changes repayment_type).

Lemma prepay_step_processed cur_date cur_rate m lv p :
  dt_tuple cur_date ∈ lv_processed lv ->
  prepay_step cur_date cur_rate m lv p = Ok lv.
Proof.
  intros H. unfold prepay_step.
  rewrite (bool_decide_eq_true_2 _ H). by destruct (in_month cur_date p).
Qed.

Lemma process_processed cur_date cur_rate m lv l :
  dt_tuple cur_date ∈ lv_processed lv ->
  process_prepayments cur_date cur_rate m lv l = Ok lv.
Proof.
  intros H. induction l as [|p l IH]; simpl; [done|].
  by rewrite prepay_step_processed.
Qed.

Lemma live_step_processed cur_date cur_rate m lv p lv' :
  live_step cur_date cur_rate m lv p = Ok lv' ->
  dt_tuple cur_date ∈ lv_processed lv'.
Proof.
  unfold live_step.
  destruct (regular_payment _ _) as [[i pp]|]; simpl; [|done].
  destruct (in_month cur_date p); [destruct (dt_ltb _ _)|];
    intros [= <-]; simpl; set_solver.
Qed.

Lemma prepay_step_void cur_date cur_rate m lv p :
  void cur_date p = true -> prepay_step cur_date cur_rate m lv p = Ok lv.
Proof.
  unfold void, prepay_step. intros [-> Ha%negb_true_iff]%andb_true_iff.
  rewrite Ha. simpl. by destruct (bool_decide _).
Qed.

Lemma prepay_step_live cur_date cur_rate m rem sched p :
  0 < rem -> void cur_date p = false ->
  prepay_step cur_date cur_rate m (mkVars rem sched ∅) p
  = live_step cur_date cur_rate m (mkVars rem sched ∅) p.
Proof.
  intros Hrem%Qc_ltb_lt Hv. unfold void in Hv. unfold prepay_step, live_step.
  simpl. rewrite Hrem.
  rewrite bool_decide_eq_false_2 by set_solver.
  destruct (in_month cur_date p); simpl in *.
  - apply negb_false_iff in Hv. rewrite Hv. simpl.
    destruct (regular_payment _ _) as [[i pp]|]; simpl; [|done].
    by destruct (dt_ltb _ _).
  - by destruct (regular_payment _ _) as [[i pp]|].
Qed.

(** The [for] loop in closed form: prepayments without effect are
    skipped, the first live one is handled, the rest find the month
    already processed. *)
Lemma process_spec cur_date cur_rate m rem sched l :
  0 < rem ->
  process_prepayments cur_date cur_rate m (mkVars rem sched ∅) l
  = match first_live cur_date l with
    | None => Ok (mkVars rem sched ∅)
    | Some p => live_step cur_date cur_rate m (mkVars rem sched ∅) p
    end.
Proof.
  intros Hrem. induction l as [|p l IH]; simpl; [done|].
  destruct (void cur_date p) eqn:Hv.
  - by rewrite prepay_step_void.
  - rewrite prepay_step_live by done.
    destruct (live_step _ _ _ _ _) as [lv'|e] eqn:E; [|done].
    rewrite bind_Ok. apply process_processed. by eapply live_step_processed.
Qed.

Lemma month_step_eq (st : sim_state) :
  0 < remaining_principal st -> month_step st = month_step_closed st.
Proof.
  intros Hrem. unfold month_step, month_step_closed.
  rewrite process_spec by done.
  destruct (window _ _) as [|p l] eqn:Hw; [done|].
  by destruct (first_live _ _) as [q|].
Qed.

Lemma close_month_not_again st cur_rate pending rem sched st' :
  close_month st cur_rate pending rem sched <> Again st'.
Proof. unfold close_month. by destruct (Qc_leb _ 0). Qed.

(** The [continue] of the [while] loop is dead code. *)
Lemma month_step_not_again (st st' : sim_state) :
  0 < remaining_principal st -> month_step st <> Ok (Again st').
Proof.
  intros Hrem. rewrite month_step_eq by done. unfold month_step_closed.
  destruct (window _ _) as [|p l].
  - destruct (regular_payment _ _) as [[i pp]|]; simpl; [|done].
    intros [= H]. by eapply close_month_not_again.
  - destruct (first_live _ _) as [q|].
    + destruct (live_step _ _ _ _ _) as [lv'|]; simpl; [|done].
      intros [= H]. by eapply close_month_not_again.
    + intros [= H]. by eapply close_month_not_again.
Qed.

Lemma loop_cond_true (st : sim_state) :
  loop_cond st = true <-> 0 < remaining_principal st /\ (month st <= total_months)%Z.
Proof. unfold loop_cond. by rewrite andb_true_iff, Qc_ltb_lt, Z.leb_le. Qed.

Lemma close_month_next st cur_rate pending rem sched st' :
  close_month st cur_rate pending rem sched = Next st' ->
  current_date st' = add_month (current_date st)
  /\ month st' = (month st + 1)%Z
  /\ current_rate st' = cur_rate
  /\ prepayment_details st' = pending
  /\ schedule st' = sched
  /\ remaining_principal st' = rem
  /\ cent < rem.
Proof.
  unfold close_month. destruct (Qc_leb rem cent) eqn:E1.
  - by change (Qc_leb 0 0) with true.
  - destruct (Qc_leb rem 0) eqn:E2; [done|]. intros [= <-]; simpl.
    repeat split. apply Qc_ltb_lt. by rewrite Qc_ltb_leb, E1.
Qed.

Lemma close_month_break st cur_rate pending rem sched st' :
  close_month st cur_rate pending rem sched = Break st' ->
  schedule st' = sched /\ rem ≤ cent /\ remaining_principal st' = 0.
Proof.
  unfold close_month. destruct (Qc_leb rem cent) eqn:E1.
  - change (Qc_leb 0 0) with true. intros [= <-]; simpl.
    by rewrite <- Qc_leb_le.
  - destruct (Qc_leb rem 0) eqn:E2; [|done]. intros [= <-]; simpl.
    apply Qc_leb_le in E2. exfalso.
    apply not_true_iff_false in E1. apply E1, Qc_leb_le.
    etrans; [exact E2|]. by apply Qc_leb_le.
Qed.

(** Every pass that falls through advances the period counter by one. *)
Lemma month_step_next (st st' : sim_state) :
  0 < remaining_principal st -> month_step st = Ok (Next st') ->
  month st' = (month st + 1)%Z /\ current_date st' = add_month (current_date st).
Proof.
  intros Hrem. rewrite month_step_eq by done. unfold month_step_closed.
  destruct (window _ _) as [|p l].
  - destruct (regular_payment _ _) as [[i pp]|]; simpl; [|done].
    intros [= H%close_month_next]. tauto.
  - destruct (first_live _ _) as [q|].
    + destruct (live_step _ _ _ _ _) as [lv'|]; simpl; [|done].
      intros [= H%close_month_next]. tauto.
    + intros [= H%close_month_next]. tauto.
Qed.

(** Fuel: [total_months - month + 1] passes always suffice, so the
    loop started with [total_months] passes never stops for lack of
    them and more fuel changes nothing. *)
Lemma while_loop_fuel_gen (fuel k : nat) (st : sim_state) :
  (total_months - month st + 1 <= Z.of_nat fuel)%Z ->
  while_loop (fuel + k) st = while_loop fuel st.
Proof.
  revert st. induction fuel as [|fuel IH]; intros st Hf.
  - destruct k; simpl; [done|].
    destruct (loop_cond st) eqn:Hc; [|done].
    apply loop_cond_true in Hc. lia.
  - simpl. destruct (loop_cond st) eqn:Hc; [|done].
    apply loop_cond_true in Hc as [Hrem Hm].
    destruct (month_step st) as [[st'|st'|st']|e] eqn:E; simpl; try done.
    + apply month_step_next in E as [E _]; [|done].
      destruct (in_calendar _); [|done]. apply IH. lia.
    + by apply month_step_not_again in E.
Qed.

Lemma while_loop_fuel (k : nat) (prepayments : list prepayment) :
  while_loop (Z.to_nat total_months + k) (init_state loan_amount first_pay_date initial_rate prepayments)
  = while_loop (Z.to_nat total_months) (init_state loan_amount first_pay_date initial_rate prepayments).
Proof. apply while_loop_fuel_gen. simpl. lia. Qed.

(** The calendar.  One month later is one more in [12 * year + month]. *)
Lemma add_month_index (d : datetime) :
  (1 <= month_of d <= 12)%Z ->
  (12 * year (add_month d) + month_of (add_month d) = 12 * year d + month_of d + 1)%Z
  /\ (1 <= month_of (add_month d) <= 12)%Z.
Proof.
  intros Hm. unfold add_month. simpl.
  destruct (12 <? month_of d + 1)%Z eqn:E; simpl.
  - apply Z.ltb_lt in E. lia.
  - apply Z.ltb_ge in E. lia.
Qed.

Lemma within_calendar_init (prepayments : list prepayment) :
  (1 <= month_of first_pay_date <= 12)%Z ->
  (year first_pay_date + loan_years <= 9999)%Z ->
  within_calendar loan_years
    (init_state loan_amount first_pay_date initial_rate prepayments).
Proof. intros Hm Hy. unfold within_calendar. simpl. unfold total_months. lia. Qed.

(** While the dates to come fit in the calendar, the date assignment at
    the end of a pass does not raise. *)
Lemma within_calendar_next (st st' : sim_state) :
  within_calendar loan_years st -> loop_cond st = true ->
  month_step st = Ok (Next st') ->
  in_calendar (current_date st') = true /\ within_calendar loan_years st'.
Proof.
  intros [Hm Hb] [Hrem Hn]%loop_cond_true E.
  apply month_step_next in E as [E1 E2]; [|done].
  destruct (add_month_index _ Hm) as [Hi Hm'].
  unfold within_calendar, in_calendar. rewrite E1, E2.
  split; [apply Z.leb_le; lia|]. split; [done|lia].
Qed.

End StepFacts.

(** ** The rows of one pass *)

Section Passes.
Variables (loan_amount : Qc) (loan_years : Z) (first_pay_date : datetime)
          (initial_rate : Qc) (rate_changes : gmap datetime Qc)
          (repayment_type : string).

Local Abbreviation regular_payment :=
  (regular_payment loan_amount loan_years initial_rate repayment_type).
Local Abbreviation month_step :=
  (month_step loan_amount loan_years initial_rate rate_changes repayment_type).
Local Abbreviation month_step_closed :=
  (month_step_closed loan_amount loan_years initial_rate rate_changes repayment_type).
Local Abbreviation while_loop :=
  (while_loop loan_amount loan_years initial_rate rate_changes repayment_type).
Local Abbreviation simulate :=
  (simulate loan_amount loan_years first_pay_date initial_rate rate_changes repayment_type).
Local Abbreviation init_state := (init_state loan_amount first_pay_date initial_rate).
Local Abbreviation retro_edit := (retro_edit loan_amount).
Local Abbreviation resolve_rate := (resolve_rate rate_changes).
Local Abbreviation loop_cond := (loop_cond loan_years).
Local Abbreviation total_months := (total_months loan_years).
Local Abbreviation pass_rate := (pass_rate rate_changes).
Local Abbreviation pass :=
  (pass loan_amount loan_years initial_rate rate_changes repayment_type).

Lemma alter_second_last {A : Type} (f : A -> A) (s : list A) (a b : A) :
  alter f (length ((s ++ [a]) ++ [b]) - 2)%nat ((s ++ [a]) ++ [b]) = s ++ [f a; b].
Proof.
  rewrite <- app_assoc. simpl.
  replace (length (s ++ [a; b]) - 2)%nat with (length s + 0)%nat
    by (rewrite length_app; simpl; lia).
  by rewrite alter_app_r.
Qed.

Lemma regular_first_eq cur_date cur_rate m prepay_date a i pp rem sched :
  regular_first loan_amount cur_date cur_rate m prepay_date a i pp (mkVars rem sched ∅)
  = mkVars (rem - pp - a)
           (sched ++ [retro_edit (rem - pp - a) a
                                 (prepay_interest (rem - pp) cur_rate prepay_date cur_date)
                                 (regular_row m cur_date pp i rem);
                      prepay_row m prepay_date a
                                 (prepay_interest (rem - pp) cur_rate prepay_date cur_date)
                                 (rem - pp - a)])
           ({[dt_tuple cur_date]} ∪ ∅).
Proof.
  unfold regular_first. simpl lv_remaining. simpl lv_schedule. simpl lv_processed.
  cbv zeta.
  match goal with
  | |- context [(1 <? ?n)%nat] =>
      replace (1 <? n)%nat with true
        by (symmetry; apply Nat.ltb_lt; rewrite !length_app; simpl; lia)
  end.
  by rewrite alter_second_last.
Qed.

(** Every pass has one of the four shapes. *)
Lemma month_step_pass (st : sim_state) (e : step_end) :
  0 < remaining_principal st -> month_step st = Ok e ->
  exists rows rem,
    pass st rows rem
    /\ e = close_month st (pass_rate st) (pass_pending st) rem (schedule st ++ rows).
Proof.
  intros Hrem. rewrite month_step_eq by done. unfold month_step_closed.
  fold (pass_rate st). fold (pass_pending st).
  destruct (pass_pending st) as [|p0 l] eqn:Hw.
  - destruct (regular_payment _ _) as [[i pp]|] eqn:Hp; simpl; [|done].
    intros [= <-]. eexists _, _. split; [|done].
    apply pass_regular; [done|]. by left.
  - destruct (first_live _ _) as [p|] eqn:Hl.
    + unfold live_step. simpl lv_remaining.
      destruct (regular_payment _ _) as [[i pp]|] eqn:Hp; simpl; [|done].
      destruct (in_month (current_date st) p) eqn:Hin;
        [destruct (dt_ltb (pdate p) (current_date st)) eqn:Hlt|].
      * intros [= <-]. eexists _, _. split.
        -- apply (pass_prepay_first _ _ _ _ _ st p i pp); by rewrite ?Hw.
        -- unfold prepay_first. simpl. by rewrite <- app_assoc.
      * rewrite regular_first_eq. intros [= <-]. eexists _, _. split.
        -- apply (pass_regular_first _ _ _ _ _ st p i pp); by rewrite ?Hw.
        -- done.
      * intros [= <-]. eexists _, _. split; [|done].
        apply pass_regular; [done|]. right. exists p. by rewrite Hw.
    + intros [= <-]. exists [], (remaining_principal st). split.
      * apply pass_idle; by rewrite Hw.
      * by rewrite app_nil_r.
Qed.

End Passes.

(** ** Runs of the loop *)

Section Runs.
Variables (loan_amount : Qc) (loan_years : Z) (first_pay_date : datetime)
          (initial_rate : Qc) (rate_changes : gmap datetime Qc)
          (repayment_type : string) (prepayments : list prepayment).

Local Abbreviation month_step :=
  (month_step loan_amount loan_years initial_rate rate_changes repayment_type).
Local Abbreviation while_loop :=
  (while_loop loan_amount loan_years initial_rate rate_changes repayment_type).
Local Abbreviation simulate :=
  (simulate loan_amount loan_years first_pay_date initial_rate rate_changes repayment_type).
Local Abbreviation init_state := (init_state loan_amount first_pay_date initial_rate).
Local Abbreviation loop_cond := (loop_cond loan_years).
Local Abbreviation pass :=
  (pass loan_amount loan_years initial_rate rate_changes repayment_type).
Local Abbreviation reachable :=
  (reachable loan_amount loan_years first_pay_date initial_rate rate_changes
             repayment_type prepayments).
Local Abbreviation final :=
  (final loan_amount loan_years first_pay_date initial_rate rate_changes
         repayment_type prepayments).
Local Abbreviation emitted :=
  (emitted loan_amount loan_years first_pay_date initial_rate rate_changes
           repayment_type prepayments).

Lemma while_loop_final (fuel : nat) (st stf : sim_state) :
  reachable st -> while_loop fuel st = Ok stf -> final stf.
Proof.
  revert st. induction fuel as [|fuel IH]; intros st Hr; simpl.
  - destruct (loop_cond st); intros [= <-]; by apply final_exit.
  - destruct (loop_cond st) eqn:Hc; [|intros [= <-]; by apply final_exit].
    destruct (month_step st) as [[st'|st'|st']|e] eqn:E; simpl; [| | |done].
    + destruct (in_calendar _); [|done]. apply IH. by eapply reach_next.
    + apply loop_cond_true in Hc as [Hrem _].
      by apply month_step_not_again in E.
    + intros [= <-]. by eapply final_break.
Qed.

Lemma simulate_final (stf : sim_state) : simulate prepayments = Ok stf -> final stf.
Proof.
  unfold simulate.
  destruct (if String.eqb repayment_type "equal_payment" then _ else _); [|done].
  rewrite bind_Ok. destruct (py_div _ _); [|done]. rewrite bind_Ok.
  apply while_loop_final, reach_init.
Qed.

Lemma reachable_emitted (st : sim_state) :
  reachable st -> forall r, r ∈ schedule st -> emitted r.
Proof.
  induction 1 as [|st st' Hr IH Hc E]; intros r Hin.
  - by apply elem_of_nil in Hin.
  - pose proof Hc as [Hrem _]%loop_cond_true.
    apply month_step_pass in E as (rows & rem & Hp & E); [|done].
    symmetry in E. apply close_month_next in E as (_ & _ & _ & _ & Hs & _).
    rewrite Hs in Hin. apply elem_of_app in Hin as [Hin|Hin]; [by apply IH|].
    by exists st, rows, rem.
Qed.

Lemma final_emitted (st : sim_state) :
  final st -> forall r, r ∈ schedule st -> emitted r.
Proof.
  destruct 1 as [st Hr|st st' Hr Hc E]; intros r Hin.
  - by eapply reachable_emitted.
  - pose proof Hc as [Hrem _]%loop_cond_true.
    apply month_step_pass in E as (rows & rem & Hp & E); [|done].
    symmetry in E. apply close_month_break in E as (Hs & _).
    rewrite Hs in Hin. apply elem_of_app in Hin as [Hin|Hin].
    + by eapply reachable_emitted.
    + by exists st, rows, rem.
Qed.

(** The pending list stays sorted by date and keeps only input items. *)
Lemma reachable_pending (st : sim_state) :
  reachable st ->
  StronglySorted (key_le pdate) (prepayment_details st)
  /\ forall p, p ∈ prepayment_details st -> p ∈ prepayments.
Proof.
  induction 1 as [|st st' Hr [IHs IHi] Hc E].
  - simpl. split; [apply sort_by_sorted|]. intros p. by rewrite elem_of_sort_by.
  - pose proof Hc as [Hrem _]%loop_cond_true.
    apply month_step_pass in E as (rows & rem & Hp & E); [|done].
    symmetry in E. apply close_month_next in E as (_ & _ & _ & -> & _).
    unfold pass_pending, window. split.
    + by apply StronglySorted_filter.
    + intros p [_ Hp']%list_elem_of_filter. by apply IHi.
Qed.

(** Periods and dates advance together. *)
Lemma reachable_month (st : sim_state) : reachable st -> (1 <= month st)%Z.
Proof.
  induction 1 as [|st st' Hr IH Hc E]; simpl; [lia|].
  apply loop_cond_true in Hc as [Hrem _].
  apply month_step_next in E as [-> _]; [lia|done].
Qed.

End Runs.

(** ** The rate in force (claim C7) *)

Section RateFacts.
Variable rate_changes : gmap datetime Qc.

Local Abbreviation resolve_rate := (resolve_rate rate_changes).
Local Abbreviation sorted_change_dates := (sorted_change_dates rate_changes).

Lemma elem_of_sorted_change_dates (k : datetime) :
  k ∈ sorted_change_dates <-> is_Some (rate_changes !! k).
Proof.
  unfold sorted_change_dates. rewrite elem_of_sort_by, list_elem_of_fmap. split.
  - intros ([k' r] & -> & H%elem_of_map_to_list). by exists r.
  - intros [r H]. exists (k, r). split; [done|]. by apply elem_of_map_to_list.
Qed.

Lemma sorted_change_dates_sorted : StronglySorted dt_le sorted_change_dates.
Proof. apply (sort_by_sorted id). Qed.

(** The scan over a sorted list of keys ends on the rate of the last key
    that is not after [d]; without such a key the rate is unchanged. *)
Lemma scan_sorted (l : list datetime) (d : datetime) (c : Qc) :
  StronglySorted dt_le l ->
  (forall k, k ∈ l -> is_Some (rate_changes !! k)) ->
  let r := foldl (fun rate change_date =>
                    if dt_leb change_date d
                    then default rate (rate_changes !! change_date)
                    else rate) c l in
  (exists k, k ∈ l /\ rate_changes !! k = Some r /\ dt_le k d
             /\ forall k', k' ∈ l -> dt_le k' d -> dt_le k' k)
  \/ ((forall k, k ∈ l -> ~ dt_le k d) /\ r = c).
Proof.
  induction l as [|x l IH] using rev_ind; intros Hs Hk; simpl.
  - right. split; [|done]. intros k Hin. by apply elem_of_nil in Hin.
  - rewrite foldl_snoc.
    apply StronglySorted_app in Hs as (Hlx & Hs & _).
    destruct (dt_leb x d) eqn:E.
    + left. exists x. destruct (Hk x) as [r Hr]; [set_solver|].
      rewrite Hr. simpl. repeat split; [set_solver|done|].
      intros k' [Hin| ->%list_elem_of_singleton]%elem_of_app _.
      * apply Hlx; [done|]. by apply list_elem_of_singleton.
      * apply dt_le_refl.
    + destruct IH as [(k & Hin & Hr & Hle & Hmax)|[Hnone Hr]]; [done|set_solver|..].
      * left. exists k. repeat split; [set_solver|done..|].
        intros k' [Hin'| ->%list_elem_of_singleton]%elem_of_app Hle'.
        -- by apply Hmax.
        -- unfold dt_le in Hle'. congruence.
      * right. split; [|done].
        intros k' [Hin'| ->%list_elem_of_singleton]%elem_of_app.
        -- by apply Hnone.
        -- unfold dt_le. congruence.
Qed.

Lemma resolve_rate_spec (d : datetime) (c : Qc) :
  (exists k, rate_changes !! k = Some (resolve_rate d c) /\ dt_le k d
             /\ forall k', is_Some (rate_changes !! k') -> dt_le k' d -> dt_le k' k)
  \/ ((forall k, is_Some (rate_changes !! k) -> ~ dt_le k d) /\ resolve_rate d c = c).
Proof.
  destruct (scan_sorted sorted_change_dates d c sorted_change_dates_sorted)
    as [(k & Hin & Hr & Hle & Hmax)|[Hnone Hr]].
  - intros k. by rewrite elem_of_sorted_change_dates.
  - left. exists k. repeat split; [done..|].
    intros k' Hk'. apply Hmax. by apply elem_of_sorted_change_dates.
  - right. split; [|done].
    intros k Hk. apply Hnone. by apply elem_of_sorted_change_dates.
Qed.

(** Carrying the rate of an earlier date into the scan for a later date
    gives the rate in force at the later date. *)
Lemma resolve_rate_carry (init : Qc) (d d' : datetime) (c : Qc) :
  dt_le d d' -> effective_rate rate_changes init d c ->
  effective_rate rate_changes init d' (resolve_rate d' c).
Proof.
  intros Hdd Hc.
  destruct (resolve_rate_spec d' c) as [(k & Hr & Hle & Hmax)|[Hnone Hr]].
  - left. by exists k.
  - right. split; [done|]. rewrite Hr.
    destruct Hc as [(k & Hk & Hle & _)|[_ ->]]; [|done].
    exfalso. apply (Hnone k); [by eexists|]. by eapply dt_le_trans.
Qed.

Lemma resolve_rate_init (init : Qc) (d : datetime) :
  effective_rate rate_changes init d (resolve_rate d init).
Proof.
  destruct (resolve_rate_spec d init) as [(k & Hr & Hle & Hmax)|[Hnone Hr]].
  - left. by exists k.
  - right. by split.
Qed.

End RateFacts.

Lemma reachable_rate loan_amount loan_years first_pay_date initial_rate
    (rate_changes : gmap datetime Qc) repayment_type prepayments (st : sim_state) :
  reachable loan_amount loan_years first_pay_date initial_rate rate_changes
            repayment_type prepayments st ->
  current_rate st = initial_rate
  \/ exists d, dt_le d (current_date st)
               /\ effective_rate rate_changes initial_rate d (current_rate st).
Proof.
  induction 1 as [|st st' Hr IH Hc E]; [by left|].
  pose proof Hc as [Hrem _]%loop_cond_true.
  apply month_step_pass in E as (rows & rem & Hp & E); [|done].
  symmetry in E. apply close_month_next in E as (-> & _ & -> & _).
  right. exists (current_date st). split; [apply dt_le_add_month|].
  unfold pass_rate. destruct IH as [->|(d & Hd & He)].
  - apply resolve_rate_init.
  - by eapply resolve_rate_carry.
Qed.

Lemma reachable_pass_rate loan_amount loan_years first_pay_date initial_rate
    (rate_changes : gmap datetime Qc) repayment_type prepayments (st : sim_state) :
  reachable loan_amount loan_years first_pay_date initial_rate rate_changes
            repayment_type prepayments st ->
  effective_rate rate_changes initial_rate (current_date st)
                 (pass_rate rate_changes st).
Proof.
  intros Hr. unfold pass_rate.
  destruct (reachable_rate _ _ _ _ _ _ _ _ Hr) as [->|(d & Hd & He)].
  - apply resolve_rate_init.
  - by eapply resolve_rate_carry.
Qed.



(** ** Day numbers of calendar dates *)

Lemma days_in_month_pos (y m : Z) : (28 <= days_in_month y m <= 31)%Z.
Proof.
  unfold days_in_month.
  destruct (m =? 2)%Z; [destruct (is_leap y); lia|].
  destruct (_ || _); lia.
Qed.

Lemma days_before_month_succ (y m : Z) :
  (1 <= m)%Z ->
  days_before_month y (m + 1) = (days_before_month y m + days_in_month y m)%Z.
Proof.
  intros Hm. unfold days_before_month.
  replace (Z.to_nat (m + 1 - 1)) with (S (Z.to_nat (m - 1))) by lia.
  simpl days_before_month_aux. do 2 f_equal. lia.
Qed.

Lemma days_before_month_mono (y m m' : Z) :
  (1 <= m <= m')%Z -> (days_before_month y m <= days_before_month y m')%Z.
Proof.
  intros [Hm Hmm]. pattern m'. apply Zlt_lower_bound_ind with (z := m); [|lia].
  intros x IH Hx. destruct (Z.eq_dec x m) as [->|Hne]; [lia|].
  replace x with ((x - 1) + 1)%Z by lia.
  rewrite days_before_month_succ by lia.
  pose proof (days_in_month_pos y (x - 1)).
  assert (days_before_month y m <= days_before_month y (x - 1))%Z by (apply IH; lia).
  lia.
Qed.

Lemma days_before_month_first (y : Z) : days_before_month y 1 = 0%Z.
Proof. reflexivity. Qed.

Lemma days_in_year (y : Z) :
  days_before_month y 13 = (if is_leap y then 366 else 365)%Z.
Proof.
  unfold days_before_month. simpl Z.to_nat. unfold days_before_month_aux, days_in_month.
  simpl. destruct (is_leap y); reflexivity.
Qed.

Lemma days_before_year_succ (y : Z) :
  days_before_year (y + 1) = (days_before_year y + if is_leap y then 366 else 365)%Z.
Proof.
  unfold days_before_year, is_leap.
  replace (y + 1 - 1)%Z with y by lia.
  destruct (y mod 4 =? 0)%Z eqn:E4; simpl;
    [destruct (y mod 100 =? 0)%Z eqn:E100; simpl;
     [destruct (y mod 400 =? 0)%Z eqn:E400|]|];
    rewrite ?Z.eqb_eq, ?Z.eqb_neq in *;
    Z.to_euclidean_division_equations; lia.
Qed.

Lemma days_before_year_mono (y y' : Z) :
  (y <= y')%Z -> (days_before_year y <= days_before_year y')%Z.
Proof.
  intros Hy. pattern y'. apply Zlt_lower_bound_ind with (z := y); [|lia].
  intros x IH Hx. destruct (Z.eq_dec x y) as [->|Hne]; [lia|].
  replace x with ((x - 1) + 1)%Z by lia.
  rewrite days_before_year_succ.
  assert (days_before_year y <= days_before_year (x - 1))%Z by (apply IH; lia).
  destruct (is_leap (x - 1)); lia.
Qed.

(** On calendar dates the day number follows the order of the dates. *)
Lemma toordinal_lt (a b : datetime) :
  valid_date a -> valid_date b -> dt_lt a b -> (toordinal a < toordinal b)%Z.
Proof.
  intros [Hma Hda] [Hmb Hdb] Hlt. unfold dt_lt in Hlt. rewrite dt_ltb_spec in Hlt.
  unfold toordinal.
  assert (Hend : (days_before_month (year a) (month_of a) + day a
                  <= days_before_month (year a) (month_of a + 1))%Z).
  { rewrite days_before_month_succ by lia. lia. }
  assert (Hb0 : (0 <= days_before_month (year b) (month_of b))%Z).
  { rewrite <- (days_before_month_first (year b)). apply days_before_month_mono. lia. }
  destruct Hlt as [Hy|[Hy [Hm|[Hm Hd]]]].
  - assert (days_before_month (year a) (month_of a + 1)
            <= days_before_month (year a) 13)%Z
      by (apply days_before_month_mono; lia).
    assert (days_before_year (year a + 1) <= days_before_year (year b))%Z
      by (apply days_before_year_mono; lia).
    rewrite days_before_year_succ, <- days_in_year in *. lia.
  - rewrite Hy in *.
    assert (days_before_month (year b) (month_of a + 1)
            <= days_before_month (year b) (month_of b))%Z
      by (apply days_before_month_mono; lia).
    lia.
  - rewrite Hy, Hm in *. lia.
Qed.

(** A prepayment dated before the payment date is clamped to one day. *)
Lemma days_in_period_before (prepay_date cur_date : datetime) :
  valid_date prepay_date -> valid_date cur_date ->
  dt_ltb prepay_date cur_date = true ->
  days_in_period prepay_date cur_date = 1%Z.
Proof.
  intros Hp Hc Hlt. unfold days_in_period, days_between.
  pose proof (toordinal_lt _ _ Hp Hc Hlt). lia.
Qed.

Lemma days_in_period_same (d : datetime) : days_in_period d d = 1%Z.
Proof. unfold days_in_period, days_between. lia. Qed.

(** ** A prepayment inside the period (claims C3, C4) *)

Ltac qc_eq := apply Qc_is_canon; vm_compute; reflexivity.
Ltac qc_neq :=
  let H := fresh in
  intros H; apply (f_equal this) in H; vm_compute in H; discriminate H.

Lemma first_live_head (cur_date : datetime) (p : prepayment) (rest : list prepayment) :
  0 < get_amount p -> first_live cur_date (p :: rest) = Some p.
Proof.
  intros Ha%Qc_ltb_lt. simpl. unfold void. rewrite Ha.
  by rewrite andb_false_r.
Qed.

(** Counterexample to claim C3 as stated.  Loan 1200 over one year at 3%,
    first payment 2022-09-12, one prepayment of 500 dated 2022-11-12, the
    payment date of period 3.  The period writes a Regular row and then a
    Prepayment row, but the prepayment interest is one day of interest on
    the balance 900 (27/365), not the zero days between the two equal
    dates that the stated formula gives. *)
Lemma C3_counterexample :
  exists stf r_reg r_pre,
    simulate (num 1200) 1 (mkdt 2022 9 12) (num 3) ∅ "equal_principal"
             [mkPrepay (mkdt 2022 11 12) (Some (num 500))] = Ok stf
    /\ schedule stf !! 2%nat = Some r_reg /\ kind r_reg = Regular
    /\ schedule stf !! 3%nat = Some r_pre /\ kind r_pre = Prepayment
    /\ pay_date r_reg = mkdt 2022 11 12 /\ pay_date r_pre = mkdt 2022 11 12
    /\ interest r_pre = Q2Qc (27 # 365)
    /\ claimed_interest_after (num 900) (num 3) (pay_date r_pre) (pay_date r_reg) = 0
    /\ interest r_pre <> claimed_interest_after (num 900) (num 3)
                                                (pay_date r_pre) (pay_date r_reg).
Proof.
  eexists _, _, _.
  split; [vm_compute; reflexivity|].
  split; [vm_compute; reflexivity|]. split; [reflexivity|].
  split; [vm_compute; reflexivity|]. split; [reflexivity|].
  split; [reflexivity|]. split; [reflexivity|].
  split; [qc_eq|]. split; [qc_eq|]. qc_neq.
Qed.

(** Claim C3, amended.  When the first pending prepayment falls in the
    current month, has a positive amount and is dated on or after the
    payment date, the pass appends the Regular row and then the Prepayment
    row.  The prepayment interest is the daily interest on the balance left
    by the regular payment times max(days from payment date to prepayment
    date, 1): the day count has a lower bound of one day, so a prepayment
    on the payment date itself is charged one day.  The Regular row is
    rewritten: balance restored to the value before the prepayment,
    principal lowered by the prepayment amount, total payment recomputed
    from the lowered principal, cumulative principal set to the loan amount
    minus the restored balance, cumulative interest set to the prepayment
    interest.  The balance handed to the next period is reduced by both the
    regular principal and the prepayment. *)
Theorem C3_prepayment_on_or_after_payment_date
    loan_amount loan_years initial_rate (rate_changes : gmap datetime Qc)
    repayment_type (st : sim_state) (p : prepayment) (rest : list prepayment)
    (i pp : Qc) :
  0 < remaining_principal st ->
  pass_pending st = p :: rest ->
  in_month (current_date st) p = true ->
  0 < get_amount p ->
  dt_ltb (pdate p) (current_date st) = false ->
  regular_payment loan_amount loan_years initial_rate repayment_type
                  (remaining_principal st) (pass_rate rate_changes st) = Ok (i, pp) ->
  let rem := remaining_principal st in
  let a := get_amount p in
  let daily := ((rem - pp) * pass_rate rate_changes st / num 100) / num 365 in
  let ibp := daily * num (Z.max (days_between (pdate p) (current_date st)) 1) in
  month_step loan_amount loan_years initial_rate rate_changes repayment_type st
  = Ok (close_month st (pass_rate rate_changes st) (p :: rest) (rem - pp - a)
          (schedule st
           ++ [mkRow (month st) (current_date st) Regular (pp - a) i (rem - pp)
                     (Some (pp - a + i)) (Some (loan_amount - (rem - pp))) (Some ibp);
               mkRow (month st) (pdate p) Prepayment a ibp (rem - pp - a)
                     None None None]))
  /\ (pdate p = current_date st -> ibp = daily * num 1)
  /\ forall st',
       month_step loan_amount loan_years initial_rate rate_changes repayment_type st
       = Ok (Next st') ->
       remaining_principal st' = rem - pp - a /\ month st' = (month st + 1)%Z.
Proof.
  intros Hrem Hw Hin Ha Hlt Hp rem a daily ibp.
  assert (Hstep : month_step loan_amount loan_years initial_rate rate_changes
                             repayment_type st
                  = Ok (close_month st (pass_rate rate_changes st) (p :: rest) (rem - pp - a)
                          (schedule st
                           ++ [mkRow (month st) (current_date st) Regular (pp - a) i (rem - pp)
                                     (Some (pp - a + i)) (Some (loan_amount - (rem - pp)))
                                     (Some ibp);
                               mkRow (month st) (pdate p) Prepayment a ibp (rem - pp - a)
                                     None None None]))).
  { rewrite month_step_eq by done. unfold month_step_closed.
    fold (pass_rate rate_changes st). fold (pass_pending st). rewrite Hw.
    rewrite first_live_head by done. unfold live_step. simpl lv_remaining.
    rewrite Hp, bind_Ok. cbv beta iota. rewrite Hin, Hlt, bind_Ok.
    rewrite regular_first_eq. simpl lv_remaining. simpl lv_schedule.
    unfold retro_edit, regular_row, prepay_row. simpl.
    replace (remaining_principal st - pp - get_amount p + get_amount p)
      with (rem - pp) by (unfold rem; ring).
    reflexivity. }
  split; [exact Hstep|]. split.
  - intros Heq. unfold ibp. rewrite Heq. do 2 f_equal. unfold days_between. lia.
  - intros st' E. rewrite Hstep in E. injection E as E.
    apply close_month_next in E. tauto.
Qed.

Lemma C3_prepayment_on_or_after_payment_date_witness :
  let st := mkState (mkdt 2022 11 12) (num 1000) [] (num 3) 3
                    [mkPrepay (mkdt 2022 11 12) (Some (num 500))] in
  month_step (num 1200) 1 (num 3) ∅ "equal_principal" st
  = Ok (close_month st (num 3) [mkPrepay (mkdt 2022 11 12) (Some (num 500))]
          (num 1000 - monthly_principal (num 1200) 1 - num 500)
          [mkRow 3 (mkdt 2022 11 12) Regular
                 (monthly_principal (num 1200) 1 - num 500)
                 (num 1000 * (num 3 / num 100 / num 12))
                 (num 1000 - monthly_principal (num 1200) 1)
                 (Some (monthly_principal (num 1200) 1 - num 500
                        + num 1000 * (num 3 / num 100 / num 12)))
                 (Some (num 1200 - (num 1000 - monthly_principal (num 1200) 1)))
                 (Some ((num 1000 - monthly_principal (num 1200) 1) * num 3 / num 100
                        / num 365 * num 1));
           mkRow 3 (mkdt 2022 11 12) Prepayment (num 500)
                 ((num 1000 - monthly_principal (num 1200) 1) * num 3 / num 100
                  / num 365 * num 1)
                 (num 1000 - monthly_principal (num 1200) 1 - num 500)
                 None None None]).
Proof.
  intros st.
  refine (proj1 (C3_prepayment_on_or_after_payment_date
                   (num 1200) 1 (num 3) ∅ "equal_principal" st
                   (mkPrepay (mkdt 2022 11 12) (Some (num 500))) []
                   (num 1000 * (num 3 / num 100 / num 12))
                   (monthly_principal (num 1200) 1) _ _ _ _ _ _)).
  - by apply Qc_ltb_lt.
  - reflexivity.
  - reflexivity.
  - by apply Qc_ltb_lt.
  - reflexivity.
  - reflexivity.
Defined.

(** Counterexample to claim C4 as stated.  Loan 1200 over one year at 3%,
    first payment 2022-09-12, one prepayment of 450 dated 2022-11-05,
    before the payment date of period 3.  The Prepayment row leaves the
    balance 550, but the interest of the Regular row that follows is
    1000 x 3%/12 = 5/2, computed on the balance before the prepayment, not
    550 x 3%/12 = 11/8 on the reduced balance. *)
Lemma C4_counterexample :
  exists stf r_pre r_reg,
    simulate (num 1200) 1 (mkdt 2022 9 12) (num 3) ∅ "equal_principal"
             [mkPrepay (mkdt 2022 11 5) (Some (num 450))] = Ok stf
    /\ schedule stf !! 2%nat = Some r_pre /\ kind r_pre = Prepayment
    /\ schedule stf !! 3%nat = Some r_reg /\ kind r_reg = Regular
    /\ period r_pre = 3%Z /\ period r_reg = 3%Z
    /\ remaining r_pre = num 550
    /\ interest r_reg = num 1000 * (num 3 / num 100 / num 12)
    /\ interest r_reg <> remaining r_pre * (num 3 / num 100 / num 12).
Proof.
  eexists _, _, _.
  split; [vm_compute; reflexivity|].
  split; [vm_compute; reflexivity|]. split; [reflexivity|].
  split; [vm_compute; reflexivity|]. split; [reflexivity|].
  split; [reflexivity|]. split; [reflexivity|].
  split; [qc_eq|]. split; [qc_eq|]. qc_neq.
Qed.

(** Claim C4, amended.  When the first pending prepayment falls in the
    current month, has a positive amount and is dated strictly before the
    payment date, the pass appends the Prepayment row first.  Its interest
    is dailyInterest x max((prepayDate - periodDate).days, 1) with
    dailyInterest = balance x rate/100/365 on the balance before the
    prepayment; for calendar dates the day difference is negative in this
    branch, so the factor is exactly one day.  The balance is then reduced
    by the prepayment amount and the Regular row is appended: its interest
    and principal [(i, pp)] are the regular payment computed on the balance
    before the prepayment, its remaining balance is the reduced balance
    minus the regular principal, and that is the balance the pass leaves. *)
Theorem C4_prepayment_before_payment_date
    loan_amount loan_years initial_rate (rate_changes : gmap datetime Qc)
    repayment_type (st : sim_state) (p : prepayment) (rest : list prepayment)
    (i pp : Qc) :
  0 < remaining_principal st ->
  pass_pending st = p :: rest ->
  in_month (current_date st) p = true ->
  0 < get_amount p ->
  dt_ltb (pdate p) (current_date st) = true ->
  valid_date (pdate p) -> valid_date (current_date st) ->
  regular_payment loan_amount loan_years initial_rate repayment_type
                  (remaining_principal st) (pass_rate rate_changes st) = Ok (i, pp) ->
  let rem := remaining_principal st in
  let a := get_amount p in
  let daily := (rem * pass_rate rate_changes st / num 100) / num 365 in
  Z.max (days_between (pdate p) (current_date st)) 1 = 1%Z
  /\ month_step loan_amount loan_years initial_rate rate_changes repayment_type st
     = Ok (close_month st (pass_rate rate_changes st) (p :: rest) (rem - a - pp)
             (schedule st
              ++ [mkRow (month st) (pdate p) Prepayment a (daily * num 1) (rem - a)
                        None None None;
                  mkRow (month st) (current_date st) Regular pp i (rem - a - pp)
                        None None None])).
Proof.
  intros Hrem Hw Hin Ha Hlt Hvp Hvc Hp rem a daily.
  pose proof (days_in_period_before _ _ Hvp Hvc Hlt) as Hdays.
  split; [exact Hdays|].
  rewrite month_step_eq by done. unfold month_step_closed.
  fold (pass_rate rate_changes st). fold (pass_pending st). rewrite Hw.
  rewrite first_live_head by done. unfold live_step. simpl lv_remaining.
  rewrite Hp, bind_Ok. cbv beta iota. rewrite Hin, Hlt, bind_Ok.
  unfold prepay_first. simpl lv_remaining. simpl lv_schedule. cbv zeta.
  rewrite Hdays, <- app_assoc. reflexivity.
Qed.

Lemma C4_prepayment_before_payment_date_witness :
  let st := mkState (mkdt 2022 11 12) (num 1000) [] (num 3) 3
                    [mkPrepay (mkdt 2022 11 5) (Some (num 450))] in
  Z.max (days_between (mkdt 2022 11 5) (mkdt 2022 11 12)) 1 = 1%Z
  /\ month_step (num 1200) 1 (num 3) ∅ "equal_principal" st
     = Ok (close_month st (num 3) [mkPrepay (mkdt 2022 11 5) (Some (num 450))]
             (num 1000 - num 450 - monthly_principal (num 1200) 1)
             [mkRow 3 (mkdt 2022 11 5) Prepayment (num 450)
                    (num 1000 * num 3 / num 100 / num 365 * num 1)
                    (num 1000 - num 450) None None None;
              mkRow 3 (mkdt 2022 11 12) Regular (monthly_principal (num 1200) 1)
                    (num 1000 * (num 3 / num 100 / num 12))
                    (num 1000 - num 450 - monthly_principal (num 1200) 1)
                    None None None]).
Proof.
  intros st.
  refine (C4_prepayment_before_payment_date
            (num 1200) 1 (num 3) ∅ "equal_principal" st
            (mkPrepay (mkdt 2022 11 5) (Some (num 450))) []
            (num 1000 * (num 3 / num 100 / num 12))
            (monthly_principal (num 1200) 1) _ _ _ _ _ _ _ _).
  - by apply Qc_ltb_lt.
  - reflexivity.
  - reflexivity.
  - by apply Qc_ltb_lt.
  - reflexivity.
  - vm_compute. repeat split; discriminate.
  - vm_compute. repeat split; discriminate.
  - reflexivity.
Defined.

(** ** The unsupported-method error (claim C9) *)

Lemma bind_not_raise {A B : Type} (e : exn) (m : result A) (k : A -> result B) :
  m <> Raise e -> (forall a, k a <> Raise e) -> (m ≫= k) <> Raise e.
Proof.
  intros Hm Hk. destruct m as [a|e']; [apply Hk|].
  intros [= ->]. by apply Hm.
Qed.

Lemma py_div_not_ValueError (a b : Qc) : py_div a b <> Raise ValueError.
Proof. unfold py_div. by destruct (Qc_eqb b 0). Qed.

Lemma py_pow_not_ValueError (a : Qc) (n : Z) : py_pow a n <> Raise ValueError.
Proof. unfold py_pow. destruct (0 <=? n)%Z; [done|]. by destruct (Qc_eqb a 0). Qed.

Section Methods.
Variables (loan_amount : Qc) (loan_years : Z) (first_pay_date : datetime)
          (initial_rate : Qc) (rate_changes : gmap datetime Qc)
          (repayment_type : string).

Local Abbreviation regular_payment :=
  (regular_payment loan_amount loan_years initial_rate repayment_type).
Local Abbreviation month_step :=
  (month_step loan_amount loan_years initial_rate rate_changes repayment_type).
Local Abbreviation while_loop :=
  (while_loop loan_amount loan_years initial_rate rate_changes repayment_type).
Local Abbreviation simulate :=
  (simulate loan_amount loan_years first_pay_date initial_rate rate_changes repayment_type).
Local Abbreviation generate_repayment_schedule :=
  (generate_repayment_schedule loan_amount loan_years first_pay_date initial_rate
                               rate_changes repayment_type).
Local Abbreviation init_state := (init_state loan_amount first_pay_date initial_rate).
Local Abbreviation supported := (supported repayment_type).

Lemma equal_monthly_payment_not_ValueError (r : Qc) :
  equal_monthly_payment_of loan_amount loan_years r <> Raise ValueError.
Proof.
  unfold equal_monthly_payment_of.
  apply bind_not_raise; [apply py_pow_not_ValueError|].
  intros p. apply py_div_not_ValueError.
Qed.

Lemma regular_payment_supported (rem cur_rate : Qc) :
  supported -> regular_payment rem cur_rate <> Raise ValueError.
Proof.
  intros Hs. unfold regular_payment.
  destruct (String.eqb repayment_type "equal_principal") eqn:E1; [done|].
  destruct (String.eqb repayment_type "equal_payment") eqn:E2.
  - apply bind_not_raise; [apply equal_monthly_payment_not_ValueError|done].
  - apply String.eqb_neq in E1, E2. by destruct Hs.
Qed.

Lemma regular_payment_unsupported (rem cur_rate : Qc) :
  ~ supported -> regular_payment rem cur_rate = Raise ValueError.
Proof.
  intros Hs. unfold regular_payment.
  destruct (String.eqb repayment_type "equal_principal") eqn:E1.
  { apply String.eqb_eq in E1. destruct Hs. by left. }
  destruct (String.eqb repayment_type "equal_payment") eqn:E2; [|done].
  apply String.eqb_eq in E2. destruct Hs. by right.
Qed.

Lemma month_step_supported (st : sim_state) :
  supported -> 0 < remaining_principal st -> month_step st <> Raise ValueError.
Proof.
  intros Hs Hrem. rewrite month_step_eq by done. unfold month_step_closed.
  destruct (window _ _) as [|p l].
  - apply bind_not_raise; [by apply regular_payment_supported|]. by intros [i pp].
  - destruct (first_live _ _) as [q|]; [|done].
    apply bind_not_raise; [|done]. unfold live_step.
    apply bind_not_raise; [by apply regular_payment_supported|].
    intros [i pp]. destruct (in_month _ q); [|done]. by destruct (dt_ltb _ _).
Qed.

Lemma while_loop_supported (fuel : nat) (st : sim_state) :
  supported -> within_calendar loan_years st ->
  while_loop fuel st <> Raise ValueError.
Proof.
  intros Hs. revert st. induction fuel as [|fuel IH]; intros st Hcal; simpl.
  - by destruct (loop_cond _ st).
  - destruct (loop_cond _ st) eqn:Hc; [|done].
    pose proof Hc as [Hrem _]%loop_cond_true.
    destruct (month_step st) as [[st'|st'|st']|e] eqn:E; simpl.
    + destruct (within_calendar_next _ _ _ _ _ _ _ Hcal Hc E) as [-> Hcal'].
      by apply IH.
    + by apply month_step_not_again in E.
    + done.
    + intros [= ->]. by apply (month_step_supported st).
Qed.

Lemma finalize_not_ValueError (s : list row) : finalize loan_amount s <> Raise ValueError.
Proof. unfold finalize. by destruct (ledger _ _). Qed.

Lemma generate_supported (prepayments : list prepayment) :
  supported ->
  (1 <= month_of first_pay_date <= 12)%Z ->
  (year first_pay_date + loan_years <= 9999)%Z ->
  generate_repayment_schedule prepayments <> Raise ValueError.
Proof.
  intros Hs Hm Hy. unfold generate_repayment_schedule, simulate.
  apply bind_not_raise; [|intros st; apply finalize_not_ValueError].
  apply bind_not_raise.
  { destruct (String.eqb _ _); [apply equal_monthly_payment_not_ValueError|done]. }
  intros _. apply bind_not_raise; [apply py_div_not_ValueError|].
  intros _. apply while_loop_supported; [done|]. by apply within_calendar_init.
Qed.

Lemma month_step_unsupported (st : sim_state) :
  ~ supported -> 0 < remaining_principal st ->
  (forall p, p ∈ prepayment_details st -> 0 < get_amount p) ->
  month_step st = Raise ValueError.
Proof.
  intros Hs Hrem Hv. rewrite month_step_eq by done. unfold month_step_closed.
  destruct (window _ _) as [|p l] eqn:Hw.
  - by rewrite regular_payment_unsupported.
  - rewrite first_live_head.
    + unfold live_step. by rewrite regular_payment_unsupported.
    + apply Hv. assert (Hin : p ∈ window (current_date st) (prepayment_details st))
        by (rewrite Hw; left).
      by apply list_elem_of_filter in Hin as [_ Hin].
Qed.

Lemma generate_unsupported (prepayments : list prepayment) :
  ~ supported -> 0 < loan_amount -> (0 < loan_years)%Z ->
  Forall (fun p => 0 < get_amount p) prepayments ->
  generate_repayment_schedule prepayments = Raise ValueError.
Proof.
  intros Hs HP Hy Hv.
  unfold generate_repayment_schedule, simulate.
  destruct (String.eqb repayment_type "equal_payment") eqn:E.
  { apply String.eqb_eq in E. destruct Hs. by right. }
  rewrite bind_Ok. unfold py_div.
  destruct (Qc_eqb (num (total_months loan_years)) 0) eqn:E0.
  { apply Qc_eqb_eq in E0. unfold num in E0. rewrite <- Z2Qc_inj_0 in E0.
    apply Z2Qc_inj in E0. unfold total_months in E0. lia. }
  rewrite bind_Ok.
  destruct (Z.to_nat (total_months loan_years)) as [|fuel] eqn:Ef.
  { unfold total_months in Ef. lia. }
  simpl while_loop.
  replace (loop_cond loan_years (init_state prepayments)) with true.
  2:{ symmetry. apply loop_cond_true. simpl. unfold total_months. split; [done|lia]. }
  rewrite month_step_unsupported; [done..|].
  simpl. intros p Hp%elem_of_sort_by. by eapply Forall_forall in Hv.
Qed.

End Methods.

(** A loan of ordinary size stays inside the calendar. *)
Lemma ordinary_loan_calendar loan_amount loan_years first_pay_date initial_rate
    (rate_changes : gmap datetime Qc) (prepayments : list prepayment) :
  ordinary_loan loan_amount loan_years first_pay_date initial_rate rate_changes
                prepayments ->
  (1 <= month_of first_pay_date <= 12)%Z
  /\ (year first_pay_date + loan_years <= 9999)%Z.
Proof. intros (_ & ([Hm _] & _ & _ & Hy) & _). split; [done|lia]. Qed.

(** Counterexample to claim C9 as stated.  A principal of 0.005 and a
    term of one year are positive, and the method tag "bogus" is not an
    accepted one; the only prepayment, dated in the month of the first
    payment, has the amount 0.  The first pass then does nothing for this
    entry and makes no regular payment, so it reaches none of the three
    [raise] statements; the balance is at most 0.01 and the loop ends.
    The call ends with [KeyError] on the empty table, not with the
    unsupported-method error.  (Second part: the exception type
    [ValueError] is also that of a date beyond the year 9999, which an
    accepted tag meets when the schedule runs past December 9999.) *)
Lemma C9_counterexample :
  0 < Q2Qc (5 # 1000) /\ (0 < 1)%Z
  /\ "bogus" <> "equal_principal" /\ "bogus" <> "equal_payment"
  /\ generate_repayment_schedule (Q2Qc (5 # 1000)) 1 (mkdt 2022 9 12) (num 3) ∅
       "bogus" [mkPrepay (mkdt 2022 9 20) (Some 0)] = Raise KeyError
  /\ generate_repayment_schedule (Q2Qc (5 # 1000)) 1 (mkdt 2022 9 12) (num 3) ∅
       "bogus" [mkPrepay (mkdt 2022 9 20) (Some 0)] <> Raise ValueError
  /\ generate_repayment_schedule (num 1200) 1 (mkdt 9999 6 12) (num 3) ∅
       "equal_principal" [] = Raise ValueError.
Proof.
  split; [reflexivity|]. split; [lia|]. split; [done|]. split; [done|].
  assert (E : generate_repayment_schedule (Q2Qc (5 # 1000)) 1 (mkdt 2022 9 12) (num 3) ∅
                "bogus" [mkPrepay (mkdt 2022 9 20) (Some 0)] = Raise KeyError)
    by (vm_compute; reflexivity).
  split; [exact E|]. split; [by rewrite E|].
  vm_compute. reflexivity.
Qed.


Lemma ordinary_loan_witness :
  ordinary_loan (num 400000) 30 (mkdt 2022 9 12) (Q2Qc (325 # 100)) ∅
                [mkPrepay (mkdt 2026 1 1) (Some (num 50000))].
Proof.
  split; [by split|]. split.
  { unfold ordinary_dates, valid_date. repeat split; by vm_compute. }
  split; [by split|]. split; [apply map_Forall_empty|].
  repeat constructor; by vm_compute.
Qed.


(** ** One prepayment per month (claim C8) *)

(** Counterexample to claim C8 as stated.  Loan 1200 over one year at 3%,
    first payment 2022-09-12, prepayments of 100 on 2022-09-05 and of 200
    on 2022-09-20.  The first pass applies only the prepayment of 100; at
    the next pass the window (start of October) admits neither of the two
    September prepayments, so the one of 200 is not pending in any later
    pass and the returned table has a single Prepayment row. *)
Lemma C8_counterexample :
  let p1 := mkPrepay (mkdt 2022 9 5) (Some (num 100)) in
  let p2 := mkPrepay (mkdt 2022 9 20) (Some (num 200)) in
  exists st1 out,
    month_step (num 1200) 1 (num 3) ∅ "equal_principal"
               (init_state (num 1200) (mkdt 2022 9 12) (num 3) [p1; p2])
    = Ok (Next st1)
    /\ (p2 ∈ prepayment_details st1)
    /\ (p2 ∉ pass_pending st1)
    /\ generate_repayment_schedule (num 1200) 1 (mkdt 2022 9 12) (num 3) ∅
                                   "equal_principal" [p1; p2] = Ok out
    /\ ((fun r => (o_kind r, this (o_principal r)))
          <$> filter (fun r => o_kind r = Prepayment) out)
       = [(Prepayment, 100%Q)].
Proof.
  intros p1 p2. eexists _, _.
  split; [vm_compute; reflexivity|].
  split; [simpl; set_solver|].
  split; [|split; [vm_compute; reflexivity|vm_compute; reflexivity]].
  intros H. vm_compute in H. inversion H.
Qed.

(** Claim C8, amended.  A pass applies at most one prepayment: it appends
    at most one Prepayment row, and that row is for the head of the pending
    window, the earliest-dated pending prepayment, which lies in the
    current month.  The other prepayments of the month are not applied,
    and they do not stay pending either: when the pass moves on to the
    next period, no prepayment dated in the month just processed passes
    the window filter of that pass, so such a prepayment is never
    applied. *)
Theorem C8_one_prepayment_per_month
    loan_amount loan_years first_pay_date initial_rate
    (rate_changes : gmap datetime Qc) repayment_type
    (prepayments : list prepayment) (st : sim_state) (e : step_end) :
  Forall (fun p => 0 < get_amount p) prepayments ->
  reachable loan_amount loan_years first_pay_date initial_rate rate_changes
            repayment_type prepayments st ->
  loop_cond loan_years st = true ->
  month_step loan_amount loan_years initial_rate rate_changes repayment_type st = Ok e ->
  exists rows,
    schedule (state_of e) = schedule st ++ rows
    /\ (length (filter (fun r => is_prepayment r = true) rows) <= 1)%nat
    /\ (forall r, r ∈ rows -> kind r = Prepayment ->
        exists p rest,
          pass_pending st = p :: rest
          /\ in_month (current_date st) p = true
          /\ pay_date r = pdate p /\ principal r = get_amount p
          /\ Forall (fun q => dt_le (pdate p) (pdate q)) rest)
    /\ (forall st', e = Next st' ->
        forall q, q ∈ prepayment_details st ->
                  in_month (current_date st) q = true ->
                  q ∉ pass_pending st').
Proof.
  intros Hv Hr Hc E.
  pose proof Hc as [Hrem _]%loop_cond_true.
  destruct (reachable_pending _ _ _ _ _ _ _ _ Hr) as [Hsort Hsub].
  assert (Hhead : forall p, first_live (current_date st) (pass_pending st) = Some p ->
                  exists rest, pass_pending st = p :: rest
                               /\ Forall (fun q => dt_le (pdate p) (pdate q)) rest).
  { intros p Hl.
    assert (Hs : StronglySorted (key_le pdate) (pass_pending st))
      by (by apply StronglySorted_filter).
    destruct (pass_pending st) as [|p0 rest] eqn:Hw; [done|].
    rewrite first_live_head in Hl.
    - injection Hl as ->. exists rest. split; [done|].
      by apply StronglySorted_cons in Hs as [Hs _].
    - assert (Hin : p0 ∈ pass_pending st) by (rewrite Hw; left).
      apply list_elem_of_filter in Hin as [_ Hin].
      eapply Forall_forall in Hv; [exact Hv|]. by apply Hsub. }
  apply month_step_pass in E as (rows & rem & Hp & ->); [|done].
  exists rows. split.
  { unfold close_month. by destruct (Qc_leb _ 0). }
  split; [|split].
  - destruct Hp; simpl; lia.
  - intros r Hin Hk. destruct Hp as [i pp Hpay _|p i pp Hl Him Hlt Hpay
                                    |p i pp Hl Him Hlt Hpay|_ _].
    + apply list_elem_of_singleton in Hin as ->. done.
    + destruct (Hhead p Hl) as (rest & Hw & Hle).
      apply elem_of_cons in Hin as [->|Hin].
      * by exists p, rest.
      * apply list_elem_of_singleton in Hin as ->. done.
    + destruct (Hhead p Hl) as (rest & Hw & Hle).
      apply elem_of_cons in Hin as [->|Hin]; [done|].
      apply list_elem_of_singleton in Hin as ->. by exists p, rest.
    + by apply elem_of_nil in Hin.
  - intros st' E q Hq Him Hin.
    apply close_month_next in E as (Hd & _ & _ & Hl & _).
    unfold pass_pending in Hin at 1. rewrite Hd in Hin.
    apply list_elem_of_filter in Hin as [Hle _].
    apply andb_true_iff in Him as [Hy%Z.eqb_eq Hm%Z.eqb_eq].
    by rewrite month_start_add_month in Hle.
Qed.

Lemma C8_one_prepayment_per_month_witness :
  let p1 := mkPrepay (mkdt 2022 9 5) (Some (num 100)) in
  let p2 := mkPrepay (mkdt 2022 9 20) (Some (num 200)) in
  let st := init_state (num 1200) (mkdt 2022 9 12) (num 3) [p1; p2] in
  exists e rows,
    month_step (num 1200) 1 (num 3) ∅ "equal_principal" st = Ok e
    /\ schedule (state_of e) = schedule st ++ rows
    /\ (length (filter (fun r => is_prepayment r = true) rows) <= 1)%nat
    /\ (forall st', e = Next st' ->
        forall q, q ∈ prepayment_details st ->
                  in_month (current_date st) q = true ->
                  q ∉ pass_pending st').
Proof.
  intros p1 p2 st.
  destruct (month_step (num 1200) 1 (num 3) ∅ "equal_principal" st) as [e|x] eqn:E;
    [|vm_compute in E; discriminate E].
  destruct (C8_one_prepayment_per_month
              (num 1200) 1 (mkdt 2022 9 12) (num 3) ∅ "equal_principal" [p1; p2] st e)
    as (rows & Hs & Hn & _ & Hdrop).
  - repeat constructor.
  - apply reach_init.
  - reflexivity.
  - exact E.
  - exists e, rows. repeat split; assumption.
Defined.

(** ** Rounding *)

Lemma this_plus (x y : Qc) : (this (x + y) == this x + this y)%Q.
Proof. simpl. apply Qred_correct. Qed.

Lemma this_opp (x : Qc) : (this (- x) == - this x)%Q.
Proof. simpl. apply Qred_correct. Qed.

Lemma this_minus (x y : Qc) : (this (x - y) == this x - this y)%Q.
Proof. unfold Qcminus. by rewrite this_plus, this_opp. Qed.

Lemma this_num (z : Z) : this (num z) = inject_Z z.
Proof. reflexivity. Qed.

Lemma this_mult (x y : Qc) : (this (x * y) == this x * this y)%Q.
Proof. unfold Qcmult, Q2Qc. simpl. apply Qred_correct. Qed.

Lemma this_inv (x : Qc) : (this (/ x) == / this x)%Q.
Proof. simpl. apply Qred_correct. Qed.

Lemma this_div (x y : Qc) : (this (x / y) == this x / this y)%Q.
Proof. unfold Qcdiv, Qdiv. by rewrite this_mult, this_inv. Qed.

Lemma Qc_eq_Q (x y : Qc) : x = y -> (this x == this y)%Q.
Proof. by intros ->. Qed.

(** Statements on [Qc] are moved to [Q], where [lra] decides linear
    arithmetic. *)
Ltac to_Q H :=
  first [apply Qc_eq_Q in H | progress unfold Qclt in H | progress unfold Qcle in H];
  repeat first [rewrite this_plus in H | rewrite this_minus in H
               | rewrite this_mult in H | rewrite this_opp in H].

Ltac is_pos_literal p :=
  lazymatch p with
  | xH => idtac
  | xO ?q => is_pos_literal q
  | xI ?q => is_pos_literal q
  end.

Ltac is_Z_literal z :=
  lazymatch z with
  | Z0 => idtac
  | Zpos ?p => is_pos_literal p
  | Zneg ?p => is_pos_literal p
  end.

Ltac qc_literals :=
  repeat match goal with
  | H : context [this (Q2Qc (?a # ?b))] |- _ =>
      let v := eval vm_compute in (this (Q2Qc (a # b))) in
      change (this (Q2Qc (a # b))) with v in H
  | |- context [this (Q2Qc (?a # ?b))] =>
      let v := eval vm_compute in (this (Q2Qc (a # b))) in
      change (this (Q2Qc (a # b))) with v
  | H : context [this (num ?z)] |- _ =>
      let v := eval vm_compute in z in
      is_Z_literal v; change (this (num z)) with (v # 1)%Q in H
  | |- context [this (num ?z)] =>
      let v := eval vm_compute in z in
      is_Z_literal v; change (this (num z)) with (v # 1)%Q
  end.

Ltac qc_goal :=
  repeat first [rewrite this_plus | rewrite this_minus | rewrite this_mult
               | rewrite this_opp].

Ltac qc_lra :=
  unfold within_cent, cent in *;
  repeat match goal with
  | H : _ /\ _ |- _ => destruct H
  | H : @eq Qc _ _ |- _ => to_Q H
  | H : Qclt _ _ |- _ => to_Q H
  | H : Qcle _ _ |- _ => to_Q H
  end;
  repeat match goal with
  | |- _ /\ _ => split
  | |- @eq Qc _ _ => apply Qc_is_canon
  | |- Qclt _ _ => unfold Qclt
  | |- Qcle _ _ => unfold Qcle
  end;
  qc_goal; qc_literals; lra.

(** The rounded integer is within one half of the argument. *)
Lemma round_half_even_near (q : Qc) :
  (inject_Z (round_half_even q) - (1 # 2) <= this q
   /\ this q <= inject_Z (round_half_even q) + (1 # 2))%Q.
Proof.
  unfold round_half_even.
  pose proof (Qfloor_le q) as Hlo. pose proof (Qlt_floor q) as Hhi.
  rewrite inject_Z_plus in Hhi. change (inject_Z 1) with 1%Q in Hhi.
  set (f := Qfloor q) in *.
  destruct (Qc_ltb (q - num f) (Q2Qc (1 # 2))) eqn:E1.
  - apply Qc_ltb_lt in E1. unfold Qclt in E1.
    rewrite this_minus, this_num in E1. change (this (Q2Qc (1 # 2))) with (1 # 2)%Q in E1.
    split; lra.
  - destruct (Qc_ltb (Q2Qc (1 # 2)) (q - num f)) eqn:E2.
    + apply Qc_ltb_lt in E2. unfold Qclt in E2.
      rewrite this_minus, this_num in E2.
      change (this (Q2Qc (1 # 2))) with (1 # 2)%Q in E2.
      rewrite inject_Z_plus. change (inject_Z 1) with 1%Q. split; lra.
    + apply not_true_iff_false in E1, E2. rewrite Qc_ltb_lt in E1, E2.
      apply Qcnot_lt_le in E1, E2. unfold Qcle in E1, E2.
      rewrite this_minus, this_num in E1, E2.
      change (this (Q2Qc (1 # 2))) with (1 # 2)%Q in E1, E2.
      destruct (Z.even f); rewrite ?inject_Z_plus; change (inject_Z 1) with 1%Q;
        split; lra.
Qed.

Lemma round_half_even_mono (x y : Qc) :
  x ≤ y -> (round_half_even x <= round_half_even y)%Z.
Proof.
  intros Hxy. destruct (Z_le_gt_dec (round_half_even x) (round_half_even y)) as [H|H];
    [exact H|exfalso].
  destruct (round_half_even_near x) as [Hx _].
  destruct (round_half_even_near y) as [_ Hy].
  assert (Hn : (inject_Z (round_half_even y) + 1 <= inject_Z (round_half_even x))%Q).
  { change 1%Q with (inject_Z 1). rewrite <- inject_Z_plus, <- Zle_Qle. lia. }
  unfold Qcle in Hxy.
  assert (Heq : (this x == this y)%Q) by lra.
  apply Qc_is_canon in Heq. subst y. lia.
Qed.

Lemma num_nonneg (z : Z) : (0 <= z)%Z -> 0 ≤ num z.
Proof.
  intros H. apply (proj1 (Z2Qc_inj_le 0 z)) in H. by rewrite Z2Qc_inj_0 in H.
Qed.

Lemma round_dec_mono (k : Z) (x y : Qc) : x ≤ y -> round_dec k x ≤ round_dec k y.
Proof.
  intros Hxy. unfold round_dec.
  assert (Hc : 0 ≤ num (10 ^ k)) by (apply num_nonneg, Z.pow_nonneg; lia).
  unfold Qcdiv. apply Qcmult_le_compat_r.
  - unfold num. apply (proj1 (Z2Qc_inj_le _ _)). apply round_half_even_mono.
    by apply Qcmult_le_compat_r.
  - destruct (Qcle_lt_or_eq _ _ Hc) as [Hpos| <-]; [|done].
    by apply Qclt_le_weak, Qcinv_pos.
Qed.

Lemma round_dec_zero (k : Z) : round_dec k 0 = 0.
Proof.
  unfold round_dec. rewrite Qcmult_0_l.
  change (round_half_even 0) with 0%Z. unfold Qcdiv, num.
  rewrite Z2Qc_inj_0. apply Qcmult_0_l.
Qed.

(** A rounded amount that shows as positive is positive. *)
Lemma round_dec_pos (k : Z) (x : Qc) : 0 < round_dec k x -> 0 < x.
Proof.
  intros H. apply Qclt_nge. intros Hx. apply Qclt_nge in H. apply H.
  rewrite <- (round_dec_zero k). by apply round_dec_mono.
Qed.

(** A rounded amount is within half a unit of the last place. *)
Lemma round_dec_2_near (x : Qc) :
  - Q2Qc (1 # 200) ≤ round_dec 2 x - x /\ round_dec 2 x - x ≤ Q2Qc (1 # 200).
Proof.
  unfold round_dec. destruct (round_half_even_near (x * num (10 ^ 2))) as [Hlo Hhi].
  rewrite this_mult in Hlo, Hhi.
  set (z := round_half_even (x * num (10 ^ 2))) in *.
  assert (E : (this (num z / num (10 ^ 2)) == inject_Z z * (1 # 100))%Q).
  { rewrite this_div. reflexivity. }
  clearbody z.
  change (this (num (10 ^ 2))) with 100%Q in Hlo, Hhi.
  split; unfold Qcle; rewrite ?this_opp, this_minus, E;
    change (this (Q2Qc (1 # 200))) with (1 # 200)%Q; lra.
Qed.

Lemma round_dec_6_near (x : Qc) :
  - Q2Qc (1 # 2000000) ≤ round_dec 6 x - x /\ round_dec 6 x - x ≤ Q2Qc (1 # 2000000).
Proof.
  unfold round_dec. destruct (round_half_even_near (x * num (10 ^ 6))) as [Hlo Hhi].
  rewrite this_mult in Hlo, Hhi.
  set (z := round_half_even (x * num (10 ^ 6))) in *.
  assert (E : (this (num z / num (10 ^ 6)) == inject_Z z * (1 # 1000000))%Q).
  { rewrite this_div. reflexivity. }
  clearbody z.
  change (this (num (10 ^ 6))) with 1000000%Q in Hlo, Hhi.
  split; unfold Qcle; rewrite ?this_opp, this_minus, E;
    change (this (Q2Qc (1 # 2000000))) with (1 # 2000000)%Q; lra.
Qed.

(** The displayed amount of [x] is within a cent of [x]. *)
Lemma round_dec_2_cent (x : Qc) : within_cent (round_dec 2 x) x.
Proof. pose proof (round_dec_2_near x). qc_lra. Qed.

Lemma round_dec_2_within (x y : Qc) : x = y -> within_cent (round_dec 2 x) y.
Proof. intros <-. apply round_dec_2_cent. Qed.

(** The cumulative columns are rounded to six places and then to two. *)
Lemma round_dec_2_6_cent (x : Qc) : within_cent (round_dec 2 (round_dec 6 x)) x.
Proof.
  pose proof (round_dec_2_near (round_dec 6 x)). pose proof (round_dec_6_near x).
  qc_lra.
Qed.

(** The displayed balance is the loan less the principal paid, rounded
    three times. *)
Lemma displayed_remaining_cent (loan acc : Qc) :
  within_cent (round_dec 2 (round_dec 6 (loan - round_dec 6 acc))) (loan - acc).
Proof.
  pose proof (round_dec_2_near (round_dec 6 (loan - round_dec 6 acc))).
  pose proof (round_dec_6_near (loan - round_dec 6 acc)).
  pose proof (round_dec_6_near acc).
  qc_lra.
Qed.

(** ** The table built from the ledger *)

Section Frame.
Variable loan_amount : Qc.

Local Abbreviation frame_row := (frame_row loan_amount).
Local Abbreviation frame_from := (frame_from loan_amount).
Local Abbreviation build_frame := (build_frame loan_amount).
Local Abbreviation finalize := (finalize loan_amount).
Local Abbreviation ledger := (ledger loan_amount).

Lemma frame_from_length (acc_p acc_i : Qc) (s : list row) :
  length (frame_from acc_p acc_i s) = length s.
Proof. revert acc_p acc_i. induction s as [|r s IH]; intros; simpl; [done|]. by rewrite IH. Qed.

Lemma frame_from_lookup (acc_p acc_i : Qc) (s : list row) (i : nat) (r : row) :
  s !! i = Some r ->
  frame_from acc_p acc_i s !! i
  = Some (frame_row r (foldl (fun acc r => acc + principal r) acc_p (take (S i) s))
                      (foldl (fun acc r => acc + interest r) acc_i (take (S i) s))).
Proof.
  revert acc_p acc_i i. induction s as [|r0 s IH]; intros acc_p acc_i i Hi; [done|].
  destruct i as [|i]; simpl in *.
  - by injection Hi as ->.
  - by rewrite (IH _ _ _ Hi).
Qed.

Lemma build_frame_lookup (s : list row) (i : nat) (r : row) :
  s !! i = Some r ->
  build_frame s !! i
  = Some (frame_row r (paid_principal (take (S i) s)) (paid_interest (take (S i) s))).
Proof. apply frame_from_lookup. Qed.

Lemma build_frame_lookup_inv (s : list row) (i : nat) (o : out_row) :
  build_frame s !! i = Some o ->
  exists r, s !! i = Some r
            /\ o = frame_row r (paid_principal (take (S i) s))
                               (paid_interest (take (S i) s)).
Proof.
  intros Ho. destruct (s !! i) as [r|] eqn:E.
  - exists r. split; [done|]. rewrite (build_frame_lookup _ _ _ E) in Ho. by injection Ho.
  - apply lookup_ge_None in E. apply lookup_lt_Some in Ho.
    unfold build_frame in Ho. rewrite frame_from_length in Ho. lia.
Qed.

Lemma paid_principal_snoc (l : list row) (r : row) :
  paid_principal (l ++ [r]) = paid_principal l + principal r.
Proof. unfold paid_principal. by rewrite foldl_snoc. Qed.

Lemma finalize_Ok (s : list row) (out : list out_row) :
  finalize s = Ok out -> out = round_row <$> build_frame (ledger s).
Proof. unfold finalize. destruct (ledger s); [done|]. by intros [= <-]. Qed.

(** A row of the returned table comes from the ledger row at the same
    position and the sums up to that position. *)
Lemma finalize_lookup (s : list row) (out : list out_row) (i : nat) (o : out_row) :
  finalize s = Ok out -> out !! i = Some o ->
  exists r, ledger s !! i = Some r
            /\ o = round_row (frame_row r (paid_principal (take (S i) (ledger s)))
                                          (paid_interest (take (S i) (ledger s)))).
Proof.
  intros -> %finalize_Ok Ho. rewrite list_lookup_fmap in Ho.
  destruct (build_frame (ledger s) !! i) as [o6|] eqn:E; [|done].
  injection Ho as <-. apply build_frame_lookup_inv in E as (r & Hr & ->). by exists r.
Qed.

(** The frame reads only the payment columns of the ledger. *)
Lemma frame_from_columns (acc_p acc_i acc_i' : Qc) (s1 s2 : list row) :
  Forall2 (fun a b => principal a = principal b) s1 s2 ->
  o_remaining <$> frame_from acc_p acc_i s1 = o_remaining <$> frame_from acc_p acc_i' s2.
Proof.
  intros H. revert acc_p acc_i acc_i'.
  induction H as [|a b s1 s2 Hab H IH]; intros; [done|].
  simpl. rewrite Hab. f_equal. apply IH.
Qed.

End Frame.

Lemma generate_Ok loan_amount loan_years first_pay_date initial_rate
    (rate_changes : gmap datetime Qc) repayment_type prepayments (out : list out_row) :
  generate_repayment_schedule loan_amount loan_years first_pay_date initial_rate
                              rate_changes repayment_type prepayments = Ok out ->
  exists st,
    simulate loan_amount loan_years first_pay_date initial_rate rate_changes
             repayment_type prepayments = Ok st
    /\ finalize loan_amount (schedule st) = Ok out.
Proof.
  unfold generate_repayment_schedule. destruct (simulate _ _ _ _ _ _ _) as [st|]; [|done].
  intros H. by exists st.
Qed.

Lemma remaining_round_rows (t : list out_row) :
  o_remaining <$> (round_row <$> t) = round_dec 2 <$> (o_remaining <$> t).
Proof. induction t as [|o t IH]; [done|]. rewrite !fmap_cons, IH. done. Qed.

(** ** Claim C10 *)



(** ** The remaining-balance column (claims C1, C2) *)

(** Claim C1 fails on the code.  Loan 1200 over one year at 3%, first
    payment 2022-09-12, one prepayment of 450 dated 2022-11-05.  The loop
    ends in period 8 with the balance 50 before the payment of 100, so the
    last row records the balance -50.  The last-row correction subtracts
    that balance from the principal, 100 - (-50) = 150, where clearing the
    loan needs 100 + (-50) = 50; the principal column then sums to 1300
    and the recomputed final balance is -100. *)
Theorem C1_principal_sum_after_adjustment :
  exists st out last_recorded last_adjusted last_out,
    simulate (num 1200) 1 (mkdt 2022 9 12) (num 3) ∅ "equal_principal"
             [mkPrepay (mkdt 2022 11 5) (Some (num 450))] = Ok st
    /\ generate_repayment_schedule (num 1200) 1 (mkdt 2022 9 12) (num 3) ∅
         "equal_principal" [mkPrepay (mkdt 2022 11 5) (Some (num 450))] = Ok out
    /\ last (schedule st) = Some last_recorded
    /\ principal last_recorded = num 100 /\ remaining last_recorded = num (-50)
    /\ last (ledger (num 1200) (schedule st)) = Some last_adjusted
    /\ principal last_adjusted = num 150
    /\ paid_principal (ledger (num 1200) (schedule st)) = num 1300
    /\ last out = Some last_out
    /\ o_cum_principal last_out = num 1300 /\ o_remaining last_out = num (-100)
    /\ num 1300 <> num 1200.
Proof.
  eexists _, _, _, _, _.
  split; [vm_compute; reflexivity|]. split; [vm_compute; reflexivity|].
  split; [vm_compute; reflexivity|]. split; [qc_eq|]. split; [qc_eq|].
  split; [vm_compute; reflexivity|]. split; [qc_eq|]. split; [qc_eq|].
  split; [vm_compute; reflexivity|]. split; [qc_eq|]. split; [qc_eq|].
  qc_neq.
Qed.




(** ** Regular rows of the ledger (claims C5, C6) *)

Lemma first_live_elem (cur_date : datetime) (l : list prepayment) (p : prepayment) :
  first_live cur_date l = Some p -> p ∈ l.
Proof.
  induction l as [|q l IH]; simpl; [done|].
  destruct (void cur_date q).
  - intros H. right. by apply IH.
  - intros [= ->]. left.
Qed.

(** A Regular row written by a pass carries the regular payment computed
    on the balance at the start of the pass; its principal is that of the
    regular payment, or that principal minus the amount of the prepayment
    applied after it in the same pass. *)
Lemma pass_regular_row loan_amount loan_years initial_rate
    (rate_changes : gmap datetime Qc) repayment_type
    (st : sim_state) (rows : list row) (rem : Qc) (r : row) :
  pass loan_amount loan_years initial_rate rate_changes repayment_type st rows rem ->
  r ∈ rows -> kind r = Regular ->
  period r = month st /\ pay_date r = current_date st
  /\ exists i pp,
       regular_payment loan_amount loan_years initial_rate repayment_type
                       (remaining_principal st) (pass_rate rate_changes st) = Ok (i, pp)
       /\ interest r = i
       /\ (principal r = pp
           \/ exists p, p ∈ pass_pending st
                        /\ in_month (current_date st) p = true
                        /\ dt_le (current_date st) (pdate p)
                        /\ principal r = pp - get_amount p).
Proof.
  intros Hp Hin Hk.
  destruct Hp as [i pp Hpay _|p i pp Hl Him Hlt Hpay|p i pp Hl Him Hlt Hpay|_ _].
  - apply list_elem_of_singleton in Hin as ->. simpl.
    repeat split. exists i, pp. by auto.
  - apply elem_of_cons in Hin as [->|Hin]; [done|].
    apply list_elem_of_singleton in Hin as ->. simpl.
    repeat split. exists i, pp. by auto.
  - apply elem_of_cons in Hin as [->|Hin].
    + simpl. repeat split. exists i, pp. split; [done|]. split; [done|].
      right. exists p. split; [by eapply first_live_elem|]. split; [done|].
      split; [|done]. unfold dt_le, dt_leb. by rewrite Hlt.
    + apply list_elem_of_singleton in Hin as ->. done.
  - by apply elem_of_nil in Hin.
Qed.

(** The pending window holds only prepayments of the input list. *)
Lemma pass_pending_subset loan_amount loan_years first_pay_date initial_rate
    (rate_changes : gmap datetime Qc) repayment_type prepayments
    (st : sim_state) (p : prepayment) :
  reachable loan_amount loan_years first_pay_date initial_rate rate_changes
            repayment_type prepayments st ->
  p ∈ pass_pending st -> p ∈ prepayments.
Proof.
  intros Hr [_ Hin]%list_elem_of_filter.
  by apply (reachable_pending _ _ _ _ _ _ _ _ Hr).
Qed.

Section LedgerColumns.
Variable loan_amount : Qc.

Lemma accumulate_length (tp ti : Qc) (s : list row) :
  length (accumulate tp ti s) = length s.
Proof. revert tp ti. induction s as [|r s IH]; intros; simpl; [done|]. by rewrite IH. Qed.

Lemma accumulate_lookup (tp ti : Qc) (s : list row) (i : nat) (r : row) :
  accumulate tp ti s !! i = Some r ->
  exists r0, s !! i = Some r0
             /\ period r = period r0 /\ pay_date r = pay_date r0 /\ kind r = kind r0
             /\ principal r = principal r0 /\ interest r = interest r0
             /\ remaining r = remaining r0.
Proof.
  revert tp ti i. induction s as [|r0 s IH]; intros tp ti i; [done|].
  destruct i as [|i]; simpl.
  - intros [= <-]. by exists r0.
  - apply IH.
Qed.

Lemma adjust_last_length (s : list row) : length (adjust_last loan_amount s) = length s.
Proof.
  unfold adjust_last. destruct (last s); [|done].
  destruct (Qc_ltb _ _); [|done]. apply length_alter.
Qed.

Lemma adjust_last_lookup (s : list row) (i : nat) (r' : row) :
  adjust_last loan_amount s !! i = Some r' ->
  exists r, s !! i = Some r
            /\ period r' = period r /\ pay_date r' = pay_date r /\ kind r' = kind r
            /\ interest r' = interest r
            /\ ((S i < length s)%nat -> principal r' = principal r).
Proof.
  unfold adjust_last. destruct (last s) as [l|]; [|by exists r'].
  destruct (Qc_ltb _ _); [|by exists r'].
  rewrite list_lookup_alter. case_decide as Hi.
  - subst i. destruct (s !! (length s - 1)%nat) as [r0|]; [|done].
    intros [= <-]. exists r0. simpl. repeat split. lia.
  - intros Hr. by exists r'.
Qed.

Lemma ledger_length (s : list row) : length (ledger loan_amount s) = length s.
Proof. unfold ledger. by rewrite adjust_last_length, accumulate_length. Qed.

(** A row of the returned table shows the rounded interest of the ledger
    row the loop left at that position and, unless it is the last row, its
    rounded principal and total. *)
Lemma finalize_row (s : list row) (out : list out_row) (i : nat) (o : out_row) :
  finalize loan_amount s = Ok out -> out !! i = Some o ->
  exists r, s !! i = Some r
            /\ o_period o = period r /\ o_date o = pay_date r /\ o_kind o = kind r
            /\ o_interest o = round_dec 2 (interest r)
            /\ ((S i < length out)%nat ->
                o_principal o = round_dec 2 (principal r)
                /\ o_total_payment o = round_dec 2 (principal r + interest r)).
Proof.
  intros Hf Ho.
  assert (Hlen : length out = length s).
  { apply finalize_Ok in Hf as ->.
    rewrite length_fmap. unfold build_frame. by rewrite frame_from_length, ledger_length. }
  destruct (finalize_lookup _ _ _ _ _ Hf Ho) as (r2 & Hr2 & ->).
  unfold ledger in Hr2.
  apply adjust_last_lookup in Hr2 as (r1 & Hr1 & Hp2 & Hd2 & Hk2 & Hin2 & Hpr2).
  apply accumulate_lookup in Hr1 as (r & Hr & Hp & Hd & Hk & Hpr & Hin & _).
  exists r. simpl. rewrite Hp2, Hd2, Hk2, Hin2, Hp, Hd, Hk, Hin.
  repeat split; try done.
  - rewrite Hpr2, Hpr; [done|]. rewrite accumulate_length. lia.
  - rewrite Hpr2, Hpr; [done|]. rewrite accumulate_length. lia.
Qed.

End LedgerColumns.

(** Every Regular row of the ledger the loop leaves was computed in the
    pass of a reachable state. *)
Lemma simulate_regular_row loan_amount loan_years first_pay_date initial_rate
    (rate_changes : gmap datetime Qc) repayment_type prepayments
    (stf : sim_state) (r : row) :
  simulate loan_amount loan_years first_pay_date initial_rate rate_changes
           repayment_type prepayments = Ok stf ->
  r ∈ schedule stf -> kind r = Regular ->
  exists st i pp,
    reachable loan_amount loan_years first_pay_date initial_rate rate_changes
              repayment_type prepayments st
    /\ month st = period r /\ current_date st = pay_date r
    /\ regular_payment loan_amount loan_years initial_rate repayment_type
                       (remaining_principal st) (pass_rate rate_changes st) = Ok (i, pp)
    /\ interest r = i
    /\ (principal r = pp
        \/ exists p, p ∈ prepayments
                     /\ in_month (pay_date r) p = true
                     /\ dt_le (pay_date r) (pdate p)
                     /\ principal r = pp - get_amount p).
Proof.
  intros Hs Hin Hk.
  destruct (final_emitted _ _ _ _ _ _ _ _ (simulate_final _ _ _ _ _ _ _ _ Hs) r Hin)
    as (st & rows & rem & Hr & Hc & Hp & Hrow).
  destruct (pass_regular_row _ _ _ _ _ _ _ _ _ Hp Hrow Hk)
    as (Hper & Hdate & i & pp & Hpay & Hi & Hpr).
  exists st, i, pp. rewrite Hper, Hdate. repeat split; [done..|].
  destruct Hpr as [?|(p & Hpin & Him & Hle & Hpp)]; [by left|].
  right. exists p. split; [by eapply pass_pending_subset|done].
Qed.

Lemma regular_payment_equal_principal loan_amount loan_years initial_rate (rem cur_rate : Qc) :
  regular_payment loan_amount loan_years initial_rate "equal_principal" rem cur_rate
  = Ok (rem * (cur_rate / num 100 / num 12), loan_amount / num (loan_years * 12)).
Proof. reflexivity. Qed.




(** ** EqualInstallment and the rate timeline (claim C5) *)

Lemma regular_payment_equal_payment loan_amount loan_years initial_rate (rem cur_rate : Qc) :
  regular_payment loan_amount loan_years initial_rate "equal_payment" rem cur_rate
  = (equal_monthly_payment ← equal_monthly_payment_of loan_amount loan_years
                                                     (initial_rate / num 100 / num 12);
     Ok (rem * (initial_rate / num 100 / num 12),
         equal_monthly_payment - rem * (initial_rate / num 100 / num 12))).
Proof. reflexivity. Qed.

Lemma row_sim_refl_regular (m : Z) (d : datetime) (pp i rem : Qc) :
  row_sim (regular_row m d pp i rem) (regular_row m d pp i rem).
Proof. by repeat split. Qed.

Lemma row_sim_prepay (m : Z) (d : datetime) (a i i' rem : Qc) :
  row_sim (prepay_row m d a i rem) (prepay_row m d a i' rem).
Proof. by repeat split. Qed.

Lemma row_sim_retro loan_amount (rem a ibp ibp' : Qc) (r : row) :
  row_sim (retro_edit loan_amount rem a ibp r) (retro_edit loan_amount rem a ibp' r).
Proof. by repeat split. Qed.

Section RateIndependence.
Variables (loan_amount : Qc) (loan_years : Z) (first_pay_date : datetime)
          (initial_rate : Qc) (m1 m2 : gmap datetime Qc).

Local Abbreviation step1 := (month_step loan_amount loan_years initial_rate m1 "equal_payment").
Local Abbreviation step2 := (month_step loan_amount loan_years initial_rate m2 "equal_payment").
Local Abbreviation loop1 := (while_loop loan_amount loan_years initial_rate m1 "equal_payment").
Local Abbreviation loop2 := (while_loop loan_amount loan_years initial_rate m2 "equal_payment").

Lemma close_month_sim (st1 st2 : sim_state) (c1 c2 : Qc) (pending : list prepayment)
    (rem : Qc) (s1 s2 : list row) :
  current_date st1 = current_date st2 -> month st1 = month st2 ->
  Forall2 row_sim s1 s2 ->
  end_sim (close_month st1 c1 pending rem s1) (close_month st2 c2 pending rem s2).
Proof.
  intros Hd Hm Hs. unfold close_month.
  destruct (Qc_leb (if Qc_leb rem cent then 0 else rem) 0); simpl;
    by rewrite ?Hd, ?Hm.
Qed.

Lemma month_step_sim (st1 st2 : sim_state) :
  state_sim st1 st2 -> 0 < remaining_principal st1 ->
  result_sim end_sim (step1 st1) (step2 st2).
Proof.
  intros (Hd & Hr & Hm & Hp & Hs) Hrem.
  rewrite !month_step_eq by (by rewrite <- ?Hr). unfold month_step_closed.
  rewrite <- Hd, <- Hr, <- Hm, <- Hp.
  destruct (window (current_date st1) (prepayment_details st1)) as [|p0 l].
  - rewrite !regular_payment_equal_payment.
    destruct (equal_monthly_payment_of _ _ _) as [A|e]; simpl; [|done].
    apply close_month_sim; [done..|].
    apply Forall2_app; [done|]. constructor; [|constructor].
    rewrite Hd. apply row_sim_refl_regular.
  - destruct (first_live _ _) as [p|]; [|by apply close_month_sim].
    unfold live_step. simpl lv_remaining. rewrite !regular_payment_equal_payment.
    destruct (equal_monthly_payment_of _ _ _) as [A|e]; [|done].
    rewrite !bind_Ok. cbv beta iota.
    destruct (in_month (current_date st1) p);
      [destruct (dt_ltb (pdate p) (current_date st1))|]; rewrite !bind_Ok.
    + unfold prepay_first. simpl.
      apply close_month_sim; [done..|].
      apply Forall2_app; [apply Forall2_app; [done|]|];
        (constructor; [|constructor]).
      * apply row_sim_prepay.
      * apply row_sim_refl_regular.
    + rewrite !regular_first_eq. simpl.
      apply close_month_sim; [done..|].
      apply Forall2_app; [done|]. constructor; [|constructor; [|constructor]].
      * apply row_sim_retro.
      * apply row_sim_prepay.
    + simpl. apply close_month_sim; [done..|].
      apply Forall2_app; [done|]. constructor; [|constructor].
      apply row_sim_refl_regular.
Qed.

Lemma while_loop_sim (fuel : nat) (st1 st2 : sim_state) :
  state_sim st1 st2 -> result_sim state_sim (loop1 fuel st1) (loop2 fuel st2).
Proof.
  revert st1 st2. induction fuel as [|fuel IH]; intros st1 st2 Hsim.
  - simpl. pose proof Hsim as (_ & Hr & Hm & _).
    unfold loop_cond. rewrite <- Hr, <- Hm. by destruct (_ && _).
  - simpl. pose proof Hsim as (_ & Hr & Hm & _).
    unfold loop_cond. rewrite <- Hr, <- Hm.
    destruct (Qc_ltb 0 (remaining_principal st1)) eqn:Hrem; [|done].
    destruct (_ <=? _)%Z; simpl; [|done].
    apply Qc_ltb_lt in Hrem.
    pose proof (month_step_sim st1 st2 Hsim Hrem) as Hstep.
    destruct (step1 st1) as [e1|x1], (step2 st2) as [e2|x2]; simpl in *; try done.
    destruct e1 as [a|a|a], e2 as [b|b|b]; simpl in *; try done.
    pose proof Hstep as (Hd' & _). rewrite <- Hd'.
    destruct (in_calendar _); [by apply IH|done].
Qed.

Lemma accumulate_sim (tp ti tp' ti' : Qc) (s1 s2 : list row) :
  Forall2 row_sim s1 s2 ->
  Forall2 row_sim (accumulate tp ti s1) (accumulate tp' ti' s2).
Proof.
  intros H. revert tp ti tp' ti'.
  induction H as [|a b s1 s2 Hab H IH]; intros; simpl; constructor; [|apply IH].
  destruct Hab as (? & ? & ? & ? & ? & ?). by repeat split.
Qed.

Lemma adjust_last_sim (s1 s2 : list row) :
  Forall2 row_sim s1 s2 ->
  Forall2 row_sim (adjust_last loan_amount s1) (adjust_last loan_amount s2).
Proof.
  intros H. unfold adjust_last.
  pose proof (Forall2_last _ _ _ H) as Hl.
  destruct Hl as [a b Hab|]; [|done].
  pose proof Hab as (_ & _ & _ & _ & Hrem & _). rewrite <- Hrem.
  destruct (Qc_ltb _ _); [|done].
  rewrite <- (Forall2_length _ _ _ H).
  apply Forall2_alter; [done|].
  intros x y _ _ (? & ? & ? & Hp & Hr & Hi). unfold adjust_row.
  repeat split; simpl; try done; by rewrite Hp, Hr.
Qed.

Lemma frame_from_sim (tp ti ti' : Qc) (s1 s2 : list row) :
  Forall2 row_sim s1 s2 ->
  Forall2 out_sim (frame_from loan_amount tp ti s1) (frame_from loan_amount tp ti' s2).
Proof.
  intros H. revert tp ti ti'.
  induction H as [|a b s1 s2 Hab H IH]; intros; simpl; [constructor|].
  destruct Hab as (Hp & Hd & Hk & Hpr & Hr & Hi).
  constructor.
  - unfold frame_row, out_sim. simpl. rewrite <- Hpr.
    do 6 (split; [done|]). intros Hreg. by rewrite (Hi Hreg).
  - rewrite <- Hpr. apply IH.
Qed.

Lemma round_row_sim (a b : out_row) : out_sim a b -> out_sim (round_row a) (round_row b).
Proof.
  intros (Hp & Hd & Hk & Hpr & Hr & Hc & Hi). unfold round_row, out_sim. simpl.
  rewrite Hpr, Hr, Hc. do 6 (split; [done|]).
  intros Hreg. by destruct (Hi Hreg) as [-> ->].
Qed.

Lemma finalize_sim (s1 s2 : list row) :
  Forall2 row_sim s1 s2 ->
  result_sim (Forall2 out_sim) (finalize loan_amount s1) (finalize loan_amount s2).
Proof.
  intros H. unfold finalize, ledger.
  pose proof (adjust_last_sim _ _ (accumulate_sim 0 0 0 0 _ _ H)) as Hl.
  destruct Hl as [|a b l1 l2 Hab Hl]; [done|].
  unfold result_sim, build_frame. apply Forall2_fmap. eapply Forall2_impl.
  - apply (frame_from_sim 0 0 0 (a :: l1) (b :: l2)). by constructor.
  - intros x y. apply round_row_sim.
Qed.

(** The table of an EqualInstallment loan is the same under any two rate
    timelines, up to the interest booked on Prepayment rows. *)
Lemma generate_sim (prepayments : list prepayment) :
  result_sim (Forall2 out_sim)
    (generate_repayment_schedule loan_amount loan_years first_pay_date initial_rate
                                 m1 "equal_payment" prepayments)
    (generate_repayment_schedule loan_amount loan_years first_pay_date initial_rate
                                 m2 "equal_payment" prepayments).
Proof.
  unfold generate_repayment_schedule, simulate.
  destruct (if String.eqb "equal_payment" "equal_payment" then _ else _) as [x|e];
    [|done].
  rewrite !bind_Ok. destruct (py_div _ _) as [y|e]; [|done]. rewrite !bind_Ok.
  pose proof (while_loop_sim (Z.to_nat (total_months loan_years))
                (init_state loan_amount first_pay_date initial_rate prepayments)
                (init_state loan_amount first_pay_date initial_rate prepayments)) as Hw.
  assert (Hinit : state_sim (init_state loan_amount first_pay_date initial_rate prepayments)
                            (init_state loan_amount first_pay_date initial_rate prepayments)).
  { repeat split. simpl. constructor. }
  specialize (Hw Hinit).
  destruct (loop1 _ _) as [st1|e1], (loop2 _ _) as [st2|e2]; simpl in Hw; try done.
  rewrite !bind_Ok. apply finalize_sim. apply Hw.
Qed.

End RateIndependence.

Lemma equal_monthly_payment_closed loan_amount loan_years (r A : Qc) :
  (0 < loan_years)%Z ->
  equal_monthly_payment_of loan_amount loan_years r = Ok A ->
  A = loan_amount * (r * (1 + r) ^ Z.to_nat (loan_years * 12))
      / ((1 + r) ^ Z.to_nat (loan_years * 12) - 1).
Proof.
  intros Hy. unfold equal_monthly_payment_of, py_pow, total_months.
  replace (0 <=? loan_years * 12)%Z with true by (symmetry; apply Z.leb_le; lia).
  rewrite bind_Ok. unfold py_div. destruct (Qc_eqb _ 0); [done|]. by intros [= <-].
Qed.




(** * Further properties of the generator *)

(** ** Runs that return a table *)

Lemma num_eq_0 (z : Z) : num z = 0 -> z = 0%Z.
Proof.
  unfold num. rewrite <- Z2Qc_inj_0. apply Z2Qc_inj.
Qed.

Lemma py_div_Ok (a b : Qc) : b <> 0 -> py_div a b = Ok (a / b).
Proof.
  intros Hb. unfold py_div. destruct (Qc_eqb b 0) eqn:E; [|done].
  by apply Qc_eqb_eq in E.
Qed.

Lemma py_div_zero (a : Qc) : py_div a 0 = Raise ZeroDivisionError.
Proof. reflexivity. Qed.

Lemma Qcpower_ge_1 (a : Qc) (k : nat) : 1 ≤ a -> 1 ≤ a ^ k.
Proof.
  intros Ha. induction k as [|k IH]; simpl; [apply Qcle_refl|].
  apply Qcle_trans with (1 * a ^ k).
  - by rewrite Qcmult_1_l.
  - apply Qcmult_le_compat_r; [done|].
    apply Qcle_trans with 1; [done|exact IH].
Qed.

Lemma Qcpower_gt_1 (a : Qc) (k : nat) : 1 < a -> (0 < k)%nat -> 1 < a ^ k.
Proof.
  intros Ha Hk. destruct k as [|k]; [lia|]. simpl.
  pose proof (Qcpower_ge_1 a k (Qclt_le_weak _ _ Ha)) as Hge.
  apply Qcle_lt_trans with (1 * a ^ k).
  - by rewrite Qcmult_1_l.
  - apply Qcmult_lt_compat_r; [|done].
    apply Qclt_le_trans with 1; [done|exact Hge].
Qed.

Lemma Qc_div_pos (a b : Qc) : 0 < a -> 0 < b -> 0 < a / b.
Proof.
  intros Ha Hb. unfold Qcdiv.
  assert (Hi : 0 < / b).
  { destruct (Qclt_le_dec 0 (/ b)) as [|Hle]; [done|]. exfalso.
    assert (H1 : / b * b ≤ 0 * b) by (apply Qcmult_le_compat_r; [done|by apply Qclt_le_weak]).
    rewrite Qcmult_inv_l, Qcmult_0_l in H1 by (by apply Qclt_not_eq in Hb).
    by apply Qcle_not_lt in H1. }
  rewrite <- (Qcmult_0_l (/ b)). by apply Qcmult_lt_compat_r.
Qed.

Lemma num_pos (z : Z) : (0 < z)%Z -> 0 < num z.
Proof.
  intros Hz. unfold num. rewrite <- Z2Qc_inj_0. by apply (proj1 (Z2Qc_inj_lt _ _)).
Qed.

(** The annuity payment is defined for a positive rate and a positive term. *)
Lemma equal_monthly_payment_of_Ok (loan_amount : Qc) (loan_years : Z) (r : Qc) :
  (0 < loan_years)%Z -> 0 < r ->
  is_Ok (equal_monthly_payment_of loan_amount loan_years r).
Proof.
  intros Hy Hr. unfold equal_monthly_payment_of, py_pow, total_months.
  replace (0 <=? loan_years * 12)%Z with true by (symmetry; apply Z.leb_le; lia).
  rewrite bind_Ok. rewrite py_div_Ok; [by eexists|].
  assert (H1 : 1 < (1 + r) ^ Z.to_nat (loan_years * 12)).
  { apply Qcpower_gt_1; [|lia].
    apply Qclt_minus_iff. by replace (1 + r + - 1) with r by ring. }
  intros H0. apply Qclt_minus_iff in H1.
  replace ((1 + r) ^ Z.to_nat (loan_years * 12) + - 1)
    with ((1 + r) ^ Z.to_nat (loan_years * 12) - 1) in H1 by ring.
  rewrite H0 in H1. by apply Qclt_not_eq in H1.
Qed.

Lemma regular_payment_defined (loan_amount : Qc) (loan_years : Z) (initial_rate : Qc)
    (repayment_type : string) :
  repayment_type = "equal_principal"
  \/ (repayment_type = "equal_payment" /\ (0 < loan_years)%Z /\ 0 < initial_rate) ->
  forall rem cur_rate,
    is_Ok (regular_payment loan_amount loan_years initial_rate repayment_type rem cur_rate).
Proof.
  intros [->|(-> & Hy & Hr)] rem cur_rate.
  - rewrite regular_payment_equal_principal. by eexists.
  - rewrite regular_payment_equal_payment.
    destruct (equal_monthly_payment_of_Ok loan_amount loan_years
                (initial_rate / num 100 / num 12) Hy) as [A ->].
    + apply Qc_div_pos; [apply Qc_div_pos|]; [done|by apply num_pos..].
    + rewrite bind_Ok. by eexists.
Qed.

Section Totality.
Variables (loan_amount : Qc) (loan_years : Z) (first_pay_date : datetime)
          (initial_rate : Qc) (rate_changes : gmap datetime Qc)
          (repayment_type : string).

Local Abbreviation regular_payment :=
  (regular_payment loan_amount loan_years initial_rate repayment_type).
Local Abbreviation prepay_step :=
  (prepay_step loan_amount loan_years initial_rate repayment_type).
Local Abbreviation process_prepayments :=
  (process_prepayments loan_amount loan_years initial_rate repayment_type).
Local Abbreviation month_step :=
  (month_step loan_amount loan_years initial_rate rate_changes repayment_type).
Local Abbreviation while_loop :=
  (while_loop loan_amount loan_years initial_rate rate_changes repayment_type).
Local Abbreviation simulate :=
  (simulate loan_amount loan_years first_pay_date initial_rate rate_changes repayment_type).
Local Abbreviation generate_repayment_schedule :=
  (generate_repayment_schedule loan_amount loan_years first_pay_date initial_rate
                               rate_changes repayment_type).
Local Abbreviation init_state := (init_state loan_amount first_pay_date initial_rate).
Local Abbreviation loop_cond := (loop_cond loan_years).
Local Abbreviation total_months := (total_months loan_years).
Local Abbreviation pass :=
  (pass loan_amount loan_years initial_rate rate_changes repayment_type).

(** The payment block is the only place of the loop that can raise. *)
Hypothesis payment_defined : forall rem cur_rate, is_Ok (regular_payment rem cur_rate).

Lemma prepay_step_Ok cur_date cur_rate m lv p :
  is_Ok (prepay_step cur_date cur_rate m lv p).
Proof.
  unfold prepay_step.
  destruct (payment_defined (lv_remaining lv) cur_rate) as [[i pp] ->].
  rewrite !bind_Ok. cbv beta iota.
  destruct (in_month cur_date p); destruct (bool_decide _); try by eexists.
  destruct (_ && _); [|by eexists]. destruct (dt_ltb _ _); by eexists.
Qed.

Lemma process_prepayments_Ok cur_date cur_rate m lv l :
  is_Ok (process_prepayments cur_date cur_rate m lv l).
Proof.
  revert lv. induction l as [|p l IH]; intros lv; simpl; [by eexists|].
  destruct (prepay_step_Ok cur_date cur_rate m lv p) as [lv' ->].
  rewrite bind_Ok. apply IH.
Qed.

Lemma month_step_Ok (st : sim_state) : is_Ok (month_step st).
Proof.
  unfold month_step.
  destruct (process_prepayments_Ok (current_date st)
              (resolve_rate rate_changes (current_date st) (current_rate st)) (month st)
              (mkVars (remaining_principal st) (schedule st) ∅)
              (window (current_date st) (prepayment_details st))) as [lv ->].
  rewrite bind_Ok. destruct (window _ _); [|by eexists].
  destruct (bool_decide _); [by eexists|].
  destruct (payment_defined (lv_remaining lv)
              (resolve_rate rate_changes (current_date st) (current_rate st)))
    as [[i pp] ->].
  rewrite bind_Ok. by eexists.
Qed.

Lemma while_loop_Ok (fuel : nat) (st : sim_state) :
  within_calendar loan_years st -> is_Ok (while_loop fuel st).
Proof.
  revert st. induction fuel as [|fuel IH]; intros st Hcal; simpl.
  - destruct (loop_cond st); by eexists.
  - destruct (loop_cond st) eqn:Hc; [|by eexists].
    pose proof Hc as [Hrem _]%loop_cond_true.
    destruct (month_step_Ok st) as [e E]. rewrite E, bind_Ok.
    destruct e as [st'|st'|st']; [| |by eexists].
    + destruct (within_calendar_next _ _ _ _ _ _ _ Hcal Hc E) as [-> Hcal'].
      by apply IH.
    + by apply month_step_not_again in E.
Qed.

(** Outside the calendar the only other outcome is the [ValueError] of
    the date. *)
Lemma while_loop_Ok_or_date (fuel : nat) (st : sim_state) :
  is_Ok (while_loop fuel st) \/ while_loop fuel st = Raise ValueError.
Proof.
  revert st. induction fuel as [|fuel IH]; intros st; simpl.
  - left. destruct (loop_cond st); by eexists.
  - destruct (loop_cond st) eqn:Hc; [|left; by eexists].
    destruct (month_step_Ok st) as [e E]. rewrite E, bind_Ok.
    destruct e as [st'|st'|st']; [|apply IH|left; by eexists].
    destruct (in_calendar _); [apply IH|by right].
Qed.

Lemma simulate_prelude (prepayments : list prepayment) :
  loan_years <> 0%Z ->
  simulate prepayments
  = while_loop (Z.to_nat total_months) (init_state prepayments).
Proof.
  intros Hy. unfold simulate.
  assert (H1 : is_Ok (if String.eqb repayment_type "equal_payment"
                      then equal_monthly_payment_of loan_amount loan_years
                             (initial_rate / num 100 / num 12)
                      else Ok 0)).
  { destruct (String.eqb repayment_type "equal_payment") eqn:E; [|by eexists].
    apply String.eqb_eq in E.
    destruct (payment_defined 0 0) as [v Hv]. revert Hv. unfold regular_payment.
    rewrite E. simpl String.eqb. cbv iota.
    destruct (equal_monthly_payment_of _ _ _); [by eexists|done]. }
  destruct H1 as [a ->]. rewrite bind_Ok.
  rewrite py_div_Ok; [|intros H%num_eq_0; unfold total_months in H; lia].
  by rewrite bind_Ok.
Qed.

Lemma simulate_Ok (prepayments : list prepayment) :
  loan_years <> 0%Z ->
  (1 <= month_of first_pay_date <= 12)%Z ->
  (year first_pay_date + loan_years <= 9999)%Z ->
  is_Ok (simulate prepayments).
Proof.
  intros Hy Hm Hcal. rewrite simulate_prelude by done.
  apply while_loop_Ok. by apply within_calendar_init.
Qed.

Lemma simulate_Ok_or_date (prepayments : list prepayment) :
  loan_years <> 0%Z ->
  is_Ok (simulate prepayments) \/ simulate prepayments = Raise ValueError.
Proof. intros Hy. rewrite simulate_prelude by done. apply while_loop_Ok_or_date. Qed.

End Totality.

(** ** What a pass appends *)

Lemma close_month_schedule st cur_rate pending rem sched :
  schedule (state_of (close_month st cur_rate pending rem sched)) = sched.
Proof. unfold close_month. by destruct (Qc_leb _ 0). Qed.

Lemma close_month_month st cur_rate pending rem sched :
  (month st <= month (state_of (close_month st cur_rate pending rem sched))
   <= month st + 1)%Z.
Proof. unfold close_month. destruct (Qc_leb _ 0); simpl; lia. Qed.

Section PassFacts.
Variables (loan_amount : Qc) (loan_years : Z) (first_pay_date : datetime)
          (initial_rate : Qc) (rate_changes : gmap datetime Qc)
          (repayment_type : string) (prepayments : list prepayment).

Local Abbreviation month_step :=
  (month_step loan_amount loan_years initial_rate rate_changes repayment_type).
Local Abbreviation while_loop :=
  (while_loop loan_amount loan_years initial_rate rate_changes repayment_type).
Local Abbreviation simulate :=
  (simulate loan_amount loan_years first_pay_date initial_rate rate_changes repayment_type).
Local Abbreviation init_state := (init_state loan_amount first_pay_date initial_rate).
Local Abbreviation loop_cond := (loop_cond loan_years).
Local Abbreviation total_months := (total_months loan_years).
Local Abbreviation pass :=
  (pass loan_amount loan_years initial_rate rate_changes repayment_type).
Local Abbreviation reachable :=
  (reachable loan_amount loan_years first_pay_date initial_rate rate_changes
             repayment_type prepayments).
Local Abbreviation final :=
  (final loan_amount loan_years first_pay_date initial_rate rate_changes
         repayment_type prepayments).

(** The rows of a pass carry its period; there are at most two, of
    different kinds. *)
Lemma pass_rows_shape (st : sim_state) (rows : list row) (rem : Qc) :
  pass st rows rem ->
  Forall (fun r => period r = month st) rows
  /\ (rows = []
      \/ (exists a, rows = [a] /\ kind a = Regular)
      \/ (exists a b, rows = [a; b] /\ kind a <> kind b)).
Proof.
  destruct 1; (split; [repeat constructor|]).
  - right. left. by eexists.
  - right. right. by eexists _, _.
  - right. right. by eexists _, _.
  - by left.
Qed.

(** A pass whose pending prepayments all have a positive amount writes
    at least one row. *)
Lemma pass_nonempty (st : sim_state) (rows : list row) (rem : Qc) :
  pass st rows rem ->
  (forall p, p ∈ pass_pending st -> 0 < get_amount p) ->
  rows <> [].
Proof.
  destruct 1 as [| | |Hne Hnone]; try done. intros Hpos _.
  destruct (pass_pending st) as [|p l] eqn:E; [done|].
  rewrite first_live_head in Hnone; [done|]. apply Hpos. apply list_elem_of_here.
Qed.

Lemma month_step_extends (st : sim_state) (e : step_end) :
  0 < remaining_principal st -> month_step st = Ok e ->
  exists rows rem, pass st rows rem /\ schedule (state_of e) = schedule st ++ rows.
Proof.
  intros Hrem E. apply month_step_pass in E as (rows & rem & Hp & ->); [|done].
  exists rows, rem. split; [done|]. apply close_month_schedule.
Qed.

(** The loop only appends to the ledger. *)
Lemma while_loop_extends (fuel : nat) (st stf : sim_state) :
  while_loop fuel st = Ok stf -> exists rows, schedule stf = schedule st ++ rows.
Proof.
  revert st. induction fuel as [|fuel IH]; intros st; simpl.
  - destruct (loop_cond st); intros [= <-]; exists []; by rewrite app_nil_r.
  - destruct (loop_cond st) eqn:Hc; [|intros [= <-]; exists []; by rewrite app_nil_r].
    apply loop_cond_true in Hc as [Hrem _].
    destruct (month_step st) as [e|x] eqn:E; simpl; [|done].
    destruct (month_step_extends st e Hrem E) as (rows & rem & _ & Hs).
    destruct e as [st'|st'|st']; simpl in Hs.
    + destruct (in_calendar _); [|done].
      intros (rows' & Hs')%IH. exists (rows ++ rows'). by rewrite Hs', Hs, app_assoc.
    + intros (rows' & Hs')%IH. exists (rows ++ rows'). by rewrite Hs', Hs, app_assoc.
    + intros [= <-]. by exists rows.
Qed.

(** How the loop ends: the condition fails in a state it reached, or a
    pass breaks out. *)
Lemma while_loop_exit (fuel : nat) (st stf : sim_state) :
  reachable st -> (total_months - month st + 1 <= Z.of_nat fuel)%Z ->
  while_loop fuel st = Ok stf ->
  (reachable stf /\ loop_cond stf = false)
  \/ (exists st', reachable st' /\ loop_cond st' = true
                  /\ month_step st' = Ok (Break stf)).
Proof.
  revert st. induction fuel as [|fuel IH]; intros st Hr Hf; simpl.
  - destruct (loop_cond st) eqn:Hc; intros [= <-]; [|by left].
    apply loop_cond_true in Hc. lia.
  - destruct (loop_cond st) eqn:Hc; [|intros [= <-]; by left].
    pose proof Hc as [Hrem Hm]%loop_cond_true.
    destruct (month_step st) as [[st'|st'|st']|x] eqn:E; simpl; [| | |done].
    + pose proof (month_step_next _ _ _ _ _ _ _ Hrem E) as [Hm' _].
      destruct (in_calendar _); [|done].
      apply IH; [by eapply reach_next|lia].
    + by apply month_step_not_again in E.
    + intros [= <-]. right. by exists st.
Qed.

Lemma simulate_exit (stf : sim_state) :
  simulate prepayments = Ok stf ->
  (reachable stf /\ loop_cond stf = false)
  \/ (exists st', reachable st' /\ loop_cond st' = true
                  /\ month_step st' = Ok (Break stf)).
Proof.
  unfold simulate.
  destruct (if String.eqb repayment_type "equal_payment" then _ else _); [|done].
  rewrite bind_Ok. destruct (py_div _ _); [|done]. rewrite bind_Ok.
  apply while_loop_exit; [apply reach_init|]. simpl. lia.
Qed.

(** The period counter never passes the term by more than one. *)
Lemma reachable_month_bound (st : sim_state) :
  reachable st -> (1 <= month st <= Z.max 1 (total_months + 1))%Z.
Proof.
  induction 1 as [|st st' Hr IH Hc E]; simpl; [lia|].
  apply loop_cond_true in Hc as [Hrem Hm].
  apply month_step_next in E as [-> _]; [lia|done].
Qed.

End PassFacts.

Lemma finalize_nonempty (loan_amount : Qc) (s : list row) :
  s <> [] ->
  exists out, finalize loan_amount s = Ok out /\ length out = length s.
Proof.
  intros Hs. unfold finalize.
  pose proof (ledger_length loan_amount s) as Hl.
  destruct (ledger loan_amount s) as [|r l] eqn:E.
  - destruct s; [done|]. simpl in Hl. lia.
  - eexists. split; [done|].
    rewrite length_fmap. unfold build_frame. by rewrite frame_from_length.
Qed.

Lemma finalize_empty (loan_amount : Qc) : finalize loan_amount [] = Raise KeyError.
Proof. reflexivity. Qed.

Lemma finalize_length (loan_amount : Qc) (s : list row) (out : list out_row) :
  finalize loan_amount s = Ok out -> length out = length s.
Proof.
  intros Hf. destruct s as [|r s]; [done|].
  destruct (finalize_nonempty loan_amount (r :: s)) as (out' & Hf' & Hl); [done|].
  congruence.
Qed.

(** With prepayments of positive amounts the first pass writes a row, so
    the ledger of a run that ends starts with a row of period 1. *)
Lemma simulate_first_row
    loan_amount loan_years first_pay_date initial_rate
    (rate_changes : gmap datetime Qc) (repayment_type : string)
    (prepayments : list prepayment) (stf : sim_state) :
  0 < loan_amount -> (0 < loan_years)%Z ->
  Forall (fun p => 0 < get_amount p) prepayments ->
  simulate loan_amount loan_years first_pay_date initial_rate rate_changes
           repayment_type prepayments = Ok stf ->
  exists r s, schedule stf = r :: s /\ period r = 1%Z.
Proof.
  intros HP Hy Hpos. unfold simulate.
  destruct (if String.eqb repayment_type "equal_payment" then _ else _); [|done].
  rewrite bind_Ok. destruct (py_div _ _); [|done]. rewrite bind_Ok.
  destruct (Z.to_nat (total_months loan_years)) as [|fuel] eqn:Ef;
    [unfold total_months in Ef; lia|].
  simpl while_loop.
  replace (loop_cond loan_years
             (init_state loan_amount first_pay_date initial_rate prepayments)) with true.
  2:{ symmetry. apply loop_cond_true. simpl. unfold total_months. split; [done|lia]. }
  destruct (month_step _ _ _ _ _ _) as [e|x] eqn:E; [|done]. rewrite bind_Ok.
  apply month_step_pass in E as (rows & rem & Hp & ->); [|done].
  destruct (pass_rows_shape _ _ _ _ _ _ _ _ Hp) as [Hper _].
  assert (Hne : rows <> []).
  { eapply pass_nonempty; [exact Hp|]. unfold pass_pending, window. simpl.
    intros p [_ Hin%elem_of_sort_by]%list_elem_of_filter.
    by eapply Forall_forall in Hpos. }
  destruct rows as [|r rows]; [done|].
  apply Forall_cons in Hper as [Hper _]. simpl in Hper.
  match goal with
  | |- context [close_month ?a ?b ?c ?d ?e] =>
      pose proof (close_month_schedule a b c d e) as Hs
  end.
  destruct (close_month _ _ _ _ _) as [st'|st'|st']; simpl in Hs.
  - destruct (in_calendar _); [|done].
    intros (rows' & Hs')%while_loop_extends. rewrite Hs in Hs'. by exists r, (rows ++ rows').
  - intros (rows' & Hs')%while_loop_extends. rewrite Hs in Hs'. by exists r, (rows ++ rows').
  - intros [= <-]. by exists r, rows.
Qed.

(** The first row of the table is the first row of the ledger. *)
Lemma finalize_first_row (loan_amount : Qc) (r : row) (s : list row) :
  exists out o,
    finalize loan_amount (r :: s) = Ok out
    /\ out !! 0%nat = Some o /\ o_period o = period r /\ o_date o = pay_date r
    /\ o_kind o = kind r.
Proof.
  destruct (finalize_nonempty loan_amount (r :: s)) as (out & Hout & Hlen); [done|].
  destruct (out !! 0%nat) as [o|] eqn:Ho.
  2:{ apply lookup_ge_None in Ho. rewrite Hlen in Ho. simpl in Ho. lia. }
  exists out, o. split; [done|]. split; [done|].
  destruct (finalize_row _ _ _ _ _ Hout Ho) as (r' & Hr' & Hp' & Hd' & Hk' & _).
  simpl in Hr'. injection Hr' as <-. done.
Qed.

(** A rate of at least 0.1 percent a year is positive. *)
Lemma annuity_rate_pos (initial_rate : Qc) : Q2Qc (1 # 10) ≤ initial_rate -> 0 < initial_rate.
Proof. intros H. eapply Qclt_le_trans; [|exact H]. reflexivity. Qed.



(** ** Runs that raise *)

Lemma while_loop_stop loan_amount loan_years initial_rate
    (rate_changes : gmap datetime Qc) repayment_type (fuel : nat) (st : sim_state) :
  loop_cond loan_years st = false ->
  while_loop loan_amount loan_years initial_rate rate_changes repayment_type fuel st
  = Ok st.
Proof. intros Hc. destruct fuel; simpl; by rewrite Hc. Qed.

Lemma finalize_not_ZeroDivisionError (loan_amount : Qc) (s : list row) :
  finalize loan_amount s <> Raise ZeroDivisionError.
Proof. unfold finalize. by destruct (ledger loan_amount s). Qed.

(** Property X2.
    Division by zero.  A term of zero years makes the generator raise
    [ZeroDivisionError] (the monthly principal, or the annuity payment,
    divides by zero), and so does the annuity method with a rate of zero;
    under the equal-principal method a zero term is the only cause. *)
Theorem generate_zero_division
    loan_amount loan_years first_pay_date initial_rate
    (rate_changes : gmap datetime Qc) (repayment_type : string)
    (prepayments : list prepayment) :
  (loan_years = 0%Z ->
   generate_repayment_schedule loan_amount loan_years first_pay_date initial_rate
                               rate_changes repayment_type prepayments
   = Raise ZeroDivisionError)
  /\ (repayment_type = "equal_payment" -> initial_rate = 0 ->
      generate_repayment_schedule loan_amount loan_years first_pay_date initial_rate
                                  rate_changes repayment_type prepayments
      = Raise ZeroDivisionError)
  /\ (repayment_type = "equal_principal" ->
      generate_repayment_schedule loan_amount loan_years first_pay_date initial_rate
                                  rate_changes repayment_type prepayments
      = Raise ZeroDivisionError ->
      loan_years = 0%Z).
Proof.
  split; [|split].
  - intros ->. unfold generate_repayment_schedule, simulate.
    destruct (String.eqb repayment_type "equal_payment").
    + unfold equal_monthly_payment_of, total_months, py_pow. simpl. done.
    + rewrite bind_Ok. done.
  - intros -> ->. unfold generate_repayment_schedule, simulate. simpl String.eqb. cbv iota.
    replace (0 / num 100 / num 12) with (0 : Qc) by (apply Qc_is_canon; reflexivity).
    assert (H1 : (1 + 0 : Qc) = 1) by ring.
    assert (Hraise : equal_monthly_payment_of loan_amount loan_years 0
                     = Raise ZeroDivisionError).
    { unfold equal_monthly_payment_of, py_pow. rewrite H1.
      assert (Hdiv : forall a, py_div a (1 - 1) = Raise ZeroDivisionError).
      { intros a. unfold py_div.
        by replace (Qc_eqb (1 - 1) 0) with true by (symmetry; by apply Qc_eqb_eq). }
      destruct (0 <=? total_months loan_years)%Z.
      - rewrite bind_Ok, Qcpower_1. apply Hdiv.
      - replace (Qc_eqb 1 0) with false by reflexivity.
        rewrite bind_Ok, Qcpower_1.
        replace (/ 1) with (1 : Qc) by (apply Qc_is_canon; reflexivity).
        apply Hdiv. }
    by rewrite Hraise.
  - intros -> Hgen. destruct (Z.eq_dec loan_years 0%Z) as [|Hne]; [done|]. exfalso.
    destruct (simulate_Ok_or_date loan_amount loan_years first_pay_date initial_rate
                rate_changes "equal_principal"
                (regular_payment_defined loan_amount loan_years initial_rate
                   "equal_principal" (or_introl eq_refl))
                prepayments Hne) as [[stf Hsim]|Hsim];
      unfold generate_repayment_schedule in Hgen; rewrite Hsim in Hgen; [|done].
    rewrite bind_Ok in Hgen.
    by apply finalize_not_ZeroDivisionError in Hgen.
Qed.

(** Property X3.
    A table without rows.  When the loop does not run at all, because
    the principal is not positive or the term is negative, the ledger is
    empty and the date column that the generator converts last does not
    exist: the call ends with [KeyError] (whatever the method tag, which is
    never looked at). *)
Theorem generate_without_rows
    loan_amount loan_years first_pay_date initial_rate
    (rate_changes : gmap datetime Qc) (repayment_type : string)
    (prepayments : list prepayment) :
  loan_amount ≤ 0 \/ (loan_years < 0)%Z ->
  loan_years <> 0%Z ->
  repayment_type <> "equal_payment" ->
  generate_repayment_schedule loan_amount loan_years first_pay_date initial_rate
                              rate_changes repayment_type prepayments
  = Raise KeyError.
Proof.
  intros Hno Hy Hty. unfold generate_repayment_schedule, simulate.
  apply String.eqb_neq in Hty. rewrite Hty, bind_Ok.
  rewrite py_div_Ok; [|intros H%num_eq_0; unfold total_months in H; lia].
  rewrite bind_Ok, while_loop_stop; [done|].
  unfold loop_cond. simpl. destruct Hno as [Hle|Hlt].
  - replace (Qc_ltb 0 loan_amount) with false; [done|].
    symmetry. apply not_true_iff_false. intros Hlt%Qc_ltb_lt.
    by apply Qcle_not_lt in Hle.
  - replace (1 <=? total_months loan_years)%Z with false; [by rewrite andb_false_r|].
    symmetry. apply Z.leb_gt. unfold total_months. lia.
Qed.

Lemma generate_without_rows_witness :
  generate_repayment_schedule 0 30 (mkdt 2022 9 12) (Q2Qc (325 # 100)) ∅
                              "equal_principal" []
  = Raise KeyError.
Proof.
  apply (generate_without_rows 0 30 (mkdt 2022 9 12) (Q2Qc (325 # 100)) ∅
           "equal_principal" []).
  - left. apply Qcle_refl.
  - lia.
  - discriminate.
Defined.

(** ** A prepayment entry without a positive amount *)

Lemma first_live_void (cur_date : datetime) (l : list prepayment) :
  Forall (fun p => in_month cur_date p = true /\ get_amount p ≤ 0) l ->
  first_live cur_date l = None.
Proof.
  induction 1 as [|p l [Hin Ha] _ IH]; simpl; [done|].
  unfold void. rewrite Hin.
  replace (Qc_ltb 0 (get_amount p)) with false; [done|].
  symmetry. apply not_true_iff_false. intros Hlt%Qc_ltb_lt.
  by apply Qcle_not_lt in Ha.
Qed.

(** Property X4.
    When the pending prepayments of the window all fall in the current
    month and none has a positive amount, the pass writes no row at all:
    the regular payment of the period is not made, the balance is
    unchanged and the period counter moves on. *)
Theorem void_prepayments_suppress_period
    loan_amount loan_years initial_rate (rate_changes : gmap datetime Qc)
    repayment_type (st : sim_state) :
  0 < remaining_principal st ->
  pass_pending st <> [] ->
  Forall (fun p => in_month (current_date st) p = true /\ get_amount p ≤ 0)
         (pass_pending st) ->
  month_step loan_amount loan_years initial_rate rate_changes repayment_type st
  = Ok (close_month st (pass_rate rate_changes st) (pass_pending st)
          (remaining_principal st) (schedule st))
  /\ (cent < remaining_principal st ->
      month_step loan_amount loan_years initial_rate rate_changes repayment_type st
      = Ok (Next (mkState (add_month (current_date st)) (remaining_principal st)
                          (schedule st) (pass_rate rate_changes st) (month st + 1)
                          (pass_pending st)))).
Proof.
  intros Hrem Hne Hvoid.
  assert (Hstep : month_step loan_amount loan_years initial_rate rate_changes
                             repayment_type st
                  = Ok (close_month st (pass_rate rate_changes st) (pass_pending st)
                          (remaining_principal st) (schedule st))).
  { rewrite month_step_eq by done. unfold month_step_closed.
    fold (pass_rate rate_changes st). fold (pass_pending st).
    rewrite (first_live_void _ _ Hvoid).
    by destruct (pass_pending st). }
  split; [exact Hstep|]. intros Hcent. rewrite Hstep. unfold close_month.
  replace (Qc_leb (remaining_principal st) cent) with false.
  2:{ symmetry. apply not_true_iff_false. intros Hle%Qc_leb_le.
      by apply Qcle_not_lt in Hle. }
  replace (Qc_leb (remaining_principal st) 0) with false; [done|].
  symmetry. apply not_true_iff_false. intros Hle%Qc_leb_le.
  by apply Qcle_not_lt in Hle.
Qed.

Lemma void_prepayments_suppress_period_witness :
  let p := mkPrepay (mkdt 2022 11 5) (Some 0) in
  let st := mkState (mkdt 2022 11 12) (num 1000) [] (num 3) 3 [p] in
  month_step (num 1200) 1 (num 3) ∅ "equal_principal" st
  = Ok (Next (mkState (mkdt 2022 12 12) (num 1000) [] (num 3) 4 [p]))
  /\ exists out,
       generate_repayment_schedule (num 1200) 1 (mkdt 2022 9 12) (num 3) ∅
                                   "equal_principal" [p] = Ok out
       /\ o_period <$> out = [1; 2; 4; 5; 6; 7; 8; 9; 10; 11; 12]%Z.
Proof.
  intros p st. split.
  - assert (Hrem : 0 < remaining_principal st) by reflexivity.
    assert (Hne : pass_pending st <> []) by (vm_compute; discriminate).
    assert (Hvoid : Forall (fun q => in_month (current_date st) q = true
                                     /\ get_amount q ≤ 0) (pass_pending st)).
    { vm_compute pass_pending. repeat constructor. vm_compute. discriminate. }
    assert (Hcent : cent < remaining_principal st) by reflexivity.
    exact (proj2 (void_prepayments_suppress_period (num 1200) 1 (num 3) ∅
                    "equal_principal" st Hrem Hne Hvoid) Hcent).
  - eexists. split; vm_compute; reflexivity.
Defined.

(** ** The list of prepayments *)

Section SortFilter.
Context {A : Type} (key : A -> datetime).
Context (P : A -> Prop) `{forall x, Decision (P x)}.

Lemma insert_by_head (x : A) (l : list A) :
  Forall (fun y => dt_le (key x) (key y)) l -> insert_by key x l = x :: l.
Proof.
  destruct 1 as [|y l Hy _]; simpl; [done|].
  unfold dt_le in Hy. by rewrite Hy.
Qed.

Lemma filter_insert_by (x : A) (l : list A) :
  StronglySorted (key_le key) l ->
  filter P (insert_by key x l)
  = if decide (P x) then insert_by key x (filter P l) else filter P l.
Proof.
  induction 1 as [|y l Hs IH Hy]; simpl.
  - rewrite filter_cons, filter_nil. by destruct (decide (P x)).
  - destruct (dt_leb (key x) (key y)) eqn:E.
    + rewrite filter_cons. destruct (decide (P x)) as [HPx|HPx]; [|done].
      rewrite insert_by_head; [done|].
      apply Forall_forall. intros z [_ Hz]%list_elem_of_filter.
      apply elem_of_cons in Hz as [->|Hz]; [done|].
      eapply dt_le_trans; [exact E|]. by eapply Forall_forall in Hy.
    + rewrite !(filter_cons _ y), IH.
      destruct (decide (P y)) as [HPy|HPy]; [|done].
      destruct (decide (P x)) as [HPx|HPx]; [|done].
      simpl. by rewrite E.
Qed.

(** Sorting and filtering commute. *)
Lemma filter_sort_by (l : list A) :
  filter P (sort_by key l) = sort_by key (filter P l).
Proof.
  induction l as [|x l IH]; simpl; [done|].
  rewrite filter_insert_by by apply sort_by_sorted.
  rewrite filter_cons, IH. by destruct (decide (P x)).
Qed.

(** Two sorted lists with the same elements are equal when no two
    elements share a key. *)
Lemma sorted_unique (l1 l2 : list A) :
  (forall x y, x ∈ l1 -> y ∈ l1 -> key x = key y -> x = y) ->
  StronglySorted (key_le key) l1 -> StronglySorted (key_le key) l2 ->
  l1 ≡ₚ l2 -> l1 = l2.
Proof.
  intros Hinj Hs1. revert l2. induction Hs1 as [|x l1 Hs1 IH Hx]; intros l2 Hs2 Hp.
  - by apply Permutation_nil_l in Hp.
  - destruct Hs2 as [|y l2 Hs2 Hy].
    { by apply Permutation_nil_r in Hp. }
    assert (x = y) as <-.
    { assert (Hxy : key_le key x y).
      { assert (Hin : y ∈ x :: l1) by (rewrite Hp; apply list_elem_of_here).
        apply elem_of_cons in Hin as [->|Hin]; [apply dt_le_refl|].
        by eapply Forall_forall in Hx. }
      assert (Hyx : key_le key y x).
      { assert (Hin : x ∈ y :: l2) by (rewrite <- Hp; apply list_elem_of_here).
        apply elem_of_cons in Hin as [->|Hin]; [apply dt_le_refl|].
        by eapply Forall_forall in Hy. }
      apply Hinj; [apply list_elem_of_here|rewrite Hp; apply list_elem_of_here|].
      by apply dt_le_antisym. }
    f_equal. apply IH; [|done|by apply Permutation_cons_inv in Hp].
    intros a b Ha Hb. apply Hinj; by apply list_elem_of_further.
Qed.

Lemma sort_by_perm_eq (l1 l2 : list A) :
  NoDup (key <$> l1) -> l1 ≡ₚ l2 -> sort_by key l1 = sort_by key l2.
Proof.
  intros Hnd Hp. apply sorted_unique; [|apply sort_by_sorted..|].
  - intros x y Hx%elem_of_sort_by Hy%elem_of_sort_by Hk.
    apply list_elem_of_lookup in Hx as [i Hi], Hy as [j Hj].
    assert (i = j) as ->.
    { eapply NoDup_lookup; [exact Hnd|..]; rewrite list_lookup_fmap.
      - by rewrite Hi.
      - rewrite Hj. simpl. by rewrite Hk. }
    congruence.
  - by rewrite !sort_by_perm.
Qed.
End SortFilter.

Section Window.
Variables (loan_amount : Qc) (loan_years : Z) (first_pay_date : datetime)
          (initial_rate : Qc) (rate_changes : gmap datetime Qc)
          (repayment_type : string).

Local Abbreviation month_step :=
  (month_step loan_amount loan_years initial_rate rate_changes repayment_type).
Local Abbreviation while_loop :=
  (while_loop loan_amount loan_years initial_rate rate_changes repayment_type).
Local Abbreviation generate_repayment_schedule :=
  (generate_repayment_schedule loan_amount loan_years first_pay_date initial_rate
                               rate_changes repayment_type).

(** A pass reads the list of prepayments only through its window. *)
Lemma month_step_details (st : sim_state) (l : list prepayment) :
  window (current_date st) l = window (current_date st) (prepayment_details st) ->
  month_step (mkState (current_date st) (remaining_principal st) (schedule st)
                      (current_rate st) (month st) l)
  = month_step st.
Proof.
  intros Hw. unfold month_step, close_month. simpl. by rewrite Hw.
Qed.

Lemma while_loop_details (fuel : nat) (st : sim_state) (l : list prepayment) :
  window (current_date st) l = window (current_date st) (prepayment_details st) ->
  (st' ← while_loop fuel (mkState (current_date st) (remaining_principal st)
                                   (schedule st) (current_rate st) (month st) l);
   finalize loan_amount (schedule st'))
  = (st' ← while_loop fuel st; finalize loan_amount (schedule st')).
Proof.
  intros Hw. destruct fuel as [|fuel]; simpl.
  - unfold loop_cond. simpl. by destruct (_ && _).
  - unfold loop_cond. simpl. destruct (_ && _); [|done].
    by rewrite month_step_details.
Qed.

Lemma window_idemp (d : datetime) (l : list prepayment) :
  window d (window d l) = window d l.
Proof.
  unfold window. induction l as [|p l IH]; [done|].
  rewrite filter_cons. destruct (decide _) as [Hp|Hp]; [|done].
  rewrite filter_cons. destruct (decide _); [|done]. by rewrite IH.
Qed.

Lemma window_sort_by (d : datetime) (l : list prepayment) :
  window d (sort_by pdate l) = sort_by pdate (window d l).
Proof. apply filter_sort_by. Qed.

Lemma generate_window (prepayments : list prepayment) :
  generate_repayment_schedule prepayments
  = generate_repayment_schedule (window first_pay_date prepayments).
Proof.
  unfold generate_repayment_schedule, simulate.
  destruct (if String.eqb repayment_type "equal_payment" then _ else _); [|done].
  rewrite !bind_Ok. destruct (py_div _ _); [|done]. rewrite !bind_Ok.
  symmetry.
  apply (while_loop_details _ (init_state loan_amount first_pay_date initial_rate
                                          prepayments)).
  simpl. by rewrite !window_sort_by, window_idemp.
Qed.

End Window.

(** Property X5.
    Prepayments dated before the first day of the month of the first
    payment are never looked at: the result is the one for the list
    without them, and a list that holds only such entries gives the
    schedule of a loan without prepayments. *)
Theorem generate_ignores_early_prepayments
    loan_amount loan_years first_pay_date initial_rate
    (rate_changes : gmap datetime Qc) (repayment_type : string)
    (prepayments : list prepayment) :
  generate_repayment_schedule loan_amount loan_years first_pay_date initial_rate
                              rate_changes repayment_type prepayments
  = generate_repayment_schedule loan_amount loan_years first_pay_date initial_rate
      rate_changes repayment_type (window first_pay_date prepayments)
  /\ (Forall (fun p => dt_lt (pdate p) (month_start first_pay_date)) prepayments ->
      generate_repayment_schedule loan_amount loan_years first_pay_date initial_rate
                                  rate_changes repayment_type prepayments
      = generate_repayment_schedule loan_amount loan_years first_pay_date initial_rate
                                    rate_changes repayment_type []).
Proof.
  split; [apply generate_window|].
  intros Hearly. rewrite generate_window. f_equal.
  unfold window. induction Hearly as [|p l Hp _ IH]; [done|].
  rewrite filter_cons. destruct (decide _) as [Hle|_]; [|exact IH].
  exfalso. unfold dt_lt in Hp. unfold dt_leb in Hle. by rewrite Hp in Hle.
Qed.

(** Property X6.
    The order in which the prepayments are listed plays no role when
    their dates are pairwise different: the generator sorts them by date. *)
Theorem generate_order_independent
    loan_amount loan_years first_pay_date initial_rate
    (rate_changes : gmap datetime Qc) (repayment_type : string)
    (prepayments prepayments' : list prepayment) :
  NoDup (pdate <$> prepayments) ->
  prepayments ≡ₚ prepayments' ->
  generate_repayment_schedule loan_amount loan_years first_pay_date initial_rate
                              rate_changes repayment_type prepayments
  = generate_repayment_schedule loan_amount loan_years first_pay_date initial_rate
                                rate_changes repayment_type prepayments'.
Proof.
  intros Hnd Hp. unfold generate_repayment_schedule, simulate, init_state.
  by rewrite (sort_by_perm_eq pdate _ _ Hnd Hp).
Qed.

Lemma generate_order_independent_witness :
  let p1 := mkPrepay (mkdt 2023 1 5) (Some (num 100)) in
  let p2 := mkPrepay (mkdt 2022 11 20) (Some (num 200)) in
  generate_repayment_schedule (num 1200) 1 (mkdt 2022 9 12) (num 3) ∅
                              "equal_principal" [p1; p2]
  = generate_repayment_schedule (num 1200) 1 (mkdt 2022 9 12) (num 3) ∅
                                "equal_principal" [p2; p1].
Proof.
  intros p1 p2.
  apply (generate_order_independent (num 1200) 1 (mkdt 2022 9 12) (num 3) ∅
           "equal_principal" [p1; p2] [p2; p1]).
  - apply NoDup_cons. split.
    + intros Hin. apply list_elem_of_singleton in Hin. discriminate Hin.
    + apply NoDup_singleton.
  - apply perm_swap.
Defined.

(** ** Periods, kinds and dates of the rows *)

Lemma numbered_mono (m m' : Z) (s : list row) :
  (m <= m')%Z -> numbered m s -> numbered m' s.
Proof.
  intros Hm (Hper & Hord & Hlen). split; [|split; [done|lia]].
  eapply Forall_impl; [exact Hper|]. simpl. lia.
Qed.

Lemma numbered_app (m : Z) (s rows : list row) :
  (1 <= m)%Z -> numbered m s ->
  Forall (fun r => period r = m) rows ->
  (rows = []
   \/ (exists a, rows = [a] /\ kind a = Regular)
   \/ (exists a b, rows = [a; b] /\ kind a <> kind b)) ->
  numbered (m + 1) (s ++ rows).
Proof.
  intros Hm (Hper & Hord & Hlen) Hrows Hshape.
  assert (Hlr : (length rows <= 2)%nat).
  { destruct Hshape as [->|[(a & -> & _)|(a & b & -> & _)]]; simpl; lia. }
  split; [|split].
  - apply Forall_app. split.
    + eapply Forall_impl; [exact Hper|]. simpl. lia.
    + eapply Forall_impl; [exact Hrows|]. simpl. lia.
  - intros i j ri rj Hij Hi Hj.
    destruct (decide (j < length s)%nat) as [Hjs|Hjs].
    + rewrite lookup_app_l in Hi, Hj by lia. by apply (Hord i j).
    + rewrite lookup_app_r in Hj by lia.
      assert (Hpj : period rj = m).
      { eapply Forall_forall in Hrows; [exact Hrows|].
        by eapply list_elem_of_lookup_2. }
      destruct (decide (i < length s)%nat) as [His|His].
      * rewrite lookup_app_l in Hi by lia.
        assert (Hpi : (1 <= period ri < m)%Z).
        { eapply Forall_forall in Hper; [exact Hper|].
          by eapply list_elem_of_lookup_2. }
        lia.
      * rewrite lookup_app_r in Hi by lia.
        assert (Hpi : period ri = m).
        { eapply Forall_forall in Hrows; [exact Hrows|].
          by eapply list_elem_of_lookup_2. }
        split; [lia|]. intros _.
        destruct Hshape as [->|[(a & -> & _)|(a & b & -> & Hab)]].
        -- by rewrite lookup_nil in Hi.
        -- apply lookup_lt_Some in Hi, Hj. simpl in *. lia.
        -- pose proof (lookup_lt_Some _ _ _ Hi) as Hli.
           pose proof (lookup_lt_Some _ _ _ Hj) as Hlj. simpl in Hli, Hlj.
           replace (i - length s)%nat with 0%nat in Hi by lia.
           replace (j - length s)%nat with 1%nat in Hj by lia.
           simpl in Hi, Hj. congruence.
  - rewrite length_app. lia.
Qed.

Section Numbering.
Variables (loan_amount : Qc) (loan_years : Z) (first_pay_date : datetime)
          (initial_rate : Qc) (rate_changes : gmap datetime Qc)
          (repayment_type : string) (prepayments : list prepayment).

Local Abbreviation month_step :=
  (month_step loan_amount loan_years initial_rate rate_changes repayment_type).
Local Abbreviation simulate :=
  (simulate loan_amount loan_years first_pay_date initial_rate rate_changes repayment_type).
Local Abbreviation loop_cond := (loop_cond loan_years).
Local Abbreviation total_months := (total_months loan_years).
Local Abbreviation reachable :=
  (reachable loan_amount loan_years first_pay_date initial_rate rate_changes
             repayment_type prepayments).

Lemma pass_numbered (st : sim_state) (e : step_end) :
  (1 <= month st)%Z -> 0 < remaining_principal st ->
  numbered (month st) (schedule st) -> month_step st = Ok e ->
  numbered (month st + 1) (schedule (state_of e)).
Proof.
  intros Hm Hrem Hn E.
  destruct (month_step_extends _ _ _ _ _ _ _ Hrem E) as (rows & rem & Hp & ->).
  destruct (pass_rows_shape _ _ _ _ _ _ _ _ Hp) as [Hper Hshape].
  by apply numbered_app.
Qed.

Lemma reachable_numbered (st : sim_state) :
  reachable st -> numbered (month st) (schedule st).
Proof.
  induction 1 as [|st st' Hr IH Hc E].
  - simpl. split; [constructor|]. split; [|simpl; lia].
    intros i j ri rj _ Hi. by rewrite lookup_nil in Hi.
  - pose proof Hc as [Hrem Hm]%loop_cond_true.
    pose proof (reachable_month _ _ _ _ _ _ _ _ Hr) as H1.
    pose proof (pass_numbered st (Next st') H1 Hrem IH E) as Hn.
    apply month_step_next in E as [-> _]; [|done]. exact Hn.
Qed.

Lemma simulate_numbered (stf : sim_state) :
  simulate prepayments = Ok stf ->
  numbered (Z.max 1 (total_months + 1)) (schedule stf).
Proof.
  intros [[Hr _]|(st & Hr & Hc & E)]%simulate_exit.
  - eapply numbered_mono; [|by apply reachable_numbered].
    apply (reachable_month_bound _ _ _ _ _ _ _ _ Hr).
  - pose proof Hc as [Hrem Hm]%loop_cond_true.
    pose proof (reachable_month _ _ _ _ _ _ _ _ Hr) as H1.
    pose proof (pass_numbered st (Break stf) H1 Hrem (reachable_numbered st Hr) E) as Hn.
    eapply numbered_mono; [|exact Hn]. lia.
Qed.

(** Dates and periods advance together. *)
Lemma reachable_date (st : sim_state) :
  reachable st ->
  current_date st = Nat.iter (Z.to_nat (month st - 1)) add_month first_pay_date.
Proof.
  induction 1 as [|st st' Hr IH Hc E]; [done|].
  pose proof Hc as [Hrem Hm]%loop_cond_true.
  pose proof (reachable_month _ _ _ _ _ _ _ _ Hr) as H1.
  apply month_step_next in E as [-> ->]; [|done].
  replace (Z.to_nat (month st + 1 - 1)) with (S (Z.to_nat (month st - 1))) by lia.
  simpl. by rewrite IH.
Qed.

End Numbering.

(** Property X7.
    The rows of the returned table are numbered by period: a period lies
    between 1 and the number of months of the term, the periods do not
    decrease down the table, and a period has at most one Regular and at
    most one Prepayment row, so the table has at most two rows per month
    of the term. *)
Theorem table_periods
    loan_amount loan_years first_pay_date initial_rate
    (rate_changes : gmap datetime Qc) repayment_type prepayments
    (out : list out_row) :
  generate_repayment_schedule loan_amount loan_years first_pay_date initial_rate
                              rate_changes repayment_type prepayments = Ok out ->
  (Z.of_nat (length out) <= 2 * (loan_years * 12))%Z
  /\ (forall i o, out !! i = Some o -> (1 <= o_period o <= loan_years * 12)%Z)
  /\ (forall i j oi oj,
        (i < j)%nat -> out !! i = Some oi -> out !! j = Some oj ->
        (o_period oi <= o_period oj)%Z
        /\ (o_period oi = o_period oj -> o_kind oi <> o_kind oj)).
Proof.
  intros (stf & Hsim & Hf)%generate_Ok.
  destruct (simulate_numbered _ _ _ _ _ _ _ _ Hsim) as (Hper & Hord & Hlen).
  assert (Hrow : forall i o, out !! i = Some o ->
             exists r, schedule stf !! i = Some r
                       /\ o_period o = period r /\ o_kind o = kind r).
  { intros i o Ho.
    destruct (finalize_row _ _ _ _ _ Hf Ho) as (r & Hr & Hp & _ & Hk & _).
    by exists r. }
  assert (Hbound : forall i o, out !! i = Some o ->
             (1 <= o_period o <= loan_years * 12)%Z).
  { intros i o Ho. destruct (Hrow i o Ho) as (r & Hr & -> & _).
    eapply Forall_forall in Hper; [|by eapply list_elem_of_lookup_2].
    simpl in Hper. unfold total_months in Hper. lia. }
  split; [|split; [exact Hbound|]].
  - rewrite (finalize_length _ _ _ Hf).
    destruct out as [|o out'].
    { pose proof (finalize_length _ _ _ Hf) as Hl0. simpl in Hl0.
      destruct (schedule stf); [|done]. by rewrite finalize_empty in Hf. }
    pose proof (Hbound 0%nat o eq_refl). unfold total_months in Hlen. lia.
  - intros i j oi oj Hij Hi Hj.
    destruct (Hrow i oi Hi) as (ri & Hri & -> & ->).
    destruct (Hrow j oj Hj) as (rj & Hrj & -> & ->).
    by apply (Hord i j).
Qed.

Lemma table_periods_witness :
  exists out,
    generate_repayment_schedule (num 1200) 1 (mkdt 2022 9 12) (num 3) ∅
      "equal_principal" [mkPrepay (mkdt 2022 11 12) (Some (num 500))] = Ok out
    /\ (Z.of_nat (length out) <= 2 * (1 * 12))%Z
    /\ (forall i o, out !! i = Some o -> (1 <= o_period o <= 1 * 12)%Z).
Proof.
  destruct (generate_repayment_schedule (num 1200) 1 (mkdt 2022 9 12) (num 3) ∅
              "equal_principal" [mkPrepay (mkdt 2022 11 12) (Some (num 500))])
    as [out|x] eqn:E; [|vm_compute in E; discriminate E].
  destruct (table_periods (num 1200) 1%Z (mkdt 2022 9 12) (num 3) ∅ "equal_principal"
              [mkPrepay (mkdt 2022 11 12) (Some (num 500))] out E) as (Hlen & Hper & _).
  exists out. split; [reflexivity|]. split; [exact Hlen|exact Hper].
Defined.

(** [relativedelta(months=+1)] applied [k] times: the month index grows
    by [k]; the day of the month never grows, never drops below the 28th
    and is kept when it is at most 28. *)
Lemma iter_add_month (d : datetime) (k : nat) :
  (1 <= month_of d <= 12)%Z ->
  let dk := Nat.iter k add_month d in
  (12 * year dk + month_of dk = 12 * year d + month_of d + Z.of_nat k)%Z
  /\ (1 <= month_of dk <= 12)%Z
  /\ (Z.min (day d) 28 <= day dk <= day d)%Z.
Proof.
  intros Hm. induction k as [|k IH]; simpl; [lia|].
  destruct IH as (Hidx & Hmk & Hday).
  set (dk := Nat.iter k add_month d) in *.
  unfold add_month.
  destruct (12 <? month_of dk + 1)%Z eqn:E; simpl.
  - apply Z.ltb_lt in E.
    pose proof (days_in_month_pos (year dk + 1) (month_of dk + 1 - 12)). lia.
  - apply Z.ltb_ge in E.
    pose proof (days_in_month_pos (year dk) (month_of dk + 1)). lia.
Qed.

(** Property X8.
    The Regular row of period [k] is dated [k - 1] months after the first
    payment date, in the sense of [relativedelta]: the month advances by
    one per period; the day is the day of the first payment when that is
    at most the 28th, and otherwise a day between the 28th and it (a
    short month clips the day for all later periods). *)
Theorem regular_rows_dates
    loan_amount loan_years first_pay_date initial_rate
    (rate_changes : gmap datetime Qc) repayment_type prepayments
    (out : list out_row) (i : nat) (o : out_row) :
  generate_repayment_schedule loan_amount loan_years first_pay_date initial_rate
                              rate_changes repayment_type prepayments = Ok out ->
  out !! i = Some o -> o_kind o = Regular ->
  o_date o = Nat.iter (Z.to_nat (o_period o - 1)) add_month first_pay_date
  /\ ((1 <= month_of first_pay_date <= 12)%Z ->
      (12 * year (o_date o) + month_of (o_date o)
       = 12 * year first_pay_date + month_of first_pay_date + (o_period o - 1))%Z
      /\ (1 <= month_of (o_date o) <= 12)%Z
      /\ (Z.min (day first_pay_date) 28 <= day (o_date o) <= day first_pay_date)%Z).
Proof.
  intros (stf & Hsim & Hf)%generate_Ok Ho Hk.
  destruct (finalize_row _ _ _ _ _ Hf Ho) as (r & Hr & Hper & Hdate & Hkind & _).
  rewrite Hkind in Hk.
  destruct (simulate_regular_row _ _ _ _ _ _ _ _ _ Hsim
              (list_elem_of_lookup_2 _ _ _ Hr) Hk)
    as (st & _ & _ & Hreach & Hm & Hd & _).
  pose proof (reachable_date _ _ _ _ _ _ _ _ Hreach) as Hcur.
  pose proof (reachable_month _ _ _ _ _ _ _ _ Hreach) as H1.
  assert (Hod : o_date o
                = Nat.iter (Z.to_nat (o_period o - 1)) add_month first_pay_date)
    by congruence.
  split; [exact Hod|]. intros Hmf.
  destruct (iter_add_month first_pay_date (Z.to_nat (o_period o - 1)) Hmf)
    as (Hidx & Hmk & Hday).
  rewrite <- Hod in Hidx, Hmk, Hday.
  assert (1 <= o_period o)%Z by congruence. lia.
Qed.

Lemma regular_rows_dates_witness :
  exists out o,
    generate_repayment_schedule (num 1200) 1 (mkdt 2022 1 31) (num 3) ∅
                                "equal_principal" [] = Ok out
    /\ out !! 3%nat = Some o
    /\ o_date o = mkdt 2022 4 28
    /\ o_date o = Nat.iter (Z.to_nat (o_period o - 1)) add_month (mkdt 2022 1 31).
Proof.
  destruct (generate_repayment_schedule (num 1200) 1 (mkdt 2022 1 31) (num 3) ∅
              "equal_principal" []) as [out|x] eqn:E; [|vm_compute in E; discriminate E].
  assert (Hout : out = match generate_repayment_schedule (num 1200) 1 (mkdt 2022 1 31)
                               (num 3) ∅ "equal_principal" [] with
                       | Ok t => t
                       | Raise _ => []
                       end) by (by rewrite E).
  destruct (out !! 3%nat) as [o|] eqn:Ho;
    [|rewrite Hout in Ho; vm_compute in Ho; discriminate Ho].
  assert (Hk : o_kind o = Regular).
  { rewrite Hout in Ho. vm_compute in Ho. injection Ho as <-. reflexivity. }
  assert (Hd : o_date o = mkdt 2022 4 28).
  { rewrite Hout in Ho. vm_compute in Ho. injection Ho as <-. reflexivity. }
  exists out, o. split; [reflexivity|]. split; [exact Ho|]. split; [exact Hd|].
  exact (proj1 (regular_rows_dates (num 1200) 1%Z (mkdt 2022 1 31) (num 3) ∅
                  "equal_principal" [] out 3%nat o E Ho Hk)).
Defined.

(** ** Prepayment rows *)

Lemma first_live_Some (cur_date : datetime) (l : list prepayment) (p : prepayment) :
  first_live cur_date l = Some p -> void cur_date p = false.
Proof.
  induction l as [|q l IH]; simpl; [done|].
  destruct (void cur_date q) eqn:E; [done|]. by intros [= <-].
Qed.

(** Every Prepayment row of the ledger was written for a prepayment of
    the input that has a positive amount and falls in the month of the
    payment date of the row's period. *)
Lemma simulate_prepayment_row loan_amount loan_years first_pay_date initial_rate
    (rate_changes : gmap datetime Qc) repayment_type prepayments
    (stf : sim_state) (r : row) :
  simulate loan_amount loan_years first_pay_date initial_rate rate_changes
           repayment_type prepayments = Ok stf ->
  r ∈ schedule stf -> kind r = Prepayment ->
  exists st p,
    reachable loan_amount loan_years first_pay_date initial_rate rate_changes
              repayment_type prepayments st
    /\ month st = period r
    /\ p ∈ prepayments
    /\ in_month (current_date st) p = true
    /\ 0 < get_amount p
    /\ pay_date r = pdate p
    /\ principal r = get_amount p.
Proof.
  intros Hsim Hin Hk.
  destruct (final_emitted _ _ _ _ _ _ _ _ (simulate_final _ _ _ _ _ _ _ _ Hsim) r Hin)
    as (st & rows & rem & Hreach & Hc & Hp & Hr).
  assert (Hlive : forall p, first_live (current_date st) (pass_pending st) = Some p ->
                            in_month (current_date st) p = true ->
                            p ∈ prepayments /\ 0 < get_amount p).
  { intros p Hl Hm. split.
    - eapply pass_pending_subset; [exact Hreach|]. by eapply first_live_elem.
    - apply first_live_Some in Hl. unfold void in Hl. rewrite Hm in Hl. simpl in Hl.
      apply negb_false_iff in Hl. by apply Qc_ltb_lt. }
  exists st.
  destruct Hp as [i pp Hpay Hwhy|p i pp Hl Hm Hlt Hpay|p i pp Hl Hm Hlt Hpay|Hne Hnone].
  - apply list_elem_of_singleton in Hr as ->. done.
  - destruct (Hlive p Hl Hm) as [Hp Ha].
    apply elem_of_cons in Hr as [->|Hr]; [by exists p|].
    apply list_elem_of_singleton in Hr as ->. done.
  - destruct (Hlive p Hl Hm) as [Hp Ha].
    apply elem_of_cons in Hr as [->|Hr]; [done|].
    apply list_elem_of_singleton in Hr as ->. by exists p.
  - by apply elem_of_nil in Hr.
Qed.

(** Property X9.
    Every Prepayment row of the table stems from a prepayment of the
    input with a positive amount, dated in the month of the payment date
    of the row's period.  The row carries the date of the prepayment and,
    unless it is the last row of the table, its amount in full: the amount
    is never capped by the balance. *)
Theorem prepayment_rows_sound
    loan_amount loan_years first_pay_date initial_rate
    (rate_changes : gmap datetime Qc) repayment_type prepayments
    (out : list out_row) (i : nat) (o : out_row) :
  generate_repayment_schedule loan_amount loan_years first_pay_date initial_rate
                              rate_changes repayment_type prepayments = Ok out ->
  out !! i = Some o -> o_kind o = Prepayment ->
  exists p,
    p ∈ prepayments
    /\ 0 < get_amount p
    /\ o_date o = pdate p
    /\ in_month (Nat.iter (Z.to_nat (o_period o - 1)) add_month first_pay_date) p = true
    /\ ((S i < length out)%nat -> o_principal o = round_dec 2 (get_amount p)).
Proof.
  intros (stf & Hsim & Hf)%generate_Ok Ho Hk.
  destruct (finalize_row _ _ _ _ _ Hf Ho) as (r & Hr & Hper & Hdate & Hkind & _ & Hinner).
  rewrite Hkind in Hk.
  destruct (simulate_prepayment_row _ _ _ _ _ _ _ _ _ Hsim
              (list_elem_of_lookup_2 _ _ _ Hr) Hk)
    as (st & p & Hreach & Hm & Hp & Hin & Ha & Hd & Hpr).
  exists p. rewrite Hper, Hdate, <- Hm, <- (reachable_date _ _ _ _ _ _ _ _ Hreach).
  repeat split; try done.
  intros Hi. destruct (Hinner Hi) as [-> _]. by rewrite Hpr.
Qed.

Lemma prepayment_rows_sound_witness :
  exists out o p,
    generate_repayment_schedule (num 1200) 1 (mkdt 2022 9 12) (num 3) ∅
      "equal_principal" [mkPrepay (mkdt 2022 11 12) (Some (num 500))] = Ok out
    /\ out !! 3%nat = Some o
    /\ p ∈ [mkPrepay (mkdt 2022 11 12) (Some (num 500))]
    /\ o_date o = pdate p
    /\ o_principal o = round_dec 2 (get_amount p).
Proof.
  destruct (generate_repayment_schedule (num 1200) 1 (mkdt 2022 9 12) (num 3) ∅
              "equal_principal" [mkPrepay (mkdt 2022 11 12) (Some (num 500))])
    as [out|x] eqn:E; [|vm_compute in E; discriminate E].
  assert (Hout : out = match generate_repayment_schedule (num 1200) 1 (mkdt 2022 9 12)
                               (num 3) ∅ "equal_principal"
                               [mkPrepay (mkdt 2022 11 12) (Some (num 500))] with
                       | Ok t => t
                       | Raise _ => []
                       end) by (by rewrite E).
  destruct (out !! 3%nat) as [o|] eqn:Ho;
    [|rewrite Hout in Ho; vm_compute in Ho; discriminate Ho].
  assert (Hk : o_kind o = Prepayment).
  { rewrite Hout in Ho. vm_compute in Ho. injection Ho as <-. reflexivity. }
  assert (Hlen : (4 < length out)%nat) by (rewrite Hout; vm_compute; lia).
  destruct (prepayment_rows_sound (num 1200) 1%Z (mkdt 2022 9 12) (num 3) ∅
              "equal_principal" [mkPrepay (mkdt 2022 11 12) (Some (num 500))]
              out 3%nat o E Ho Hk) as (p & Hp & _ & Hd & _ & Hpr).
  exists out, o, p. split; [reflexivity|]. split; [exact Ho|].
  split; [exact Hp|]. split; [exact Hd|]. apply Hpr. lia.
Defined.

(** ** What the table is computed from *)

Section Finalizer.
Variable loan_amount : Qc.

Local Abbreviation same_balance :=
  (fun a b : row => same_payments a b /\ remaining a = remaining b).

Lemma accumulate_same (tp ti : Qc) (s1 s2 : list row) :
  Forall2 same_payments s1 s2 ->
  Forall2 same_payments (accumulate tp ti s1) (accumulate tp ti s2).
Proof.
  intros H. revert tp ti.
  induction H as [|a b s1 s2 (Hp & Hd & Hk & Hpr & Hi) _ IH]; intros tp ti; simpl;
    [constructor|].
  rewrite Hpr, Hi. constructor; [|apply IH]. by repeat split.
Qed.

Lemma accumulate_last_remaining (tp ti : Qc) (s : list row) :
  remaining <$> last (accumulate tp ti s) = remaining <$> last s.
Proof.
  revert tp ti. induction s as [|r s IH]; intros tp ti; simpl accumulate; [done|].
  rewrite !last_cons. specialize (IH (tp + principal r) (ti + interest r)).
  destruct (last (accumulate _ _ s)), (last s); simpl in *; congruence.
Qed.

Lemma adjust_last_same (s1 s2 : list row) :
  Forall2 same_payments s1 s2 ->
  remaining <$> last s1 = remaining <$> last s2 ->
  Forall2 same_payments (adjust_last loan_amount s1) (adjust_last loan_amount s2).
Proof.
  intros H Hlast. unfold adjust_last.
  pose proof (Forall2_length _ _ _ H) as Hlen.
  destruct (last s1) as [l1|] eqn:E1, (last s2) as [l2|] eqn:E2; simpl in Hlast;
    try done.
  injection Hlast as Hrem. rewrite Hrem.
  destruct (Qc_ltb tolerance (Qc_abs (remaining l2))); [|done].
  rewrite Hlen. apply Forall2_alter; [done|].
  intros x y Hx Hy (Hp & Hd & Hk & Hpr & Hi).
  rewrite last_lookup in E1, E2.
  assert (x = l1) as ->.
  { replace (pred (length s1)) with (length s2 - 1)%nat in E1 by lia. congruence. }
  assert (y = l2) as ->.
  { replace (pred (length s2)) with (length s2 - 1)%nat in E2 by lia. congruence. }
  unfold adjust_row, same_payments. simpl. rewrite Hpr, Hrem. by repeat split.
Qed.

Lemma frame_from_same (acc_p acc_i : Qc) (s1 s2 : list row) :
  Forall2 same_payments s1 s2 ->
  frame_from loan_amount acc_p acc_i s1 = frame_from loan_amount acc_p acc_i s2.
Proof.
  intros H. revert acc_p acc_i.
  induction H as [|a b s1 s2 (Hp & Hd & Hk & Hpr & Hi) _ IH]; intros acc_p acc_i; simpl;
    [done|].
  rewrite IH, Hpr, Hi. f_equal. unfold frame_row. by rewrite Hp, Hd, Hk, Hpr, Hi.
Qed.

End Finalizer.

(** Property X10.
    The table is computed from the period, date, kind, principal and
    interest of the ledger rows, and from the balance recorded on the last
    row only.  The balances the simulator records on the other rows, and
    the total payment and the cumulative totals that the retroactive
    prepayment edit writes, never reach the table: the finalizer
    recomputes these columns. *)
Theorem finalize_reads_payments (loan_amount : Qc) (s1 s2 : list row) :
  Forall2 same_payments s1 s2 ->
  remaining <$> last s1 = remaining <$> last s2 ->
  finalize loan_amount s1 = finalize loan_amount s2.
Proof.
  intros H Hlast.
  assert (Hl : Forall2 same_payments (ledger loan_amount s1) (ledger loan_amount s2)).
  { unfold ledger. apply adjust_last_same; [by apply accumulate_same|].
    by rewrite !accumulate_last_remaining. }
  unfold finalize, build_frame. rewrite (frame_from_same loan_amount 0 0 _ _ Hl).
  by destruct Hl.
Qed.

Lemma finalize_reads_payments_witness :
  let r := regular_row 1 (mkdt 2022 9 12) (num 100) (num 3) (num 1200) in
  let p := prepay_row 1 (mkdt 2022 9 20) (num 500) (Q2Qc (1 # 10)) (num 600) in
  finalize (num 1200) [retro_edit (num 1200) (num 600) (num 500) (Q2Qc (1 # 10)) r; p]
  = finalize (num 1200)
      [mkRow 1 (mkdt 2022 9 12) Regular (num 100 - num 500) (num 3) 0 None None None; p].
Proof.
  intros r p.
  apply (finalize_reads_payments (num 1200)
           [retro_edit (num 1200) (num 600) (num 500) (Q2Qc (1 # 10)) r; p]
           [mkRow 1 (mkdt 2022 9 12) Regular (num 100 - num 500) (num 3) 0 None None None;
            p]).
  - repeat constructor.
  - reflexivity.
Defined.

(** ** Rounding of the displayed amounts *)

(** Rounding a sum and summing the rounded terms differ by at most one
    unit of the last place. *)
Lemma round_half_even_add (x y : Qc) :
  (-1 <= round_half_even (x + y) - (round_half_even x + round_half_even y) <= 1)%Z.
Proof.
  destruct (round_half_even_near x) as [Hx1 Hx2].
  destruct (round_half_even_near y) as [Hy1 Hy2].
  destruct (round_half_even_near (x + y)) as [Hs1 Hs2].
  rewrite this_plus in Hs1, Hs2.
  set (a := round_half_even x) in *. set (b := round_half_even y) in *.
  set (c := round_half_even (x + y)) in *.
  assert (H1 : (inject_Z (c - (a + b)) < inject_Z 2)%Q).
  { unfold Z.sub. rewrite !inject_Z_plus, inject_Z_opp, inject_Z_plus.
    change (inject_Z 2) with 2%Q. lra. }
  assert (H2 : (inject_Z (-2) < inject_Z (c - (a + b)))%Q).
  { unfold Z.sub. rewrite !inject_Z_plus, inject_Z_opp, inject_Z_plus.
    change (inject_Z (-2)) with (-2)%Q. lra. }
  rewrite <- Zlt_Qlt in H1, H2. lia.
Qed.

Lemma round_dec_2_add (x y : Qc) :
  - cent ≤ round_dec 2 (x + y) - (round_dec 2 x + round_dec 2 y)
  /\ round_dec 2 (x + y) - (round_dec 2 x + round_dec 2 y) ≤ cent.
Proof.
  unfold round_dec. rewrite Qcmult_plus_distr_l.
  pose proof (round_half_even_add (x * num (10 ^ 2)) (y * num (10 ^ 2))) as H.
  set (a := round_half_even (x * num (10 ^ 2))) in *.
  set (b := round_half_even (y * num (10 ^ 2))) in *.
  set (c := round_half_even (x * num (10 ^ 2) + y * num (10 ^ 2))) in *.
  assert (Hc : c = (a + b + (c - (a + b)))%Z) by lia.
  set (z := (c - (a + b))%Z) in *. rewrite Hc.
  assert (Heq : num (a + b + z) / num (10 ^ 2) - (num a / num (10 ^ 2) + num b / num (10 ^ 2))
                = num z / num (10 ^ 2)).
  { unfold num. rewrite !Z2Qc_inj_add. field. by intros H0%num_eq_0. }
  rewrite Heq.
  assert (Hz : z = (-1)%Z \/ z = 0%Z \/ z = 1%Z) by lia.
  destruct Hz as [->|[->| ->]]; split; by vm_compute.
Qed.

(** Property X11.
    In every row of the table the displayed total payment and the sum of
    the displayed principal and interest differ by at most one cent: the
    three amounts are rounded separately. *)
Theorem table_total_payment
    loan_amount loan_years first_pay_date initial_rate
    (rate_changes : gmap datetime Qc) repayment_type prepayments
    (out : list out_row) (i : nat) (o : out_row) :
  generate_repayment_schedule loan_amount loan_years first_pay_date initial_rate
                              rate_changes repayment_type prepayments = Ok out ->
  out !! i = Some o ->
  - cent ≤ o_total_payment o - (o_principal o + o_interest o)
  /\ o_total_payment o - (o_principal o + o_interest o) ≤ cent.
Proof.
  intros (stf & Hsim & Hf)%generate_Ok Ho.
  destruct (finalize_lookup _ _ _ _ _ Hf Ho) as (r & _ & ->). simpl.
  apply round_dec_2_add.
Qed.

Lemma table_total_payment_witness :
  exists out o,
    generate_repayment_schedule (num 400000) 30 (mkdt 2022 9 12) (Q2Qc (325 # 100)) ∅
                                "equal_principal" [] = Ok out
    /\ out !! 0%nat = Some o
    /\ - cent ≤ o_total_payment o - (o_principal o + o_interest o)
    /\ o_total_payment o - (o_principal o + o_interest o) ≤ cent.
Proof.
  destruct (generate_repayment_schedule (num 400000) 30 (mkdt 2022 9 12)
              (Q2Qc (325 # 100)) ∅ "equal_principal" [])
    as [out|x] eqn:E; [|vm_compute in E; discriminate E].
  assert (Hout : out = match generate_repayment_schedule (num 400000) 30 (mkdt 2022 9 12)
                               (Q2Qc (325 # 100)) ∅ "equal_principal" [] with
                       | Ok t => t
                       | Raise _ => []
                       end) by (by rewrite E).
  destruct (out !! 0%nat) as [o|] eqn:Ho;
    [|rewrite Hout in Ho; vm_compute in Ho; discriminate Ho].
  exists out, o. split; [reflexivity|]. split; [exact Ho|].
  exact (table_total_payment (num 400000) 30%Z (mkdt 2022 9 12) (Q2Qc (325 # 100)) ∅
           "equal_principal" [] out 0%nat o E Ho).
Defined.

(** ** A loan without prepayments, equal-principal method *)

Lemma num_0 : num 0 = 0.
Proof. apply Z2Qc_inj_0. Qed.

Lemma num_1 : num 1 = 1.
Proof. apply Z2Qc_inj_1. Qed.

Lemma num_add (a b : Z) : num (a + b) = num a + num b.
Proof. apply Z2Qc_inj_add. Qed.

Lemma paid_principal_const (l : list row) (mp : Qc) :
  Forall (fun r => principal r = mp) l ->
  paid_principal l = num (Z.of_nat (length l)) * mp.
Proof.
  induction l as [|r l IH] using rev_ind; intros H.
  - change (0 = num 0 * mp). rewrite num_0. ring.
  - apply Forall_app in H as [Hl Hr]. rewrite Forall_singleton in Hr.
    rewrite paid_principal_snoc, (IH Hl), Hr.
    rewrite length_app. simpl.
    replace (Z.of_nat (length l + 1)) with (Z.of_nat (length l) + 1)%Z by lia.
    rewrite num_add, num_1. ring.
Qed.

Lemma adjust_last_settled (loan_amount : Qc) (s : list row) :
  (forall r, last s = Some r -> remaining r = 0) -> adjust_last loan_amount s = s.
Proof.
  intros H. unfold adjust_last. destruct (last s) as [r|]; [|done].
  by rewrite (H r eq_refl).
Qed.

Section EqualPrincipal.
Variables (loan_amount : Qc) (loan_years : Z) (first_pay_date : datetime)
          (initial_rate : Qc) (rate_changes : gmap datetime Qc).

Local Abbreviation month_step :=
  (month_step loan_amount loan_years initial_rate rate_changes "equal_principal").
Local Abbreviation simulate :=
  (simulate loan_amount loan_years first_pay_date initial_rate rate_changes
            "equal_principal").
Local Abbreviation loop_cond := (loop_cond loan_years).
Local Abbreviation total_months := (total_months loan_years).
Local Abbreviation monthly_principal := (monthly_principal loan_amount loan_years).
Local Abbreviation reachable :=
  (reachable loan_amount loan_years first_pay_date initial_rate rate_changes
             "equal_principal" []).

Hypothesis loan_positive : 0 < loan_amount.
Hypothesis term_positive : (0 < loan_years)%Z.

Lemma months_principal : num total_months * monthly_principal = loan_amount.
Proof.
  unfold monthly_principal. field. intros H%num_eq_0. unfold total_months in H. lia.
Qed.

(** Without prepayments every pass pays the monthly principal. *)
Lemma month_step_plain (st : sim_state) :
  0 < remaining_principal st -> prepayment_details st = [] ->
  month_step st
  = Ok (close_month st (pass_rate rate_changes st) []
          (remaining_principal st - monthly_principal)
          (schedule st
           ++ [regular_row (month st) (current_date st) monthly_principal
                           (remaining_principal st
                            * (pass_rate rate_changes st / num 100 / num 12))
                           (remaining_principal st)])).
Proof.
  intros Hrem Hd. rewrite month_step_eq by done. unfold month_step_closed.
  rewrite Hd. unfold window. rewrite filter_nil.
  rewrite regular_payment_equal_principal, bind_Ok. done.
Qed.

(** After [k] passes the balance is the loan less [k] monthly
    principals, and the ledger holds one Regular row per period. *)
Lemma reachable_plain (st : sim_state) :
  reachable st ->
  prepayment_details st = []
  /\ 0 < remaining_principal st
  /\ remaining_principal st = loan_amount - num (month st - 1) * monthly_principal
  /\ Z.of_nat (length (schedule st)) = (month st - 1)%Z
  /\ Forall (fun r => kind r = Regular /\ principal r = monthly_principal) (schedule st)
  /\ (forall i r, schedule st !! i = Some r -> period r = (Z.of_nat i + 1)%Z).
Proof.
  induction 1 as [|st st' Hr (Hd & Hrem & Hbal & Hlen & Hrows & Hper) Hc E].
  - simpl. split; [done|]. split; [done|]. split; [|split; [done|split]].
    + change (loan_amount = loan_amount - num 0 * monthly_principal).
      rewrite num_0. ring.
    + constructor.
    + intros i r Hi. by rewrite lookup_nil in Hi.
  - rewrite month_step_plain in E by done. injection E as E.
    apply close_month_next in E as (_ & Hm & _ & Hd' & Hs & Hr' & Hcent).
    rewrite Hd', Hs, Hr', Hm. split; [done|]. split; [|split; [|split; [|split]]].
    + eapply Qclt_trans; [|exact Hcent]. reflexivity.
    + rewrite Hbal. replace (month st + 1 - 1)%Z with (month st - 1 + 1)%Z by lia.
      rewrite num_add, num_1. ring.
    + rewrite length_app. simpl. lia.
    + apply Forall_app. split; [done|]. by repeat constructor.
    + intros i r Hi. apply lookup_app_Some in Hi as [Hi|[Hge Hi]]; [by apply Hper|].
      apply list_lookup_singleton_Some in Hi as [Hi <-]. simpl. lia.
Qed.

Hypothesis principal_above_cent : cent < monthly_principal.

(** The loop ends with the pass of the last period of the term, which
    brings the balance to zero. *)
Lemma simulate_plain (stf : sim_state) :
  simulate [] = Ok stf ->
  remaining_principal stf = 0
  /\ Z.of_nat (length (schedule stf)) = total_months
  /\ Forall (fun r => kind r = Regular /\ principal r = monthly_principal) (schedule stf)
  /\ (forall i r, schedule stf !! i = Some r -> period r = (Z.of_nat i + 1)%Z)
  /\ (forall r, last (schedule stf) = Some r -> remaining r = 0).
Proof.
  intros [[Hr Hc]|(st & Hr & Hc & E)]%simulate_exit.
  - exfalso.
    destruct (reachable_plain stf Hr) as (_ & Hrem & Hbal & _).
    pose proof (reachable_month_bound _ _ _ _ _ _ _ _ Hr) as Hm.
    apply not_true_iff_false in Hc. rewrite loop_cond_true in Hc.
    assert (Hmn : month stf = (total_months + 1)%Z).
    { destruct (Z_le_gt_dec (month stf) total_months) as [Hle|Hgt]; [by destruct Hc|].
      unfold total_months in *. lia. }
    rewrite Hmn in Hbal. replace (total_months + 1 - 1)%Z with total_months in Hbal by lia.
    rewrite months_principal in Hbal.
    replace (loan_amount - loan_amount) with (0 : Qc) in Hbal by ring.
    rewrite Hbal in Hrem. by apply Qclt_not_eq in Hrem.
  - destruct (reachable_plain st Hr) as (Hd & Hrem & Hbal & Hlen & Hrows & Hper).
    pose proof Hc as [_ Hm]%loop_cond_true.
    rewrite month_step_plain in E by done. injection E as E.
    apply close_month_break in E as (Hs & Hle & H0).
    pose proof months_principal as Hloan. symmetry in Hloan.
    pose proof principal_above_cent as Hmp.
    set (mp := monthly_principal) in *.
    assert (Hmn : month st = total_months).
    { destruct (Z.eq_dec (month st) total_months) as [|Hne]; [done|]. exfalso.
      assert (Hk : (1 <= total_months - month st)%Z) by lia.
      assert (Hge : mp ≤ remaining_principal st - mp).
      { rewrite Hbal, Hloan.
        replace (num total_months * mp - num (month st - 1) * mp - mp)
          with (num (total_months - month st) * mp).
        2:{ replace total_months with ((total_months - month st) + (month st - 1) + 1)%Z
              at 2 by lia.
            rewrite !num_add, num_1. ring. }
        rewrite <- (Qcmult_1_l mp) at 1.
        apply Qcmult_le_compat_r.
        - rewrite <- num_1. unfold num. by apply (proj1 (Z2Qc_inj_le _ _)).
        - apply Qclt_le_weak. eapply Qclt_trans; [|exact Hmp]. reflexivity. }
      apply (Qcle_not_lt _ _ Hle).
      eapply Qclt_le_trans; [exact Hmp|exact Hge]. }
    assert (Hzero : remaining_principal st - mp = 0).
    { rewrite Hbal, Hmn, Hloan.
      replace total_months with ((total_months - 1) + 1)%Z at 1 by lia.
      rewrite num_add, num_1. ring. }
    rewrite Hs. split; [|split; [|split; [|split]]].
    + exact H0.
    + rewrite length_app. simpl. lia.
    + apply Forall_app. split; [done|]. by repeat constructor.
    + intros i r Hi. apply lookup_app_Some in Hi as [Hi|[Hge Hi]]; [by apply Hper|].
      apply list_lookup_singleton_Some in Hi as [Hi <-]. simpl. lia.
    + intros r. rewrite last_snoc. by intros [= <-].
Qed.

End EqualPrincipal.



(** ** The total of the principal column *)

Lemma paid_principal_from (a : Qc) (l : list row) :
  foldl (fun acc r => acc + principal r) a l = a + paid_principal l.
Proof.
  unfold paid_principal. revert a. induction l as [|r l IH]; intros a; simpl; [ring|].
  rewrite (IH (a + principal r)), (IH (0 + principal r)). ring.
Qed.

Lemma paid_principal_app (l k : list row) :
  paid_principal (l ++ k) = paid_principal l + paid_principal k.
Proof.
  unfold paid_principal at 1. rewrite foldl_app. fold (paid_principal l).
  apply paid_principal_from.
Qed.

Lemma paid_principal_accumulate (tp ti : Qc) (s : list row) :
  paid_principal (accumulate tp ti s) = paid_principal s.
Proof.
  unfold paid_principal. generalize (0 : Qc). revert tp ti.
  induction s as [|r s IH]; intros tp ti a; simpl; [done|]. apply IH.
Qed.

Lemma late_prepaid_from_app (prev : option row) (s t : list row) :
  late_prepaid_from prev (s ++ t)
  = late_prepaid_from prev s
    + late_prepaid_from (match last s with Some l => Some l | None => prev end) t.
Proof.
  revert prev. induction s as [|r s IH]; intros prev; simpl.
  - ring.
  - rewrite IH, last_cons. destruct (last s); ring.
Qed.

Section Balance.
Variables (loan_amount : Qc) (loan_years : Z) (first_pay_date : datetime)
          (initial_rate : Qc) (rate_changes : gmap datetime Qc)
          (repayment_type : string) (prepayments : list prepayment).

Local Abbreviation month_step :=
  (month_step loan_amount loan_years initial_rate rate_changes repayment_type).
Local Abbreviation simulate :=
  (simulate loan_amount loan_years first_pay_date initial_rate rate_changes repayment_type).
Local Abbreviation loop_cond := (loop_cond loan_years).
Local Abbreviation pass :=
  (pass loan_amount loan_years initial_rate rate_changes repayment_type).
Local Abbreviation reachable :=
  (reachable loan_amount loan_years first_pay_date initial_rate rate_changes
             repayment_type prepayments).

(** What a pass adds to the principal column and what it takes off the
    balance differ by the prepayment made after the regular payment. *)
Lemma pass_balance (st : sim_state) (rows : list row) (rem : Qc) :
  pass st rows rem ->
  (forall l, last (schedule st) = Some l -> (period l < month st)%Z) ->
  paid_principal rows + late_prepaid_from (last (schedule st)) rows
  = remaining_principal st - rem
  /\ (forall l, last rows = Some l -> remaining l = rem)
  /\ (rows = [] -> rem = remaining_principal st).
Proof.
  intros Hp Hlast.
  assert (Hprev : forall r, period r = month st ->
             late_pair (last (schedule st)) r = false).
  { intros r Hr. unfold late_pair. destruct (last (schedule st)) as [q|] eqn:E; [|done].
    specialize (Hlast q eq_refl).
    replace (period q =? period r)%Z with false; [by rewrite andb_false_r|].
    symmetry. apply Z.eqb_neq. lia. }
  destruct Hp as [i pp Hpay Hwhy|p i pp Hl Hm Hlt Hpay|p i pp Hl Hm Hlt Hpay|Hne Hnone].
  - split; [|split; [|done]].
    + unfold paid_principal. simpl. rewrite Hprev by done. ring.
    + by intros l [= <-].
  - split; [|split; [|done]].
    + unfold paid_principal. simpl. rewrite Hprev by done. ring.
    + by intros l [= <-].
  - split; [|split; [|done]].
    + unfold paid_principal. simpl. rewrite Hprev by done.
      rewrite Z.eqb_refl. simpl. ring.
    + by intros l [= <-].
  - split; [|split; [done|done]].
    unfold paid_principal. simpl. ring.
Qed.

Lemma reachable_balance (st : sim_state) :
  reachable st ->
  paid_principal (schedule st)
  = loan_amount - remaining_principal st - late_prepaid (schedule st)
  /\ (forall l, last (schedule st) = Some l -> remaining l = remaining_principal st).
Proof.
  induction 1 as [|st st' Hr [IH1 IH2] Hc E].
  - simpl. split; [|done]. unfold paid_principal, late_prepaid. simpl. ring.
  - pose proof Hc as [Hrem _]%loop_cond_true.
    assert (Hlast : forall l, last (schedule st) = Some l -> (period l < month st)%Z).
    { intros l Hl. destruct (reachable_numbered _ _ _ _ _ _ _ _ Hr) as (Hper & _).
      eapply Forall_forall in Hper; [|by eapply last_Some_elem_of]. simpl in Hper. lia. }
    apply month_step_pass in E as (rows & rem & Hp & E); [|done].
    symmetry in E. apply close_month_next in E as (_ & _ & _ & _ & Hs & Hr' & _).
    destruct (pass_balance st rows rem Hp Hlast) as (Hsum & Hrow & Hnil).
    rewrite Hs, Hr'. split.
    + unfold late_prepaid in *. rewrite paid_principal_app, late_prepaid_from_app, IH1.
      destruct (last (schedule st)) as [l|] eqn:El.
      * rewrite <- (Qcplus_0_r (paid_principal rows)).
        replace (loan_amount - remaining_principal st - late_prepaid_from None (schedule st)
                 + (paid_principal rows + 0))
          with (loan_amount - remaining_principal st - late_prepaid_from None (schedule st)
                + (paid_principal rows + late_prepaid_from (Some l) rows)
                - late_prepaid_from (Some l) rows) by ring.
        rewrite Hsum. ring.
      * replace (loan_amount - remaining_principal st - late_prepaid_from None (schedule st)
                 + paid_principal rows)
          with (loan_amount - remaining_principal st - late_prepaid_from None (schedule st)
                + (paid_principal rows + late_prepaid_from None rows)
                - late_prepaid_from None rows) by ring.
        rewrite Hsum. ring.
    + intros l. rewrite last_app. destruct (last rows) as [l'|] eqn:El.
      * intros [= <-]. by apply Hrow.
      * apply last_None in El. rewrite (Hnil El). apply IH2.
Qed.

(** When the loop has ended, the principal column of the ledger adds up
    to the loan less the balance recorded on the last row and less the
    prepayments made after the regular payment of their period. *)
Lemma simulate_balance (stf : sim_state) (l : row) :
  simulate prepayments = Ok stf -> last (schedule stf) = Some l ->
  paid_principal (schedule stf)
  = loan_amount - remaining l - late_prepaid (schedule stf).
Proof.
  intros [[Hr _]|(st & Hr & Hc & E)]%simulate_exit Hl.
  - destruct (reachable_balance stf Hr) as [H1 H2]. by rewrite (H2 l Hl).
  - pose proof Hc as [Hrem _]%loop_cond_true.
    destruct (reachable_balance st Hr) as [IH1 IH2].
    assert (Hlast : forall l, last (schedule st) = Some l -> (period l < month st)%Z).
    { intros q Hq. destruct (reachable_numbered _ _ _ _ _ _ _ _ Hr) as (Hper & _).
      eapply Forall_forall in Hper; [|by eapply last_Some_elem_of]. simpl in Hper. lia. }
    apply month_step_pass in E as (rows & rem & Hp & E); [|done].
    symmetry in E. apply close_month_break in E as (Hs & _ & _).
    destruct (pass_balance st rows rem Hp Hlast) as (Hsum & Hrow & Hnil).
    rewrite Hs in Hl |- *.
    assert (Hrl : remaining l = rem).
    { rewrite last_app in Hl. destruct (last rows) as [l'|] eqn:El.
      - injection Hl as <-. by apply Hrow.
      - apply last_None in El. rewrite (Hnil El). by apply IH2. }
    rewrite Hrl. unfold late_prepaid in *.
    rewrite paid_principal_app, late_prepaid_from_app, IH1.
    destruct (last (schedule st)) as [q|] eqn:Eq.
    + replace (loan_amount - rem
               - (late_prepaid_from None (schedule st) + late_prepaid_from (Some q) rows))
        with (loan_amount - remaining_principal st - late_prepaid_from None (schedule st)
              + (remaining_principal st - rem) - late_prepaid_from (Some q) rows) by ring.
      rewrite <- Hsum. ring.
    + replace (loan_amount - rem
               - (late_prepaid_from None (schedule st) + late_prepaid_from None rows))
        with (loan_amount - remaining_principal st - late_prepaid_from None (schedule st)
              + (remaining_principal st - rem) - late_prepaid_from None rows) by ring.
      rewrite <- Hsum. ring.
Qed.

End Balance.

Lemma paid_principal_adjust_last (loan_amount : Qc) (s : list row) (l : row) :
  last s = Some l ->
  paid_principal (adjust_last loan_amount s)
  = paid_principal s
    - (if Qc_ltb tolerance (Qc_abs (remaining l)) then remaining l else 0).
Proof.
  intros Hl. unfold adjust_last. rewrite Hl.
  destruct (Qc_ltb tolerance (Qc_abs (remaining l))); [|ring].
  apply last_Some in Hl as [s' ->].
  rewrite length_app. simpl.
  replace (length s' + 1 - 1)%nat with (length s' + 0)%nat by lia.
  rewrite alter_app_r. simpl. rewrite !paid_principal_snoc. simpl. ring.
Qed.

(** Property X13.
    The total of the principal column.  With [l] the last row written by
    the loop, the principal of the ledger from which the table is built
    adds up to the loan, less the prepayments made after the regular
    payment of their period (the retroactive edit took them off the
    Regular rows), less the balance recorded on [l], and less that balance
    once more when it exceeds the tolerance and the last-row correction
    subtracts it from the last principal.  The last row of the table shows
    this total as its cumulative principal and the loan less this total as
    its remaining balance. *)
Theorem principal_column_total
    loan_amount loan_years first_pay_date initial_rate
    (rate_changes : gmap datetime Qc) repayment_type prepayments
    (out : list out_row) :
  generate_repayment_schedule loan_amount loan_years first_pay_date initial_rate
                              rate_changes repayment_type prepayments = Ok out ->
  exists stf l o,
    simulate loan_amount loan_years first_pay_date initial_rate rate_changes
             repayment_type prepayments = Ok stf
    /\ last (schedule stf) = Some l /\ last out = Some o
    /\ let total :=
         loan_amount - late_prepaid (schedule stf) - remaining l
         - (if Qc_ltb tolerance (Qc_abs (remaining l)) then remaining l else 0) in
       paid_principal (ledger loan_amount (schedule stf)) = total
       /\ o_cum_principal o = round_dec 2 (round_dec 6 total)
       /\ o_remaining o = round_dec 2 (round_dec 6 (loan_amount - round_dec 6 total)).
Proof.
  intros (stf & Hsim & Hf)%generate_Ok.
  destruct (last (schedule stf)) as [l|] eqn:Hl.
  2:{ apply last_None in Hl. rewrite Hl in Hf. by rewrite finalize_empty in Hf. }
  pose proof (finalize_length _ _ _ Hf) as Hlen.
  assert (Hne : schedule stf <> []) by (intros Hnil; by rewrite Hnil in Hl).
  destruct (last out) as [o|] eqn:Ho.
  2:{ apply last_None in Ho. rewrite Ho in Hlen. destruct (schedule stf); done. }
  exists stf, l, o. split; [done|]. split; [done|]. split; [done|].
  assert (Htotal : paid_principal (ledger loan_amount (schedule stf))
                   = loan_amount - late_prepaid (schedule stf) - remaining l
                     - (if Qc_ltb tolerance (Qc_abs (remaining l))
                        then remaining l else 0)).
  { unfold ledger.
    pose proof (accumulate_last_remaining 0 0 (schedule stf)) as Hacc.
    rewrite Hl in Hacc. simpl in Hacc.
    destruct (last (accumulate 0 0 (schedule stf))) as [l'|] eqn:Hl'; [|done].
    injection Hacc as Hrem.
    rewrite (paid_principal_adjust_last _ _ l' Hl'), Hrem, paid_principal_accumulate.
    rewrite (simulate_balance _ _ _ _ _ _ _ _ l Hsim Hl). ring. }
  cbv zeta. split; [exact Htotal|].
  rewrite last_lookup in Ho.
  destruct (finalize_lookup _ _ _ _ _ Hf Ho) as (r & Hr & ->).
  rewrite take_ge.
  2:{ rewrite ledger_length. destruct out; simpl in *; lia. }
  simpl. by rewrite Htotal.
Qed.

Lemma principal_column_total_witness :
  exists out stf l o,
    generate_repayment_schedule (num 1200) 1 (mkdt 2022 9 12) (num 3) ∅
      "equal_principal" [mkPrepay (mkdt 2022 11 12) (Some (num 500))] = Ok out
    /\ simulate (num 1200) 1 (mkdt 2022 9 12) (num 3) ∅
         "equal_principal" [mkPrepay (mkdt 2022 11 12) (Some (num 500))] = Ok stf
    /\ last (schedule stf) = Some l /\ last out = Some o
    /\ late_prepaid (schedule stf) = num 500 /\ remaining l = 0
    /\ paid_principal (ledger (num 1200) (schedule stf)) = num 700
    /\ o_cum_principal o = num 700 /\ o_remaining o = num 500.
Proof.
  destruct (generate_repayment_schedule (num 1200) 1 (mkdt 2022 9 12) (num 3) ∅
              "equal_principal" [mkPrepay (mkdt 2022 11 12) (Some (num 500))])
    as [out|x] eqn:E; [|vm_compute in E; discriminate E].
  destruct (principal_column_total (num 1200) 1%Z (mkdt 2022 9 12) (num 3) ∅
              "equal_principal" [mkPrepay (mkdt 2022 11 12) (Some (num 500))] out E)
    as (stf & l & o & Hsim & Hl & Ho & Htot & Hcum & Hrem).
  assert (Hstf : stf = match simulate (num 1200) 1 (mkdt 2022 9 12) (num 3) ∅
                               "equal_principal"
                               [mkPrepay (mkdt 2022 11 12) (Some (num 500))] with
                       | Ok st => st
                       | Raise _ => stf
                       end) by (by rewrite Hsim).
  assert (Hlate : late_prepaid (schedule stf) = num 500).
  { rewrite Hstf. apply Qc_is_canon. vm_compute. reflexivity. }
  assert (Hrl : remaining l = 0).
  { pose proof Hl as Hl'. rewrite Hstf in Hl'. vm_compute in Hl'.
    injection Hl' as <-. apply Qc_is_canon. reflexivity. }
  rewrite Hlate, Hrl in Htot, Hcum, Hrem.
  exists out, stf, l, o. split; [reflexivity|]. split; [exact Hsim|].
  split; [exact Hl|]. split; [exact Ho|]. split; [exact Hlate|]. split; [exact Hrl|].
  split; [|split].
  - rewrite Htot. apply Qc_is_canon. vm_compute. reflexivity.
  - rewrite Hcum. apply Qc_is_canon. vm_compute. reflexivity.
  - rewrite Hrem. apply Qc_is_canon. vm_compute. reflexivity.
Defined.

(** ** A loan without prepayments, annuity method *)

Lemma Qcpower_mono (a : Qc) (j k : nat) : 1 ≤ a -> (j <= k)%nat -> a ^ j ≤ a ^ k.
Proof.
  intros Ha. induction 1 as [|k Hjk IH]; [apply Qcle_refl|]. simpl.
  apply Qcle_trans with (1 * a ^ k).
  - by rewrite Qcmult_1_l.
  - apply Qcmult_le_compat_r; [done|].
    apply Qcle_trans with 1; [done|by apply Qcpower_ge_1].
Qed.

Lemma late_prepaid_regular (prev : option row) (s : list row) :
  Forall (fun r => kind r = Regular) s -> late_prepaid_from prev s = 0.
Proof.
  intros H. revert prev. induction H as [|r s Hr _ IH]; intros prev; simpl; [done|].
  rewrite IH. unfold late_pair, is_prepayment. rewrite Hr.
  destruct prev; simpl; ring.
Qed.

(** The arithmetic behind the last period: while the term has not run
    out, the balance left by a payment is at least the annuity payment
    discounted by one month. *)
Lemma annuity_balance_bound (L r q P X D rem A c : Qc) :
  q = 1 + r -> 0 < L -> 0 < r -> 0 < D -> X ≤ P ->
  rem * D = L * (P * q - X) -> A * D = L * (r * (P * q)) ->
  c * q < A -> rem ≤ c -> False.
Proof.
  intros Hq HL Hr HD HX Hrem HA Hc Hle.
  to_Q Hq. to_Q HL. to_Q Hr. to_Q HD. to_Q HX. to_Q Hrem. to_Q HA. to_Q Hc. to_Q Hle.
  change (this 0) with 0%Q in *. change (this 1) with 1%Q in *.
  set (l := this L) in *. set (r' := this r) in *. set (q' := this q) in *.
  set (p := this P) in *. set (x := this X) in *. set (d := this D) in *.
  set (m := this rem) in *. set (a := this A) in *. set (c' := this c) in *.
  assert (Hq0 : (0 < q')%Q) by (rewrite Hq; lra).
  assert (H0 : (0 <= l * (p - x))%Q) by (apply Qmult_le_0_compat; lra).
  assert (H1 : (l * (p * r') <= m * d)%Q).
  { rewrite Hrem. rewrite Hq. lra. }
  assert (H2 : (a * d <= m * d * q')%Q).
  { rewrite HA.
    assert (E : (l * (r' * (p * q')) == (l * (p * r')) * q')%Q) by ring.
    rewrite E. apply Qmult_le_compat_r; lra. }
  assert (H3 : (0 <= (m * q' - a) * d)%Q) by lra.
  assert (H4 : (0 <= m * q' - a)%Q).
  { apply Qnot_lt_le. intros Hlt.
    assert (0 < (a - m * q') * d)%Q by (apply Qmult_lt_0_compat; lra). lra. }
  assert (H5 : (m * q' <= c' * q')%Q) by (apply Qmult_le_compat_r; lra).
  lra.
Qed.

Lemma paid_principal_telescope (f : nat -> Qc) (l : list row) :
  (forall j r, l !! j = Some r -> principal r = f j - f (S j)) ->
  paid_principal l = f 0%nat - f (length l).
Proof.
  induction l as [|x l IH] using rev_ind; intros H.
  - change (0 = f 0%nat - f 0%nat). ring.
  - rewrite paid_principal_snoc, IH.
    + rewrite (H (length l) x).
      * rewrite length_app. simpl. replace (length l + 1)%nat with (S (length l)) by lia. ring.
      * rewrite lookup_app_r by lia. by rewrite Nat.sub_diag.
    + intros j r Hj. apply H. apply lookup_app_Some. by left.
Qed.

Section EqualPayment.
Variables (loan_amount : Qc) (loan_years : Z) (first_pay_date : datetime)
          (initial_rate : Qc) (rate_changes : gmap datetime Qc).

Local Abbreviation month_step :=
  (month_step loan_amount loan_years initial_rate rate_changes "equal_payment").
Local Abbreviation simulate :=
  (simulate loan_amount loan_years first_pay_date initial_rate rate_changes
            "equal_payment").
Local Abbreviation loop_cond := (loop_cond loan_years).
Local Abbreviation reachable :=
  (reachable loan_amount loan_years first_pay_date initial_rate rate_changes
             "equal_payment" []).
Local Abbreviation mrate := (initial_rate / num 100 / num 12).
Local Abbreviation growth := ((1 + mrate) ^ Z.to_nat (total_months loan_years)).
Local Abbreviation payment := (annuity_payment loan_amount loan_years initial_rate).
Local Abbreviation balance := (annuity_balance loan_amount loan_years initial_rate).

Hypothesis loan_positive : 0 < loan_amount.
Hypothesis term_positive : (0 < loan_years)%Z.
Hypothesis rate_positive : 0 < initial_rate.

Lemma mrate_pos : 0 < mrate.
Proof. apply Qc_div_pos; [apply Qc_div_pos|]; [done|by apply num_pos..]. Qed.

Lemma growth_gt_1 : 1 < growth.
Proof.
  apply Qcpower_gt_1; [|unfold total_months; lia].
  apply Qclt_minus_iff. replace (1 + mrate + - 1) with mrate by ring. apply mrate_pos.
Qed.

Lemma growth_pos : 0 < growth - 1.
Proof.
  pose proof growth_gt_1 as H. apply Qclt_minus_iff in H.
  by replace (growth + - 1) with (growth - 1) in H by ring.
Qed.

Lemma growth_ne_1 : growth - 1 <> 0.
Proof. intros H. pose proof growth_pos as H1. rewrite H in H1. by apply Qclt_not_eq in H1. Qed.

Lemma annuity_payment_of :
  equal_monthly_payment_of loan_amount loan_years mrate = Ok payment.
Proof.
  destruct (equal_monthly_payment_of_Ok loan_amount loan_years mrate
              term_positive mrate_pos) as [A HA].
  rewrite HA. f_equal. by apply equal_monthly_payment_closed in HA.
Qed.

Local Ltac annuity_field :=
  unfold annuity_balance, annuity_payment; cbv zeta;
  pose proof growth_ne_1 as Hg;
  set (r := initial_rate / num 100 / num 12) in *;
  set (g := (1 + r) ^ Z.to_nat (total_months loan_years)) in *;
  simpl Qcpower; field; exact Hg.

Lemma payment_growth : payment * (growth - 1) = loan_amount * (mrate * growth).
Proof. annuity_field. Qed.

Lemma balance_growth (k : nat) :
  balance k * (growth - 1) = loan_amount * (growth - (1 + mrate) ^ k).
Proof. annuity_field. Qed.

Lemma balance_0 : balance 0 = loan_amount.
Proof. annuity_field. Qed.

Lemma balance_end : balance (Z.to_nat (total_months loan_years)) = 0.
Proof. annuity_field. Qed.

(** One payment takes the balance of the formula to the next one. *)
Lemma balance_step (k : nat) :
  balance k - (payment - balance k * mrate) = balance (S k).
Proof. annuity_field. Qed.

Lemma month_step_annuity (st : sim_state) :
  0 < remaining_principal st -> prepayment_details st = [] ->
  month_step st
  = Ok (close_month st (pass_rate rate_changes st) []
          (remaining_principal st - (payment - remaining_principal st * mrate))
          (schedule st
           ++ [regular_row (month st) (current_date st)
                           (payment - remaining_principal st * mrate)
                           (remaining_principal st * mrate)
                           (remaining_principal st)])).
Proof.
  intros Hrem Hd. rewrite month_step_eq by done. unfold month_step_closed.
  rewrite Hd. unfold window. rewrite filter_nil.
  rewrite regular_payment_equal_payment, annuity_payment_of, !bind_Ok. done.
Qed.

(** After [k] passes the balance is the one of the annuity formula, and
    the ledger holds one Regular row per period. *)
Lemma reachable_annuity (st : sim_state) :
  reachable st ->
  prepayment_details st = []
  /\ 0 < remaining_principal st
  /\ remaining_principal st = balance (Z.to_nat (month st - 1))
  /\ Z.of_nat (length (schedule st)) = (month st - 1)%Z
  /\ Forall (fun r => kind r = Regular) (schedule st)
  /\ (forall i r, schedule st !! i = Some r -> period r = (Z.of_nat i + 1)%Z).
Proof.
  induction 1 as [|st st' Hr (Hd & Hrem & Hbal & Hlen & Hrows & Hper) Hc E].
  - simpl. split; [done|]. split; [done|]. split; [|split; [done|split]].
    + symmetry. apply balance_0.
    + constructor.
    + intros i r Hi. by rewrite lookup_nil in Hi.
  - rewrite month_step_annuity in E by done. injection E as E.
    apply close_month_next in E as (_ & Hm & _ & Hd' & Hs & Hr' & Hcent).
    rewrite Hd', Hs, Hr', Hm. split; [done|]. split; [|split; [|split; [|split]]].
    + eapply Qclt_trans; [|exact Hcent]. reflexivity.
    + rewrite Hbal, balance_step. f_equal. lia.
    + rewrite length_app. simpl. lia.
    + apply Forall_app. split; [done|]. by repeat constructor.
    + intros i r Hi. apply lookup_app_Some in Hi as [Hi|[Hge Hi]]; [by apply Hper|].
      apply list_lookup_singleton_Some in Hi as [Hi <-]. simpl. lia.
Qed.

Hypothesis payment_above_cent : cent * (1 + mrate) < payment.

(** The loop ends with the pass of the last period of the term, which
    brings the balance to zero. *)
Lemma simulate_annuity (stf : sim_state) :
  simulate [] = Ok stf ->
  remaining_principal stf = 0
  /\ Z.of_nat (length (schedule stf)) = total_months loan_years
  /\ Forall (fun r => kind r = Regular) (schedule stf)
  /\ (forall i r, schedule stf !! i = Some r -> period r = (Z.of_nat i + 1)%Z)
  /\ (forall r, last (schedule stf) = Some r -> remaining r = 0).
Proof.
  intros [[Hr Hc]|(st & Hr & Hc & E)]%simulate_exit.
  - exfalso.
    destruct (reachable_annuity stf Hr) as (_ & Hrem & Hbal & _).
    pose proof (reachable_month_bound _ _ _ _ _ _ _ _ Hr) as Hm.
    apply not_true_iff_false in Hc. rewrite loop_cond_true in Hc.
    assert (Hmn : month stf = (total_months loan_years + 1)%Z).
    { destruct (Z_le_gt_dec (month stf) (total_months loan_years)) as [Hle|Hgt];
        [by destruct Hc|]. unfold total_months in *. lia. }
    rewrite Hmn in Hbal.
    replace (total_months loan_years + 1 - 1)%Z with (total_months loan_years) in Hbal by lia.
    rewrite balance_end in Hbal.
    rewrite Hbal in Hrem. by apply Qclt_not_eq in Hrem.
  - destruct (reachable_annuity st Hr) as (Hd & Hrem & Hbal & Hlen & Hrows & Hper).
    pose proof Hc as [_ Hm]%loop_cond_true.
    pose proof (reachable_month_bound _ _ _ _ _ _ _ _ Hr) as [Hm1 _].
    rewrite month_step_annuity in E by done. injection E as E.
    apply close_month_break in E as (Hs & Hle & H0).
    rewrite Hbal, balance_step in Hle.
    assert (Hmn : month st = total_months loan_years).
    { destruct (Z.eq_dec (month st) (total_months loan_years)) as [|Hne]; [done|]. exfalso.
      set (k := Z.to_nat (month st - 1)) in *.
      set (n := Z.to_nat (total_months loan_years)) in *.
      assert (Hn : n = S (n - 1)) by (unfold n; lia).
      assert (Hg : growth = (1 + mrate) ^ (n - 1) * (1 + mrate)).
      { fold n. rewrite Hn at 1. simpl. ring. }
      apply (annuity_balance_bound loan_amount mrate (1 + mrate) ((1 + mrate) ^ (n - 1))
               ((1 + mrate) ^ S k) (growth - 1) (balance (S k)) payment cent);
        [done|done|apply mrate_pos|apply growth_pos| | | |done|done].
      - apply Qcpower_mono; [|unfold k, n; lia].
        rewrite <- (Qcplus_0_r 1) at 1. apply Qcplus_le_compat; [apply Qcle_refl|].
        apply Qclt_le_weak, mrate_pos.
      - rewrite balance_growth. by rewrite <- Hg.
      - rewrite payment_growth. by rewrite <- Hg. }
    rewrite Hs. split; [|split; [|split; [|split]]].
    + exact H0.
    + rewrite length_app. simpl. lia.
    + apply Forall_app. split; [done|]. by repeat constructor.
    + intros i r Hi. apply lookup_app_Some in Hi as [Hi|[Hge Hi]]; [by apply Hper|].
      apply list_lookup_singleton_Some in Hi as [Hi <-]. simpl. lia.
    + intros r. rewrite last_snoc. intros [= <-]. simpl.
      rewrite Hbal, balance_step.
      replace (S (Z.to_nat (month st - 1))) with (Z.to_nat (total_months loan_years)) by lia.
      apply balance_end.
Qed.

(** Each row pays the interest of one month on the balance of the
    formula, and the rest of the annuity payment as principal. *)
Lemma annuity_rows (stf : sim_state) (i : nat) (r : row) :
  simulate [] = Ok stf -> schedule stf !! i = Some r ->
  interest r = balance i * mrate
  /\ principal r = payment - balance i * mrate.
Proof.
  intros Hsim Hi.
  destruct (simulate_annuity stf Hsim) as (_ & _ & Hrows & Hper & _).
  pose proof (Forall_lookup_1 _ _ _ _ Hrows Hi) as Hkind.
  destruct (simulate_regular_row _ _ _ _ _ _ _ _ _ Hsim
              (list_elem_of_lookup_2 _ _ _ Hi) Hkind)
    as (st & i0 & pp & Hreach & Hm & _ & Hpay & Hint & Hpp).
  rewrite regular_payment_equal_payment, annuity_payment_of, bind_Ok in Hpay.
  injection Hpay as <- <-.
  destruct (reachable_annuity st Hreach) as (_ & _ & Hbal & _).
  rewrite Hm, (Hper i r Hi) in Hbal.
  replace (Z.to_nat (Z.of_nat i + 1 - 1)) with i in Hbal by lia.
  rewrite Hbal in Hint, Hpp. split; [done|].
  destruct Hpp as [Hpp|(p & Hp & _)]; [done|]. by apply elem_of_nil in Hp.
Qed.

End EqualPayment.



(** * Properties of the web application *)

(** ** Dates built by the constructor *)

Lemma new_datetime_Ok (y m d : Z) (x : datetime) :
  new_datetime y m d = Ok x ->
  x = mkdt y m d /\ valid_date x /\ (1 <= y <= 9999)%Z.
Proof.
  unfold new_datetime. destruct (_ && _) eqn:E; [|done]. intros [= <-].
  rewrite !andb_true_iff, !Z.leb_le in E.
  split; [done|]. unfold valid_date. simpl. lia.
Qed.

Lemma new_datetime_valid (y m d : Z) :
  (1 <= y <= 9999)%Z -> (1 <= m <= 12)%Z -> (1 <= d <= days_in_month y m)%Z ->
  new_datetime y m d = Ok (mkdt y m d).
Proof.
  intros Hy Hm Hd. unfold new_datetime.
  replace (_ && _) with true; [done|]. symmetry.
  rewrite !andb_true_iff, !Z.leb_le. lia.
Qed.

Lemma new_datetime_Raise (y m d : Z) (e : exn) :
  new_datetime y m d = Raise e -> e = ValueError.
Proof. unfold new_datetime. destruct (_ && _); [done|]. by intros [= <-]. Qed.

Lemma new_datetime_year_out (y m d : Z) :
  (y < 1 \/ 9999 < y)%Z -> new_datetime y m d = Raise ValueError.
Proof.
  intros Hy. unfold new_datetime.
  destruct (_ && _) eqn:E; [|done].
  rewrite !andb_true_iff, !Z.leb_le in E. lia.
Qed.

(** ** The first adjustment day after a change *)

(** The search visits the years from [candidate_year] on and stops at the
    first one whose day is after [change_date], or whose day cannot be
    built. *)
Lemma first_day_after_spec (day_of_year : Z -> result datetime) (c : datetime) :
  (forall y, (9999 < y)%Z -> day_of_year y = Raise ValueError) ->
  forall (passes : nat) (cy : Z),
    (10001 - cy <= Z.of_nat passes)%Z ->
    exists y,
      (cy <= y)%Z
      /\ (forall y', (cy <= y' < y)%Z ->
          exists d', day_of_year y' = Ok d' /\ dt_ltb c d' = false)
      /\ match first_day_after passes day_of_year cy c with
         | Ok d => day_of_year y = Ok d /\ dt_ltb c d = true
         | Raise e => day_of_year y = Raise e
         end.
Proof.
  intros Hout. induction passes as [|passes IH]; intros cy Hf; simpl.
  - exists cy. split; [lia|]. split; [lia|]. apply Hout. lia.
  - destruct (day_of_year cy) as [d|e] eqn:E; simpl.
    + destruct (dt_ltb c d) eqn:L.
      * exists cy. split; [lia|]. split; [lia|]. by rewrite E.
      * destruct (IH (cy + 1)%Z) as (y & Hy & Hbefore & Hres); [lia|].
        exists y. split; [lia|]. split; [|done].
        intros y' Hy'. destruct (Z.eq_dec y' cy) as [->|Hne]; [by exists d|].
        apply Hbefore. lia.
    + exists cy. split; [lia|]. split; [lia|]. by rewrite E.
Qed.

Lemma january_first_out (y : Z) : (9999 < y)%Z -> january_first y = Raise ValueError.
Proof. intros Hy. apply new_datetime_year_out. lia. Qed.

Lemma loan_day_out (first_pay_date : datetime) (y : Z) :
  (9999 < y)%Z -> loan_day first_pay_date y = Raise ValueError.
Proof.
  intros Hy. unfold loan_day. rewrite !new_datetime_year_out by lia. done.
Qed.

(** The loan day of a year of the calendar: the day of the first payment,
    or the 28th when that year's month is too short for it. *)
Lemma loan_day_Ok (first_pay_date : datetime) (y : Z) :
  valid_date first_pay_date -> (1 <= y <= 9999)%Z ->
  exists d, loan_day first_pay_date y = Ok d
            /\ year d = y /\ month_of d = month_of first_pay_date
            /\ valid_date d
            /\ (day d = day first_pay_date
                \/ (day d = 28%Z /\ month_of first_pay_date = 2%Z
                    /\ day first_pay_date = 29%Z /\ is_leap y = false)).
Proof.
  intros [Hm Hd] Hy. unfold loan_day.
  destruct (Z_le_dec (day first_pay_date) (days_in_month y (month_of first_pay_date)))
    as [Hle|Hgt].
  - rewrite new_datetime_valid by lia. eexists. split; [done|].
    unfold valid_date. cbn [year month_of day]. lia.
  - pose proof (days_in_month_pos y (month_of first_pay_date)) as Hp.
    replace (new_datetime y (month_of first_pay_date) (day first_pay_date))
      with (@Raise datetime ValueError).
    2:{ unfold new_datetime. destruct (_ && _) eqn:E; [|done].
        rewrite !andb_true_iff, !Z.leb_le in E. lia. }
    rewrite new_datetime_valid by lia. eexists. split; [done|].
    unfold valid_date. cbn [year month_of day].
    do 3 (split; [lia|]). right.
    unfold days_in_month in Hd, Hgt.
    destruct (month_of first_pay_date =? 2)%Z eqn:E2.
    + apply Z.eqb_eq in E2. destruct (is_leap y), (is_leap (year first_pay_date)); lia.
    + destruct (_ || _); lia.
Qed.

Lemma loan_day_first (first_pay_date : datetime) :
  valid_date first_pay_date -> (1 <= year first_pay_date <= 9999)%Z ->
  loan_day first_pay_date (year first_pay_date) = Ok first_pay_date.
Proof.
  intros [Hm Hd] Hy. unfold loan_day. rewrite new_datetime_valid by lia.
  by destruct first_pay_date.
Qed.

(** The search succeeds when every year of the calendar has its day and
    the change is dated before the last year. *)
Lemma first_day_after_Ok (day_of_year : Z -> result datetime) (c : datetime) (cy : Z) :
  (forall y, (9999 < y)%Z -> day_of_year y = Raise ValueError) ->
  (forall y, (cy <= y <= 9999)%Z -> exists d, day_of_year y = Ok d /\ year d = y) ->
  (cy <= 9999)%Z -> (year c <= 9998)%Z ->
  exists d,
    first_day_after (Z.to_nat (10001 - cy)) day_of_year cy c = Ok d /\ dt_lt c d.
Proof.
  intros Hout Hin Hcy Hc.
  destruct (first_day_after_spec day_of_year c Hout (Z.to_nat (10001 - cy)) cy)
    as (y & Hle & Hbefore & Hres); [lia|].
  assert (Hy9 : (y <= 9999)%Z).
  { destruct (Z_le_dec y 9999) as [|Hgt]; [done|]. exfalso.
    destruct (Hbefore 9999%Z) as (d' & Hd' & Hlt); [lia|].
    destruct (Hin 9999%Z) as (d & Hd & Hyd); [lia|].
    assert (d' = d) as -> by congruence. dt_order. }
  destruct (Hin y) as (d & Hd & Hyd); [lia|].
  destruct (first_day_after _ _ _ _) as [d0|e]; [|congruence].
  destruct Hres as [Hd0 Hlt]. by exists d0.
Qed.

Ltac date_bounds :=
  first [ lia
        | match goal with
          | |- context [days_in_month ?y ?m] =>
              pose proof (days_in_month_pos y m); lia
          end ].

(** Property X15.
    With the basis "every January 1st" a change takes effect on the first
    of January of the year after its date; a change dated in the last year
    of the calendar makes the search raise [ValueError]. *)
Theorem next_effective_date_january (first_pay_date change_date : datetime) :
  valid_date change_date -> (1 <= year change_date <= 9999)%Z ->
  next_effective_date "每年1月1日" first_pay_date change_date
  = if (year change_date <? 9999)%Z
    then Ok (mkdt (year change_date + 1) 1 1)
    else Raise ValueError.
Proof.
  intros [Hm Hd] Hy. unfold next_effective_date. rewrite String.eqb_refl.
  destruct (Z.to_nat (10001 - year change_date)) as [|[|passes]] eqn:Hp; [lia..|].
  simpl. unfold january_first.
  rewrite (new_datetime_valid (year change_date) 1 1) by date_bounds.
  rewrite bind_Ok.
  replace (dt_ltb change_date (mkdt (year change_date) 1 1)) with false
    by (symmetry; dt_order).
  destruct (year change_date <? 9999)%Z eqn:E.
  - apply Z.ltb_lt in E.
    rewrite new_datetime_valid by date_bounds.
    rewrite bind_Ok.
    by replace (dt_ltb change_date (mkdt (year change_date + 1) 1 1)) with true
      by (symmetry; dt_order).
  - apply Z.ltb_ge in E. rewrite new_datetime_year_out by lia. done.
Qed.

Lemma next_effective_date_january_witness :
  next_effective_date "每年1月1日" (mkdt 2022 9 12) (mkdt 2022 10 1)
  = Ok (mkdt 2023 1 1).
Proof.
  assert (Hv : valid_date (mkdt 2022 10 1)) by (vm_compute; repeat split; discriminate).
  assert (Hy : (1 <= year (mkdt 2022 10 1) <= 9999)%Z) by (simpl; lia).
  exact (next_effective_date_january (mkdt 2022 9 12) (mkdt 2022 10 1) Hv Hy).
Defined.

(** Property X16.
    With the basis "every loan anniversary" a change takes effect on the
    first loan day, from the year of the first payment on, that is after
    the change date: the day and month of the first payment, the 28th of
    February standing in for the 29th in a common year.  A change dated
    before the first payment takes effect on the first payment date itself. *)
Theorem next_effective_date_anniversary
    (rate_adjustment_basis : string) (first_pay_date change_date : datetime) :
  rate_adjustment_basis <> "每年1月1日" ->
  valid_date first_pay_date -> (1 <= year first_pay_date <= 9999)%Z ->
  (year change_date <= 9998)%Z ->
  exists d,
    next_effective_date rate_adjustment_basis first_pay_date change_date = Ok d
    /\ dt_lt change_date d
    /\ loan_day first_pay_date (year d) = Ok d
    /\ (year first_pay_date <= year d)%Z
    /\ month_of d = month_of first_pay_date
    /\ (day d = day first_pay_date
        \/ (day d = 28%Z /\ month_of first_pay_date = 2%Z
            /\ day first_pay_date = 29%Z /\ is_leap (year d) = false))
    /\ (forall y d', (year first_pay_date <= y < year d)%Z ->
                     loan_day first_pay_date y = Ok d' -> dt_le d' change_date)
    /\ (dt_lt change_date first_pay_date -> d = first_pay_date).
Proof.
  intros Hb Hv Hy Hc. unfold next_effective_date.
  apply String.eqb_neq in Hb. rewrite Hb.
  destruct (first_day_after_spec (loan_day first_pay_date) change_date
              (loan_day_out first_pay_date)
              (Z.to_nat (10001 - year first_pay_date)) (year first_pay_date))
    as (y & Hle & Hbefore & Hres); [lia|].
  assert (Hy9 : (y <= 9999)%Z).
  { destruct (Z_le_dec y 9999) as [|Hgt]; [done|]. exfalso.
    destruct (Hbefore 9999%Z) as (d' & Hd' & Hlt); [lia|].
    destruct (loan_day_Ok first_pay_date 9999 Hv) as (d & Hd & Hyd & _); [lia|].
    assert (d' = d) as -> by congruence. dt_order. }
  destruct (loan_day_Ok first_pay_date y Hv) as (d & Hd & Hyd & Hmd & Hvd & Hday); [lia|].
  destruct (first_day_after _ _ _ _) as [d0|e]; [|congruence].
  destruct Hres as [Hd0 Hlt]. assert (d0 = d) as -> by congruence.
  exists d. rewrite Hyd. repeat split; try done.
  - intros y' d' Hy' Hd'. destruct (Hbefore y' Hy') as (d'' & Hd'' & Hnlt).
    assert (d'' = d') as -> by congruence.
    unfold dt_le, dt_leb. by rewrite Hnlt.
  - intros Hcf. pose proof (loan_day_first first_pay_date Hv Hy) as Hfirst.
    destruct (Z.eq_dec y (year first_pay_date)) as [Heq|Hne].
    + rewrite Heq in Hd. congruence.
    + exfalso. destruct (Hbefore (year first_pay_date)) as (d' & Hd' & Hnlt); [lia|].
      assert (d' = first_pay_date) as -> by congruence.
      unfold dt_lt in Hcf. congruence.
Qed.

Lemma next_effective_date_anniversary_witness :
  exists d,
    next_effective_date "每年放贷日" (mkdt 2020 2 29) (mkdt 2022 10 1) = Ok d
    /\ d = mkdt 2023 2 28.
Proof.
  assert (Hb : "每年放贷日" <> "每年1月1日") by discriminate.
  assert (Hv : valid_date (mkdt 2020 2 29)) by (vm_compute; repeat split; discriminate).
  assert (Hy : (1 <= year (mkdt 2020 2 29) <= 9999)%Z) by (simpl; lia).
  assert (Hc : (year (mkdt 2022 10 1) <= 9998)%Z) by (simpl; lia).
  destruct (next_effective_date_anniversary "每年放贷日" (mkdt 2020 2 29)
              (mkdt 2022 10 1) Hb Hv Hy Hc) as (d & Hd & _).
  exists d. split; [exact Hd|].
  assert (E : next_effective_date "每年放贷日" (mkdt 2020 2 29) (mkdt 2022 10 1)
              = Ok (mkdt 2023 2 28)) by (vm_compute; reflexivity).
  congruence.
Defined.

(** ** The dict built from a rate table *)

Lemma strptime_Raise (s : string) (e : exn) : strptime s = Raise e -> e = ValueError.
Proof.
  unfold strptime. destruct (year_group s) as [[y [|c rest]]|]; try by intros [= <-].
  destruct (Ascii.eqb_spec c "-"%char) as [->|Hne].
  - destruct (first_match _) as [[[m d] [|? ?]]|]; try by intros [= <-].
    apply new_datetime_Raise.
  - destruct c as [[] [] [] [] [] [] [] []]; try by intros [= <-].
    by destruct Hne.
Qed.

Lemma build_rate_dict_from_lookup (rate_table : list rate_entry) (is_first_home : bool)
    (loan_years : Z) (acc m : gmap datetime Qc) (d : datetime) :
  build_rate_dict_from acc rate_table is_first_home loan_years = Ok m ->
  m !! d = from_option Some (acc !! d) (last (rates_on is_first_home loan_years d rate_table)).
Proof.
  revert acc. induction rate_table as [|entry rate_table IH]; intros acc; simpl.
  - by intros [= <-].
  - unfold rates_on. simpl.
    destruct (strptime (entry_date entry)) as [date|e]; simpl; [|done].
    intros Hm%IH. rewrite Hm. fold (rates_on is_first_home loan_years d rate_table).
    destruct (decide (date = d)) as [->|Hne].
    + destruct (entry_rate is_first_home loan_years entry) as [rate|]; [|done].
      rewrite lookup_insert_eq, last_cons. by destruct (last _).
    + destruct (entry_rate is_first_home loan_years entry) as [rate|]; [|done].
      by rewrite lookup_insert_ne.
Qed.

(** Property X17.
    [build_rate_dict] maps a date to the rate of the last entry of the
    table that carries this date and has a rate in the column read for
    the kind of home and the term; a date without such an entry is not a
    key of the dict. *)
Theorem build_rate_dict_lookup (rate_table : list rate_entry) (is_first_home : bool)
    (loan_years : Z) (m : gmap datetime Qc) (d : datetime) :
  build_rate_dict rate_table is_first_home loan_years = Ok m ->
  m !! d = last (rates_on is_first_home loan_years d rate_table).
Proof.
  intros Hm%(build_rate_dict_from_lookup _ _ _ _ _ d). rewrite Hm, lookup_empty.
  by destruct (last _).
Qed.

Lemma build_rate_dict_lookup_witness :
  exists m,
    build_rate_dict national_rate_table false 30 = Ok m
    /\ m !! mkdt 2015 3 1 = None
    /\ m !! mkdt 2022 10 1 = Some (Q2Qc (3575 # 1000)).
Proof.
  destruct (build_rate_dict national_rate_table false 30) as [m|e] eqn:E.
  2:{ exfalso.
      assert (H : match build_rate_dict national_rate_table false 30 with
                  | Ok _ => true
                  | Raise _ => false
                  end = true) by (vm_compute; reflexivity).
      rewrite E in H. discriminate H. }
  exists m. split; [reflexivity|].
  rewrite !(build_rate_dict_lookup national_rate_table false 30 m _ E).
  split; vm_compute; reflexivity.
Defined.

(** Property X18.
    [build_rate_dict] returns a dict exactly when every date string of
    the table is a date, whether or not the entry has a rate in the
    column read; otherwise it raises [ValueError]. *)
Theorem build_rate_dict_error (rate_table : list rate_entry) (is_first_home : bool)
    (loan_years : Z) :
  (is_Ok (build_rate_dict rate_table is_first_home loan_years)
   <-> Forall (fun entry => is_Ok (strptime (entry_date entry))) rate_table)
  /\ (forall e, build_rate_dict rate_table is_first_home loan_years = Raise e ->
                e = ValueError).
Proof.
  unfold build_rate_dict. generalize (∅ : gmap datetime Qc).
  induction rate_table as [|entry rate_table IH]; intros acc; simpl.
  - split; [|done]. split; [constructor|by eexists].
  - destruct (strptime (entry_date entry)) as [date|e] eqn:E; simpl.
    + destruct (IH (match entry_rate is_first_home loan_years entry with
                    | Some rate => <[date:=rate]> acc
                    | None => acc
                    end)) as [IH1 IH2].
      split; [|done]. rewrite IH1. split.
      * intros H. constructor; [by eexists|done].
      * by intros [_ H]%Forall_cons.
    + split.
      * split; [by intros [m Hm]|]. intros [[d Hd] _]%Forall_cons. congruence.
      * intros e' [= <-]. by eapply strptime_Raise.
Qed.

(** ** The adjusted rate changes *)

Lemma first_day_after_Raise (passes : nat) (day_of_year : Z -> result datetime)
    (cy : Z) (c : datetime) (e : exn) :
  (forall y e, day_of_year y = Raise e -> e = ValueError) ->
  first_day_after passes day_of_year cy c = Raise e -> e = ValueError.
Proof.
  intros Hdoy. revert cy. induction passes as [|passes IH]; intros cy; simpl.
  - by intros [= <-].
  - destruct (day_of_year cy) as [d|e'] eqn:E; simpl.
    + destruct (dt_ltb c d); [done|]. apply IH.
    + intros [= <-]. by eapply Hdoy.
Qed.

Lemma loan_day_Raise (first_pay_date : datetime) (y : Z) (e : exn) :
  loan_day first_pay_date y = Raise e -> e = ValueError.
Proof.
  unfold loan_day.
  destruct (new_datetime y (month_of first_pay_date) (day first_pay_date))
    as [d|e'] eqn:E; [done|].
  apply new_datetime_Raise in E as ->. apply new_datetime_Raise.
Qed.

Lemma next_effective_date_Raise (rate_adjustment_basis : string)
    (first_pay_date change_date : datetime) (e : exn) :
  next_effective_date rate_adjustment_basis first_pay_date change_date = Raise e ->
  e = ValueError.
Proof.
  unfold next_effective_date. destruct (String.eqb _ _).
  - apply first_day_after_Raise. intros y e'. apply new_datetime_Raise.
  - apply first_day_after_Raise. intros y e'. apply loan_day_Raise.
Qed.

(** Both bases give an effective date for a change dated before the last
    year of the calendar. *)
Lemma next_effective_date_Ok (rate_adjustment_basis : string)
    (first_pay_date change_date : datetime) :
  valid_date first_pay_date -> (1 <= year first_pay_date <= 9999)%Z ->
  (1 <= year change_date <= 9998)%Z ->
  exists d, next_effective_date rate_adjustment_basis first_pay_date change_date = Ok d
            /\ dt_lt change_date d.
Proof.
  intros Hv Hy Hyc. unfold next_effective_date.
  destruct (String.eqb rate_adjustment_basis "每年1月1日").
  - apply first_day_after_Ok; [apply january_first_out| |lia..].
    intros y Hyr. exists (mkdt y 1 1). split; [|done].
    apply new_datetime_valid; date_bounds.
  - apply first_day_after_Ok; [apply loan_day_out| |lia..].
    intros y Hyr. destruct (loan_day_Ok first_pay_date y Hv) as (d & Hd & Hyd & _); [lia|].
    by exists d.
Qed.

Section Adjustment.
Variables (rate_adjustment_basis : string) (first_pay_date : datetime)
          (national_rate_changes : gmap datetime Qc).

Local Abbreviation next :=
  (next_effective_date rate_adjustment_basis first_pay_date).
Local Abbreviation adjust_from :=
  (adjust_from rate_adjustment_basis first_pay_date national_rate_changes).

(** Where a value of the adjusted dict comes from: the last change of
    the list whose effective date is the key, or the dict the loop
    started with. *)
Lemma adjust_from_lookup (l : list datetime) (acc m : gmap datetime Qc)
    (k : datetime) (r : Qc) :
  adjust_from acc l = Ok m -> m !! k = Some r ->
  (exists l1 c l2,
     l = l1 ++ c :: l2 /\ next c = Ok k /\ dt_lt first_pay_date k
     /\ national_rate_changes !! c = Some r
     /\ forall c', c' ∈ l2 -> next c' <> Ok k)
  \/ (acc !! k = Some r
      /\ forall c, c ∈ l -> next c = Ok k -> ~ dt_lt first_pay_date k).
Proof.
  revert acc. induction l as [|c l IH]; intros acc; simpl.
  - intros [= <-] Hk. right. split; [done|]. intros c Hc. by apply elem_of_nil in Hc.
  - destruct (next c) as [k0|e] eqn:Hn; simpl; [|done].
    destruct (dt_ltb first_pay_date k0) eqn:Hlt.
    + destruct (national_rate_changes !! c) as [r0|] eqn:Hc; simpl; [|done].
      intros Hm Hk.
      destruct (IH _ Hm Hk) as [(l1 & c1 & l2 & -> & H1 & H2 & H3 & H4)|[Hacc Hno]].
      * left. exists (c :: l1), c1, l2. by repeat split.
      * destruct (decide (k0 = k)) as [->|Hne].
        -- rewrite lookup_insert_eq in Hacc. injection Hacc as ->.
           left. exists [], c, l. repeat split; try done.
           intros c' Hc' Hn'. by apply (Hno c').
        -- rewrite lookup_insert_ne in Hacc by done. right. split; [done|].
           intros c' [->|Hc']%elem_of_cons Hn'; [congruence|by apply (Hno c')].
    + simpl. intros Hm Hk.
      destruct (IH _ Hm Hk) as [(l1 & c1 & l2 & -> & H1 & H2 & H3 & H4)|[Hacc Hno]].
      * left. exists (c :: l1), c1, l2. by repeat split.
      * right. split; [done|].
        intros c' [->|Hc']%elem_of_cons Hn'; [|by apply (Hno c')].
        assert (k0 = k) as <- by congruence. unfold dt_lt. congruence.
Qed.

(** Every change whose effective date is after the first payment leaves
    an entry under that date. *)
Lemma adjust_from_complete (l : list datetime) (acc m : gmap datetime Qc)
    (c k : datetime) :
  adjust_from acc l = Ok m ->
  (c ∈ l /\ next c = Ok k /\ dt_lt first_pay_date k) \/ is_Some (acc !! k) ->
  is_Some (m !! k).
Proof.
  revert acc. induction l as [|c0 l IH]; intros acc; simpl.
  - intros [= <-] [(Hc & _)|H]; [by apply elem_of_nil in Hc|done].
  - destruct (next c0) as [k0|e] eqn:Hn; simpl; [|done].
    destruct (dt_ltb first_pay_date k0) eqn:Hlt.
    + destruct (national_rate_changes !! c0) as [r0|] eqn:Hc; simpl; [|done].
      intros Hm [([->|Hin]%elem_of_cons & Hk & Hf)|Hacc]; apply (IH _ Hm).
      * right. assert (k0 = k) as -> by congruence. by rewrite lookup_insert_eq.
      * by left.
      * right. destruct (decide (k0 = k)) as [->|Hne].
        -- by rewrite lookup_insert_eq.
        -- by rewrite lookup_insert_ne.
    + simpl. intros Hm [([->|Hin]%elem_of_cons & Hk & Hf)|Hacc]; apply (IH _ Hm).
      * assert (k0 = k) as -> by congruence. unfold dt_lt in Hf. congruence.
      * by left.
      * by right.
Qed.

(** The loop raises only when the search for an effective date does. *)
Lemma adjust_from_Raise (l : list datetime) (acc : gmap datetime Qc) (e : exn) :
  (forall c, c ∈ l -> is_Some (national_rate_changes !! c)) ->
  adjust_from acc l = Raise e ->
  e = ValueError /\ exists c, c ∈ l /\ next c = Raise ValueError.
Proof.
  revert acc. induction l as [|c l IH]; intros acc Hkeys; simpl; [done|].
  assert (Hl : forall c, c ∈ l -> is_Some (national_rate_changes !! c)).
  { intros c' Hc'. apply Hkeys. by apply list_elem_of_further. }
  destruct (next c) as [k0|e0] eqn:Hn; simpl.
  - destruct (Hkeys c) as [r0 Hr0]; [apply list_elem_of_here|]. rewrite Hr0.
    destruct (dt_ltb first_pay_date k0); simpl; intros Hm;
      destruct (IH _ Hl Hm) as (-> & c' & Hc' & Hn'); (split; [done|]);
      exists c'; (split; [by apply list_elem_of_further|done]).
  - intros [= <-]. pose proof (next_effective_date_Raise _ _ _ _ Hn) as ->.
    split; [done|]. exists c. split; [apply list_elem_of_here|done].
Qed.

End Adjustment.

(** Property X19.
    The adjusted dict keeps, under each effective date, the rate of the
    latest national change that takes effect on that date: the loop runs
    through the change dates in increasing order and a later change
    overwrites an earlier one with the same effective date. *)
Theorem adjusted_rate_changes_latest_wins
    (rate_adjustment_basis : string) (first_pay_date : datetime)
    (national_rate_changes m : gmap datetime Qc) (k : datetime) (r : Qc) :
  adjusted_rate_changes rate_adjustment_basis first_pay_date national_rate_changes
  = Ok m ->
  m !! k = Some r ->
  exists c,
    national_rate_changes !! c = Some r
    /\ next_effective_date rate_adjustment_basis first_pay_date c = Ok k
    /\ forall c', is_Some (national_rate_changes !! c') ->
                  next_effective_date rate_adjustment_basis first_pay_date c' = Ok k ->
                  dt_le c' c.
Proof.
  unfold adjusted_rate_changes. intros Hm Hk.
  destruct (adjust_from_lookup _ _ _ _ _ _ _ _ Hm Hk)
    as [(l1 & c & l2 & Hl & Hn & Hlt & Hc & Hlater)|[Hacc _]];
    [|by rewrite lookup_empty in Hacc].
  exists c. split; [done|]. split; [done|].
  intros c' Hc' Hn'.
  pose proof (sorted_change_dates_sorted national_rate_changes) as Hs.
  apply elem_of_sorted_change_dates in Hc'. rewrite Hl in Hc', Hs.
  apply StronglySorted_app in Hs as (Hcross & _ & _).
  apply elem_of_app in Hc' as [Hc'|[->|Hc']%elem_of_cons].
  - apply Hcross; [done|]. apply list_elem_of_here.
  - apply dt_le_refl.
  - by destruct (Hlater c').
Qed.

Lemma adjusted_rate_changes_latest_wins_witness :
  exists m national,
    build_rate_dict national_rate_table true 30 = Ok national
    /\ adjusted_rate_changes "每年1月1日" (mkdt 2014 9 12) national = Ok m
    /\ m !! mkdt 2016 1 1 = Some (Q2Qc (325 # 100))
    /\ exists c,
         national !! c = Some (Q2Qc (325 # 100))
         /\ next_effective_date "每年1月1日" (mkdt 2014 9 12) c = Ok (mkdt 2016 1 1)
         /\ forall c', is_Some (national !! c') ->
                       next_effective_date "每年1月1日" (mkdt 2014 9 12) c'
                       = Ok (mkdt 2016 1 1) ->
                       dt_le c' c.
Proof.
  destruct (build_rate_dict national_rate_table true 30) as [national|e] eqn:En.
  2:{ exfalso.
      assert (H : match build_rate_dict national_rate_table true 30 with
                  | Ok _ => true
                  | Raise _ => false
                  end = true) by (vm_compute; reflexivity).
      rewrite En in H. discriminate H. }
  assert (Hnat : national
                 = match build_rate_dict national_rate_table true 30 with
                   | Ok n => n
                   | Raise _ => ∅
                   end) by (by rewrite En).
  destruct (adjusted_rate_changes "每年1月1日" (mkdt 2014 9 12) national) as [m|e] eqn:Em.
  2:{ exfalso.
      assert (H : match adjusted_rate_changes "每年1月1日" (mkdt 2014 9 12) national with
                  | Ok _ => true
                  | Raise _ => false
                  end = true) by (rewrite Hnat; vm_compute; reflexivity).
      rewrite Em in H. discriminate H. }
  assert (Hk : m !! mkdt 2016 1 1 = Some (Q2Qc (325 # 100))).
  { assert (m = match adjusted_rate_changes "每年1月1日" (mkdt 2014 9 12) national with
                | Ok n => n
                | Raise _ => ∅
                end) as -> by (by rewrite Em).
    rewrite Hnat. vm_compute. reflexivity. }
  exists m, national. split; [reflexivity|]. split; [exact Em|]. split; [exact Hk|].
  exact (adjusted_rate_changes_latest_wins "每年1月1日" (mkdt 2014 9 12) national m
           (mkdt 2016 1 1) (Q2Qc (325 # 100)) Em Hk).
Defined.

(** Without a change on or before a date the scan leaves the rate as it is. *)
Lemma resolve_rate_before (m : gmap datetime Qc) (d : datetime) (c : Qc) :
  (forall k, is_Some (m !! k) -> dt_lt d k) -> resolve_rate m d c = c.
Proof.
  intros Hafter.
  destruct (resolve_rate_spec m d c) as [(k & Hk & Hle & _)|[_ Hr]]; [|done].
  exfalso. assert (Hlt : dt_lt d k) by (apply Hafter; by eexists).
  dt_order.
Qed.

(** Property X20.
    Every effective date kept by the adjustment is strictly after the
    first payment date, and every change that takes effect after the first
    payment is kept.  So the first pass of the generator, on the first
    payment date, always works with the base rate chosen in the form,
    whatever the national table holds. *)
Theorem adjusted_rate_changes_after_first_payment
    (rate_adjustment_basis : string) (first_pay_date : datetime)
    (national_rate_changes m : gmap datetime Qc) :
  adjusted_rate_changes rate_adjustment_basis first_pay_date national_rate_changes
  = Ok m ->
  (forall k, is_Some (m !! k) -> dt_lt first_pay_date k)
  /\ (forall c k, is_Some (national_rate_changes !! c) ->
                  next_effective_date rate_adjustment_basis first_pay_date c = Ok k ->
                  dt_lt first_pay_date k -> is_Some (m !! k))
  /\ (forall loan_amount initial_rate prepayments,
        pass_rate m (init_state loan_amount first_pay_date initial_rate prepayments)
        = initial_rate).
Proof.
  unfold adjusted_rate_changes. intros Hm.
  assert (Hafter : forall k, is_Some (m !! k) -> dt_lt first_pay_date k).
  { intros k [r Hk].
    destruct (adjust_from_lookup _ _ _ _ _ _ _ _ Hm Hk)
      as [(l1 & c & l2 & _ & _ & Hlt & _)|[Hacc _]]; [done|].
    by rewrite lookup_empty in Hacc. }
  split; [exact Hafter|]. split.
  - intros c k Hc Hn Hlt.
    apply (adjust_from_complete _ _ _ _ _ _ c k Hm). left.
    split; [by apply elem_of_sorted_change_dates|done].
  - intros loan_amount initial_rate prepayments. unfold pass_rate. simpl.
    by apply resolve_rate_before.
Qed.

Lemma adjusted_rate_changes_after_first_payment_witness :
  exists m national,
    build_rate_dict national_rate_table true 30 = Ok national
    /\ adjusted_rate_changes "每年放贷日" (mkdt 2022 9 12) national = Ok m
    /\ (forall k, is_Some (m !! k) -> dt_lt (mkdt 2022 9 12) k)
    /\ pass_rate m (init_state (num 400000) (mkdt 2022 9 12) (Q2Qc (325 # 100)) [])
       = Q2Qc (325 # 100).
Proof.
  destruct (build_rate_dict national_rate_table true 30) as [national|e] eqn:En.
  2:{ exfalso.
      assert (H : match build_rate_dict national_rate_table true 30 with
                  | Ok _ => true
                  | Raise _ => false
                  end = true) by (vm_compute; reflexivity).
      rewrite En in H. discriminate H. }
  assert (Hnat : national
                 = match build_rate_dict national_rate_table true 30 with
                   | Ok n => n
                   | Raise _ => ∅
                   end) by (by rewrite En).
  destruct (adjusted_rate_changes "每年放贷日" (mkdt 2022 9 12) national) as [m|e] eqn:Em.
  2:{ exfalso.
      assert (H : match adjusted_rate_changes "每年放贷日" (mkdt 2022 9 12) national with
                  | Ok _ => true
                  | Raise _ => false
                  end = true) by (rewrite Hnat; vm_compute; reflexivity).
      rewrite Em in H. discriminate H. }
  destruct (adjusted_rate_changes_after_first_payment "每年放贷日" (mkdt 2022 9 12)
              national m Em) as (Hafter & _ & Hrate).
  exists m, national. split; [reflexivity|]. split; [exact Em|].
  split; [exact Hafter|]. apply Hrate.
Defined.

(** ** From the form to the table *)

Lemma entry_rate_bucket (is_first_home : bool) (loan_years : Z) (entry : rate_entry) :
  entry_rate is_first_home loan_years entry
  = entry_rate is_first_home (if (loan_years <=? 5)%Z then 5 else 6) entry.
Proof.
  destruct entry as [[[[s a] b] c] d]. unfold entry_rate.
  by destruct (loan_years <=? 5)%Z.
Qed.

Lemma build_rate_dict_from_Ok (rate_table : list rate_entry) (is_first_home : bool)
    (loan_years : Z) (acc : gmap datetime Qc) :
  Forall (fun entry => is_Ok (strptime (entry_date entry))) rate_table ->
  is_Ok (build_rate_dict_from acc rate_table is_first_home loan_years).
Proof.
  intros H. revert acc. induction H as [|entry rate_table [d Hd] _ IH]; intros acc; simpl.
  - by eexists.
  - rewrite Hd, bind_Ok. apply IH.
Qed.

Lemma rates_on_elem (is_first_home : bool) (loan_years : Z) (d : datetime)
    (rate_table : list rate_entry) (r : Qc) :
  r ∈ rates_on is_first_home loan_years d rate_table ->
  exists entry, entry ∈ rate_table /\ strptime (entry_date entry) = Ok d.
Proof.
  unfold rates_on. intros (entry & Hin & Hr)%list_elem_of_omap.
  exists entry. split; [done|].
  destruct (strptime (entry_date entry)) as [date|]; [|done].
  by destruct (decide (date = d)) as [->|].
Qed.

(** The keys of a dict built from a table are dates of its entries. *)
Lemma build_rate_dict_keys (rate_table : list rate_entry) (is_first_home : bool)
    (loan_years : Z) (m : gmap datetime Qc) (d : datetime) :
  build_rate_dict rate_table is_first_home loan_years = Ok m -> is_Some (m !! d) ->
  exists entry, entry ∈ rate_table /\ strptime (entry_date entry) = Ok d.
Proof.
  intros Hm%(build_rate_dict_from_lookup _ _ _ _ _ d) [r Hr].
  rewrite Hm, lookup_empty in Hr.
  destruct (last _) as [r'|] eqn:E; [|done].
  eapply rates_on_elem, last_Some_elem_of, E.
Qed.

(** The national table always gives a dict; its keys are dates of the
    years 2015 to 2025. *)
Lemma national_rate_dict (is_first_home : bool) (loan_years : Z) :
  exists national,
    build_rate_dict national_rate_table is_first_home loan_years = Ok national
    /\ forall k, is_Some (national !! k) -> (2015 <= year k <= 2025)%Z.
Proof.
  destruct (build_rate_dict_from_Ok national_rate_table is_first_home loan_years ∅)
    as [national Hn].
  { repeat constructor; eexists; vm_compute; reflexivity. }
  exists national. split; [exact Hn|].
  intros k (entry & Hin & Hk)%(build_rate_dict_keys _ _ _ _ _ Hn).
  assert (Hall : Forall (fun entry => forall k, strptime (entry_date entry) = Ok k ->
                                       (2015 <= year k <= 2025)%Z) national_rate_table).
  { unfold national_rate_table.
    repeat (constructor;
            [intros k' Hk'; vm_compute in Hk'; injection Hk' as <-; simpl; lia|]).
    constructor. }
  eapply Forall_forall in Hall; [|exact Hin]. by apply Hall.
Qed.

Lemma adjusted_rate_changes_Ok (rate_adjustment_basis : string)
    (first_pay_date : datetime) (national_rate_changes : gmap datetime Qc) :
  (forall c, is_Some (national_rate_changes !! c) ->
             is_Ok (next_effective_date rate_adjustment_basis first_pay_date c)) ->
  is_Ok (adjusted_rate_changes rate_adjustment_basis first_pay_date
                               national_rate_changes).
Proof.
  intros Hnext. unfold adjusted_rate_changes.
  destruct (adjust_from _ _ _ _ _) as [m|e] eqn:E; [by eexists|].
  apply adjust_from_Raise in E as (_ & c & Hc & Hraise).
  - apply elem_of_sorted_change_dates in Hc.
    destruct (Hnext c Hc) as [d Hd]. congruence.
  - intros c Hc. by apply elem_of_sorted_change_dates.
Qed.

(** For a first payment date of the calendar the rate changes of the
    form are always defined. *)
Lemma web_rate_changes_Ok (use_national_rates : bool) (rate_adjustment_basis : string)
    (first_pay_date : datetime) (is_first_home : bool) (loan_years : Z)
    (rate_changes_input : gmap datetime Qc) :
  valid_date first_pay_date -> (1 <= year first_pay_date <= 9999)%Z ->
  is_Ok (web_rate_changes use_national_rates rate_adjustment_basis first_pay_date
                          is_first_home loan_years rate_changes_input).
Proof.
  intros Hv Hy. unfold web_rate_changes.
  destruct use_national_rates; [|by eexists].
  destruct (national_rate_dict is_first_home loan_years) as (national & -> & Hkeys).
  rewrite bind_Ok. apply adjusted_rate_changes_Ok.
  intros c Hc%Hkeys.
  destruct (next_effective_date_Ok rate_adjustment_basis first_pay_date c Hv Hy)
    as (d & Hd & _); [lia|]. by exists d.
Qed.

Lemma web_repayment_type_supported (repayment_type : string) :
  web_repayment_type repayment_type = "equal_principal"
  \/ web_repayment_type repayment_type = "equal_payment".
Proof. unfold web_repayment_type. destruct (String.eqb _ _); [by left|by right]. Qed.




